(** * The SQLite case reader of OpenMDAO: coordinates, hierarchy, category stores

    A shallow embedding of [openmdao/recorders/sqlite_reader_new.py]:
    the splitting of iteration coordinates, the child-finding routine of
    [SqliteCaseReader], the per-category case stores with their caches,
    the table loading done when a recording is opened and the gathering
    of the variables of the recorded systems.

    Conventions of the embedding.
    - Python [int] is [Z]; [len] is [Z.of_nat (length _)].
    - Python [str] is [string] (a sequence of one-byte characters); the
      class [\d] of the splitting pattern is the ASCII digits.
    - The interpreter is CPython 3 (the [PY3] branches are the ones
      taken).
    - The operator [is] between a string and a string literal is rendered
      as equality: CPython shares the empty string and the literals of a
      module.  Between two integers it is identity of objects
      ([Resolver.is_int]): CPython shares the integers from -5 to 256 only,
      and an integer computed by [len] is a new object outside that range;
      against the literal [0] this is equality.
    - A call either returns, raises, or recurses without bound; the last
      case is [Diverge] and is reached by consuming the recursion fuel. *)

From Stdlib Require Import String Ascii List ZArith Lia Bool.
From Stdlib Require Import Sorting.Sorted.
From stdpp Require Import base gmap strings.
Import ListNotations.

Local Open Scope string_scope.
Local Open Scope list_scope.
Local Open Scope Z_scope.

(** ** Outcomes of a call *)

(** The exception classes the reader can raise, together with the two
    lookup errors of the error taxonomy ([CaseNotFound], [SourceNotFound]). *)
Inductive exn : Type :=
| TypeError
| ValueError
| UnboundLocalError
| OperationalError
| CaseNotFound
| SourceNotFound
| ExternalError (name : string).

Inductive outcome (A : Type) : Type :=
| Return (a : A)
| Raise (e : exn)
| Diverge.

Arguments Return {A} a.
Arguments Raise {A} e.
Arguments Diverge {A}.

(** [AttributeError], raised by the use of an attribute that was never
    assigned. *)
Definition AttributeError : exn := ExternalError "AttributeError".

Definition bind {A B : Type} (o : outcome A) (k : A -> outcome B) : outcome B :=
  match o with
  | Return a => k a
  | Raise e => Raise e
  | Diverge => Diverge
  end.

Notation "x <- c1 ;; c2" := (bind c1 (fun x => c2))
  (at level 100, c1 at next level, right associativity).

(** [for x in l: ret += body(x)]: the bodies run in list order, and the
    first one that does not return ends the loop. *)
Fixpoint for_each {A B : Type} (body : A -> outcome (list B)) (l : list A)
  : outcome (list B) :=
  match l with
  | [] => Return []
  | x :: l' =>
      ys <- body x ;;
      zs <- for_each body l' ;;
      Return (ys ++ zs)
  end.

Definition len {A : Type} (l : list A) : Z := Z.of_nat (length l).

(** ** Iteration coordinates *)

Module Coord.

(** [_coord_split_re = re.compile('\|\\d+\|*')]: a pipe, one or more
    digits, then any number of pipes. *)

Definition is_pipe (c : ascii) : bool := Ascii.eqb c "|"%char.

Definition is_digit (c : ascii) : bool :=
  let n := nat_of_ascii c in (Nat.leb 48 n && Nat.leb n 57)%bool.

Fixpoint skip_while (p : ascii -> bool) (s : string) : string :=
  match s with
  | EmptyString => EmptyString
  | String c r => if p c then skip_while p r else s
  end.

(** The pattern matched at the head of [s]: both repetitions are greedy
    and nothing follows them, so the match is the pipe, the whole run of
    digits and the whole run of pipes.  The result is what is left. *)
Definition match_here (s : string) : option string :=
  match s with
  | String c (String d r) =>
      if (is_pipe c && is_digit d)%bool
      then Some (skip_while is_pipe (skip_while is_digit r))
      else None
  | _ => None
  end.

(** [re.split]: scan from the left; at a match close the current segment
    and continue after the match, otherwise move one character on.  The
    text after the last match is the last segment. *)
Fixpoint split_from (fuel : nat) (cur : string) (s : string) : list string :=
  match fuel with
  | O => [(cur ++ s)%string]
  | S fuel' =>
      match match_here s with
      | Some rest => cur :: split_from fuel' "" rest
      | None =>
          match s with
          | EmptyString => [cur]
          | String c r => split_from fuel' (cur ++ String c "")%string r
          end
      end
  end.

Definition split (s : string) : list string :=
  split_from (S (String.length s)) "" s.

(** [coordinate.startswith(parent_coordinate)] *)
Definition startswith (coordinate parent_coordinate : string) : bool :=
  String.prefix parent_coordinate coordinate.

End Coord.

(** ** The hierarchy resolver of [SqliteCaseReader] *)

Module Resolver.

(** [list.index]: the first position holding [x]; [None] stands for the
    [ValueError] the method raises when there is none. *)
Fixpoint list_index (x : Z) (l : list Z) : option nat :=
  match l with
  | [] => None
  | y :: l' => if Z.eqb y x then Some O else option_map S (list_index x l')
  end.

(** [sorted] on a list of integers. *)
Fixpoint insert_sorted (x : Z) (l : list Z) : list Z :=
  match l with
  | [] => [x]
  | y :: l' => if Z.leb x y then x :: l else y :: insert_sorted x l'
  end.

Definition sorted (l : list Z) : list Z := fold_right insert_sorted [] l.

(** [a is b] where [a] is the result of [len] and [b] an integer held
    in a list or a literal: the two are one object exactly when they are
    equal and among the integers CPython shares, -5 to 256. *)
Definition is_int (a b : Z) : bool :=
  (Z.eqb a b && Z.leb (-5) a && Z.leb a 256)%bool.

Definition _is_case_child (parent_coordinate coordinate : string)
           (expected_child_length : Z) : bool :=
  let split_coord := Coord.split coordinate in
  if (Coord.startswith coordinate parent_coordinate
      && is_int (len split_coord) expected_child_length)%bool
  then true
  else false.

(** [expected_child_length] as computed at the head of
    [_find_child_cases]. *)
Definition expected_child_length_at (par_len_idx : nat) (coord_lengths : list Z) : Z :=
  if Z.ltb (Z.of_nat par_len_idx) (len coord_lengths - 1)
  then nth (par_len_idx + 1) coord_lengths (-1)
  else -1.

(** Rows of [driver_iter] are 1-tuples [(coordinate,)], rows of
    [solver_iter] are pairs [(coordinate, counter)]; the routine reads
    component 0 of either.  An entry of the result is a pair
    [(coordinate, 'driver' | 'solver')]. *)
Fixpoint _find_child_cases (fuel : nat)
         (parent_iter_coord : string) (split_parent_iter_coord : list string)
         (driver_iter : list string) (solver_iter : list (string * Z))
         (recursive : bool) (coord_lengths : list Z)
  : outcome (list (string * string)) :=
  match fuel with
  | O => Diverge
  | S fuel' =>
      let par_len := len split_parent_iter_coord in
      match list_index (if Z.eqb par_len 0 then 2 else par_len) coord_lengths with
      | None => Raise ValueError
      | Some par_len_idx =>
          let expected_child_length :=
            expected_child_length_at par_len_idx coord_lengths in
          let descend (coord : string) (split_coord : list string) :=
            if recursive
            then _find_child_cases fuel' coord split_coord driver_iter
                                   solver_iter recursive coord_lengths
            else Return [] in
          if String.eqb parent_iter_coord ""
          then
            if Z.ltb 0 (len driver_iter)
            then
              for_each (fun d =>
                          sub <- descend d (Coord.split d) ;;
                          Return ((d, "driver") :: sub))
                       driver_iter
            else if Z.ltb 0 (len solver_iter)
            then
              let min_iter_len :=
                if Z.ltb 1 (len coord_lengths) then nth 1 coord_lengths (-1) else -1 in
              for_each (fun s =>
                          let split_coord := Coord.split (fst s) in
                          if is_int (len split_coord) min_iter_len
                          then sub <- descend (fst s) split_coord ;;
                               Return ((fst s, "solver") :: sub)
                          else Return [])
                       solver_iter
            else Return []
          else
            for_each (fun s =>
                        if _is_case_child parent_iter_coord (fst s) expected_child_length
                        then sub <- descend (fst s) (Coord.split (fst s)) ;;
                             Return ((fst s, "solver") :: sub)
                        else Return [])
                     solver_iter
      end
  end.

(** The list of possible coordinate lengths built by [get_cases]. *)
Definition add_length (coord_lengths : list Z) (s : string * Z) : list Z :=
  let s_len := len (Coord.split (fst s)) in
  if negb (existsb (Z.eqb s_len) coord_lengths)
  then coord_lengths ++ [s_len]
  else coord_lengths.

Definition coord_lengths_of (solver_iter : list (string * Z)) : list Z :=
  sorted (fold_left add_length solver_iter [2]).

End Resolver.

Import Resolver.

(** ** Recorded data *)

(** The contents the reader does not interpret itself: stored cells
    ([raw]: JSON text or pickled blobs), decoded arrays ([values]),
    floating-point columns ([real]) and decoded option records ([meta]). *)
Class Data : Type := {
  raw : Type;
  values : Type;
  real : Type;
  meta : Type
}.

Inductive category : Type :=
| driver | driver_derivative | system | solver | problem.

#[global] Instance category_eq_dec : EqDecision category.
Proof. solve_decision. Defined.

(** [case_id : int or str] *)
Inductive case_id : Type :=
| Index (i : Z)
| Name (s : string).

Section Tables.
Context `{D : Data}.

(** A row of an iteration table: the six leading columns every table
    has (the key column is [iteration_coordinate], or [case_name] in
    [problem_cases]) and the columns that follow them. *)
Record row (P : Type) : Type := Row {
  id : Z;
  counter : Z;
  iteration_coordinate : string;
  timestamp : real;
  success : Z;
  msg : string;
  cols : P
}.

Definition driver_cols : Type := raw * raw.                     (* inputs, outputs *)
Definition derivative_cols : Type := raw.                       (* totals *)
Definition system_cols : Type := raw * raw * raw.               (* inputs, outputs, residuals *)
Definition solver_cols : Type := real * real * (raw * raw * raw). (* abs_err, rel_err, ... *)
Definition problem_cols : Type := raw.                          (* outputs *)

Record metadata_row : Type := {
  md_format_version : Z;
  md_abs2prom : raw;
  md_prom2abs : raw;
  md_abs2meta : raw;
  md_var_settings : raw
}.

(** The recording file.  A table the file does not have is [None]; a
    statement that names it raises [sqlite3.OperationalError]. *)
Record database : Type := {
  metadata : option (list metadata_row);
  driver_iterations : option (list (row driver_cols));
  driver_derivatives : option (list (row derivative_cols));
  system_iterations : option (list (row system_cols));
  solver_iterations : option (list (row solver_cols));
  problem_cases : option (list (row problem_cols));
  driver_metadata : option (list raw);
  system_metadata : option (list (string * raw * raw));
  solver_metadata : option (list (string * raw * string))
}.

(** Modelled from the spec: the case classes of [openmdao.recorders.case]
    are not in the sources; a Case is the record of what its constructor
    is given (the file name and the name maps, which are those of the
    reader, are left out). *)
Inductive case : Type :=
| DriverCase (counter : Z) (iteration_coordinate : string) (timestamp : real)
             (success : Z) (msg : string) (inputs outputs : values)
| DriverDerivativesCase (counter : Z) (iteration_coordinate : string)
             (timestamp : real) (success : Z) (msg : string) (totals : values)
| SystemCase (counter : Z) (iteration_coordinate : string) (timestamp : real)
             (success : Z) (msg : string) (inputs outputs residuals : values)
| SolverCase (counter : Z) (iteration_coordinate : string) (timestamp : real)
             (success : Z) (msg : string) (abs_err rel_err : real)
             (inputs outputs residuals : values)
| ProblemCase (counter : Z) (case_name : string) (timestamp : real)
             (success : Z) (msg : string) (outputs : values).

Definition case_counter (c : case) : Z :=
  match c with
  | DriverCase n _ _ _ _ _ _ | DriverDerivativesCase n _ _ _ _ _
  | SystemCase n _ _ _ _ _ _ _ | SolverCase n _ _ _ _ _ _ _ _ _
  | ProblemCase n _ _ _ _ _ => n
  end.

Definition case_iteration_coordinate (c : case) : string :=
  match c with
  | DriverCase _ k _ _ _ _ _ | DriverDerivativesCase _ k _ _ _ _
  | SystemCase _ k _ _ _ _ _ _ | SolverCase _ k _ _ _ _ _ _ _ _
  | ProblemCase _ k _ _ _ _ => k
  end.

Definition category_of (c : case) : category :=
  match c with
  | DriverCase _ _ _ _ _ _ _ => driver
  | DriverDerivativesCase _ _ _ _ _ _ => driver_derivative
  | SystemCase _ _ _ _ _ _ _ _ => system
  | SolverCase _ _ _ _ _ _ _ _ _ _ => solver
  | ProblemCase _ _ _ _ _ _ => problem
  end.

(** A category store ([BaseCases] and its subclasses): the ordered
    keys and the cache [_cases], which holds references to Case objects. *)
Record cases_store : Type := {
  _case_keys : list string;
  num_cases : Z;
  _cases : gmap string nat
}.

(** The reader and the objects it has created.  [heap] holds the Case
    objects, a reference being a position in it; [decoded] and
    [queries] count the decoder calls and the SQL statements executed. *)
Record reader : Type := {
  format_version : Z;
  driver_cases : cases_store;
  driver_derivative_cases : cases_store;
  system_cases : cases_store;
  solver_cases : cases_store;
  problem_cases_store : cases_store;
  reader_driver_metadata : option meta;
  reader_system_metadata : gmap string (option meta * option meta);
  reader_solver_metadata : gmap string (meta * string);
  heap : list case;
  decoded : nat;
  queries : nat
}.

Definition store_of (k : category) (r : reader) : cases_store :=
  match k with
  | driver => driver_cases r
  | driver_derivative => driver_derivative_cases r
  | system => system_cases r
  | solver => solver_cases r
  | problem => problem_cases_store r
  end.

Definition with_store (k : category) (st : cases_store) (r : reader) : reader :=
  {| format_version := format_version r;
     driver_cases := if decide (k = driver) then st else driver_cases r;
     driver_derivative_cases :=
       if decide (k = driver_derivative) then st else driver_derivative_cases r;
     system_cases := if decide (k = system) then st else system_cases r;
     solver_cases := if decide (k = solver) then st else solver_cases r;
     problem_cases_store := if decide (k = problem) then st else problem_cases_store r;
     reader_driver_metadata := reader_driver_metadata r;
     reader_system_metadata := reader_system_metadata r;
     reader_solver_metadata := reader_solver_metadata r;
     heap := heap r; decoded := decoded r; queries := queries r |}.

Definition with_heap (h : list case) (r : reader) : reader :=
  {| format_version := format_version r;
     driver_cases := driver_cases r;
     driver_derivative_cases := driver_derivative_cases r;
     system_cases := system_cases r;
     solver_cases := solver_cases r;
     problem_cases_store := problem_cases_store r;
     reader_driver_metadata := reader_driver_metadata r;
     reader_system_metadata := reader_system_metadata r;
     reader_solver_metadata := reader_solver_metadata r;
     heap := h; decoded := decoded r; queries := queries r |}.

Definition with_counts (d q : nat) (r : reader) : reader :=
  {| format_version := format_version r;
     driver_cases := driver_cases r;
     driver_derivative_cases := driver_derivative_cases r;
     system_cases := system_cases r;
     solver_cases := solver_cases r;
     problem_cases_store := problem_cases_store r;
     reader_driver_metadata := reader_driver_metadata r;
     reader_system_metadata := reader_system_metadata r;
     reader_solver_metadata := reader_solver_metadata r;
     heap := heap r; decoded := d; queries := q |}.

Definition with_metadata (dm : option meta)
           (sm : gmap string (option meta * option meta))
           (vm : gmap string (meta * string)) (r : reader) : reader :=
  {| format_version := format_version r;
     driver_cases := driver_cases r;
     driver_derivative_cases := driver_derivative_cases r;
     system_cases := system_cases r;
     solver_cases := solver_cases r;
     problem_cases_store := problem_cases_store r;
     reader_driver_metadata := dm;
     reader_system_metadata := sm;
     reader_solver_metadata := vm;
     heap := heap r; decoded := decoded r; queries := queries r |}.

(** *** Computations on the reader *)

Definition M (A : Type) : Type := reader -> outcome A * reader.

Definition ret {A : Type} (a : A) : M A := fun r => (Return a, r).

Definition raise {A : Type} (e : exn) : M A := fun r => (Raise e, r).

Definition lift {A : Type} (o : outcome A) : M A := fun r => (o, r).

Definition mbind {A B : Type} (m : M A) (k : A -> M B) : M B :=
  fun r =>
    match m r with
    | (Return a, r') => k a r'
    | (Raise e, r') => (Raise e, r')
    | (Diverge, r') => (Diverge, r')
    end.

Definition get_reader : M reader := fun r => (Return r, r).

Definition modify (f : reader -> reader) : M unit := fun r => (Return tt, f r).

(** *** SQL statements *)

(** [cur.execute] on a table: the statement is counted, and raises
    [OperationalError] when the table does not exist. *)
Definition execute {A : Type} (table : option (list A)) : M (list A) :=
  fun r =>
    let r' := with_counts (decoded r) (S (queries r)) r in
    match table with
    | Some rows => (Return rows, r')
    | None => (Raise OperationalError, r')
    end.

(** [ORDER BY key ASC]: rows in ascending key order, rows of equal key
    in stored order. *)
Fixpoint insert_by {A : Type} (key : A -> Z) (x : A) (l : list A) : list A :=
  match l with
  | [] => [x]
  | y :: l' => if Z.ltb (key x) (key y) then x :: l else y :: insert_by key x l'
  end.

Definition order_by {A : Type} (key : A -> Z) (l : list A) : list A :=
  fold_right (insert_by key) [] l.

(** [WHERE iteration_coordinate = :iteration_coordinate] followed by
    [fetchone]: the first matching row, or [None]. *)
Definition fetchone_where {P : Type} (coordinate : string) (rows : list (row P))
  : option (row P) :=
  List.find (fun rw => String.eqb (iteration_coordinate P rw) coordinate) rows.

(** *** Objects *)

Definition alloc (c : case) : M nat :=
  fun r => (Return (length (heap r)), with_heap (heap r ++ [c]) r).

Definition cache_put (k : category) (key : string) (ref : nat) : M unit :=
  modify (fun r =>
            let st := store_of k r in
            with_store k {| _case_keys := _case_keys st;
                            num_cases := num_cases st;
                            _cases := <[key := ref]> (_cases st) |} r).

Definition deref (ref : nat) : M case :=
  fun r => match heap r !! ref with
           | Some c => (Return c, r)
           | None => (Raise (ExternalError "dangling reference"), r)
           end.

End Tables.

Arguments id {D P} _.
Arguments counter {D P} _.
Arguments iteration_coordinate {D P} _.
Arguments timestamp {D P} _.
Arguments success {D P} _.
Arguments msg {D P} _.
Arguments cols {D P} _.
Arguments Row {D P}.

Notation "'let*' x ':=' c1 'in' c2" := (mbind c1 (fun x => c2))
  (at level 10, x name, c1 at level 100, c2 at level 200).
Notation "c1 ';;;' c2" := (mbind c1 (fun _ => c2))
  (at level 100, right associativity).

(** The functions the module imports or inherits and whose code is not
    part of it: the two value decoders ([json_to_np_array] of
    [record_util], [blob_to_array] of [sqlite_recorder]), [json_loads] and
    [pickle.loads] for option records and name maps, the recorder's
    current [format_version], [BaseCases.get_iteration_coordinate] (given
    the store's keys) and [DriverCase.scale].  For the metadata row read
    by [SqliteCaseReader.__init__]: [encode] is [str.encode],
    [convert_bounds] the rewriting of the entries 'lower' and 'upper' of
    the decoded [abs2meta] by [convert_to_np_array] of [record_util], and
    [promoted_to_absolute_map] the constructor of [PromotedToAbsoluteMap],
    given [abs2meta], [prom2abs], [abs2prom] and the output flag. *)
Class Externals `{D : Data} : Type := {
  json_to_np_array : raw -> outcome values;
  blob_to_array : raw -> outcome values;
  json_loads : raw -> outcome meta;
  pickle_loads : raw -> outcome meta;
  encode : raw -> outcome raw;
  convert_bounds : meta -> outcome meta;
  promoted_to_absolute_map : meta -> meta -> meta -> Z -> outcome unit;
  recorder_format_version : Z;
  get_iteration_coordinate : list string -> case_id -> outcome string;
  scale : case -> outcome case
}.

Section Generators.
Context `{D : Data}.

(** A generator run to its end: the references it yielded, how it
    ended, and the reader it left. *)
Definition G : Type := reader -> (list nat * outcome unit) * reader.

Fixpoint yield_each {A : Type} (body : A -> M nat) (l : list A) : G :=
  match l with
  | [] => fun r => (([], Return tt), r)
  | x :: l' =>
      fun r =>
        match body x r with
        | (Return ref, r1) =>
            let '((ys, e), r2) := yield_each body l' r1 in ((ref :: ys, e), r2)
        | (Raise e, r1) => (([], Raise e), r1)
        | (Diverge, r1) => (([], Diverge), r1)
        end
  end.

(** Code run before the first [yield]. *)
Definition before {A : Type} (m : M A) (k : A -> G) : G :=
  fun r =>
    match m r with
    | (Return a, r1) => k a r1
    | (Raise e, r1) => (([], Raise e), r1)
    | (Diverge, r1) => (([], Diverge), r1)
    end.

Fixpoint each {A : Type} (body : A -> M unit) (l : list A) : M unit :=
  match l with
  | [] => ret tt
  | x :: l' => body x ;;; each body l'
  end.

Definition heap_set (ref : nat) (c : case) : M unit :=
  modify (fun r => with_heap (<[ref := c]> (heap r)) r).

(** A decoder call. *)
Definition decode (f : raw -> outcome values) (text : raw) : M values :=
  fun r => (f text, with_counts (S (decoded r)) (queries r) r).

(** The branch [if self.format_version >= 3: ... elif self.format_version
    in (1, 2): ...] of the row decoders; in the remaining case no array
    is bound and the constructor call that follows raises
    [UnboundLocalError]. *)
Definition decoder_for `{X : !Externals} (version : Z)
  : option (raw -> outcome values) :=
  if Z.leb 3 version then Some json_to_np_array
  else if (Z.eqb version 1 || Z.eqb version 2)%bool then Some blob_to_array
  else None.

End Generators.

(** ** The category stores *)

Module DriverCases.
Section Methods.
Context `{D : Data} `{X : !Externals}.

Definition _extract_case_from_row (rw : option (row driver_cols)) : M nat :=
  match rw with
  | None => raise TypeError
  | Some rw =>
      let '(inputs_text, outputs_text) := cols rw in
      let* self := get_reader in
      match decoder_for (format_version self) with
      | Some dec =>
          let* inputs_array := decode dec inputs_text in
          let* outputs_array := decode dec outputs_text in
          alloc (DriverCase (counter rw) (iteration_coordinate rw) (timestamp rw)
                            (success rw) (msg rw) inputs_array outputs_array)
      | None => raise UnboundLocalError
      end
  end.

Definition load_cases (db : database) : M unit :=
  let* rows := execute (driver_iterations db) in
  each (fun rw =>
          let* case := _extract_case_from_row (Some rw) in
          let* c := deref case in
          cache_put driver (case_iteration_coordinate c) case)
       rows.

Definition cases (db : database) : G :=
  before (execute (driver_iterations db)) (fun rows =>
    yield_each (fun rw =>
                  let* case := _extract_case_from_row (Some rw) in
                  let* c := deref case in
                  cache_put driver (case_iteration_coordinate c) case ;;;
                  ret case)
               rows).

Definition get_case (db : database) (case_id : case_id) (scaled : bool) : M nat :=
  let* self := get_reader in
  let* iteration_coordinate :=
    lift (get_iteration_coordinate (_case_keys (driver_cases self)) case_id) in
  let* case :=
    match _cases (driver_cases self) !! iteration_coordinate with
    | Some case => ret case
    | None =>
        let* rows := execute (driver_iterations db) in
        let rw := fetchone_where iteration_coordinate rows in
        let* case := _extract_case_from_row rw in
        let* c := deref case in
        cache_put driver (case_iteration_coordinate c) case ;;;
        ret case
    end in
  if scaled
  then
    let* c := deref case in
    let* copy := alloc c in
    let* c' := lift (scale c) in
    heap_set copy c' ;;;
    ret copy
  else ret case.

End Methods.
End DriverCases.

Module DriverDerivativeCases.
Section Methods.
Context `{D : Data} `{X : !Externals}.

Definition _extract_case_from_row (rw : option (row derivative_cols)) : M nat :=
  match rw with
  | None => raise TypeError
  | Some rw =>
      let totals_blob := cols rw in
      let* totals_array := decode blob_to_array totals_blob in
      alloc (DriverDerivativesCase (counter rw) (iteration_coordinate rw)
                                   (timestamp rw) (success rw) (msg rw) totals_array)
  end.

Definition load_cases (db : database) : M unit :=
  let* rows := execute (driver_derivatives db) in
  each (fun rw =>
          let* case := _extract_case_from_row (Some rw) in
          let* c := deref case in
          cache_put driver_derivative (case_iteration_coordinate c) case)
       rows.

Definition get_case (db : database) (case_id : case_id) : M nat :=
  let* self := get_reader in
  let* iteration_coordinate :=
    lift (get_iteration_coordinate (_case_keys (driver_derivative_cases self)) case_id) in
  match _cases (driver_derivative_cases self) !! iteration_coordinate with
  | Some case => ret case
  | None =>
      let* rows := execute (driver_derivatives db) in
      let rw := fetchone_where iteration_coordinate rows in
      let* case := _extract_case_from_row rw in
      let* c := deref case in
      cache_put driver_derivative (case_iteration_coordinate c) case ;;;
      ret case
  end.

End Methods.
End DriverDerivativeCases.

Module ProblemCases.
Section Methods.
Context `{D : Data} `{X : !Externals}.

Definition _extract_case_from_row (rw : option (row problem_cols)) : M nat :=
  match rw with
  | None => raise TypeError
  | Some rw =>
      let outputs_text := cols rw in
      let* self := get_reader in
      match decoder_for (format_version self) with
      | Some dec =>
          let* outputs_array := decode dec outputs_text in
          alloc (ProblemCase (counter rw) (iteration_coordinate rw) (timestamp rw)
                             (success rw) (msg rw) outputs_array)
      | None => raise UnboundLocalError
      end
  end.

Definition load_cases (db : database) : M unit :=
  let* rows := execute (problem_cases db) in
  each (fun rw =>
          let* case := _extract_case_from_row (Some rw) in
          let* c := deref case in
          cache_put problem (case_iteration_coordinate c) case)
       rows.

Definition cases (db : database) : G :=
  before (execute (problem_cases db)) (fun rows =>
    yield_each (fun rw =>
                  let* case := _extract_case_from_row (Some rw) in
                  let* c := deref case in
                  cache_put problem (case_iteration_coordinate c) case ;;;
                  ret case)
               rows).

Definition get_case (db : database) (case_name : string) : M nat :=
  let* self := get_reader in
  match _cases (problem_cases_store self) !! case_name with
  | Some case => ret case
  | None =>
      let* rows := execute (problem_cases db) in
      let rw := fetchone_where case_name rows in
      let* case := _extract_case_from_row rw in
      cache_put problem case_name case ;;;
      ret case
  end.

End Methods.
End ProblemCases.

Module SystemCases.
Section Methods.
Context `{D : Data} `{X : !Externals}.

Definition _extract_case_from_row (rw : option (row system_cols)) : M nat :=
  match rw with
  | None => raise TypeError
  | Some rw =>
      let '(inputs_text, outputs_text, residuals_text) := cols rw in
      let* self := get_reader in
      match decoder_for (format_version self) with
      | Some dec =>
          let* inputs_array := decode dec inputs_text in
          let* outputs_array := decode dec outputs_text in
          let* residuals_array := decode dec residuals_text in
          alloc (SystemCase (counter rw) (iteration_coordinate rw) (timestamp rw)
                            (success rw) (msg rw)
                            inputs_array outputs_array residuals_array)
      | None => raise UnboundLocalError
      end
  end.

Definition load_cases (db : database) : M unit :=
  let* rows := execute (system_iterations db) in
  each (fun rw =>
          let* case := _extract_case_from_row (Some rw) in
          let* c := deref case in
          cache_put system (case_iteration_coordinate c) case)
       rows.

Definition get_case (db : database) (case_id : case_id) : M nat :=
  let* self := get_reader in
  let* iteration_coordinate :=
    lift (get_iteration_coordinate (_case_keys (system_cases self)) case_id) in
  match _cases (system_cases self) !! iteration_coordinate with
  | Some case => ret case
  | None =>
      let* rows := execute (system_iterations db) in
      let rw := fetchone_where iteration_coordinate rows in
      let* case := _extract_case_from_row rw in
      let* c := deref case in
      cache_put system (case_iteration_coordinate c) case ;;;
      ret case
  end.

End Methods.
End SystemCases.

Module SolverCases.
Section Methods.
Context `{D : Data} `{X : !Externals}.

Definition _extract_case_from_row (rw : option (row solver_cols)) : M nat :=
  match rw with
  | None => raise TypeError
  | Some rw =>
      let '(abs_err, rel_err, (input_text, output_text, residuals_text)) := cols rw in
      let* self := get_reader in
      match decoder_for (format_version self) with
      | Some dec =>
          let* input_array := decode dec input_text in
          let* output_array := decode dec output_text in
          let* residuals_array := decode dec residuals_text in
          alloc (SolverCase (counter rw) (iteration_coordinate rw) (timestamp rw)
                            (success rw) (msg rw) abs_err rel_err
                            input_array output_array residuals_array)
      | None => raise UnboundLocalError
      end
  end.

Definition load_cases (db : database) : M unit :=
  let* rows := execute (solver_iterations db) in
  each (fun rw =>
          let* case := _extract_case_from_row (Some rw) in
          let* c := deref case in
          cache_put solver (case_iteration_coordinate c) case)
       rows.

Definition get_case (db : database) (case_id : case_id) : M nat :=
  let* self := get_reader in
  let* iteration_coordinate :=
    lift (get_iteration_coordinate (_case_keys (solver_cases self)) case_id) in
  match _cases (solver_cases self) !! iteration_coordinate with
  | Some case => ret case
  | None =>
      let* rows := execute (solver_iterations db) in
      let rw := fetchone_where iteration_coordinate rows in
      let* case := _extract_case_from_row rw in
      cache_put solver iteration_coordinate case ;;;
      ret case
  end.

End Methods.
End SolverCases.

(** ** The reader *)

Module SqliteCaseReader.
Section Methods.
Context `{D : Data} `{X : !Externals}.

(** Modelled from the spec: [BaseCases.__init__] is not in the sources;
    a category store starts with no coordinates and an empty cache. *)
Definition new_store : cases_store :=
  {| _case_keys := []; num_cases := 0; _cases := ∅ |}.

(** Modelled from the spec: [BaseCaseReader.__init__] is not in the
    sources; the option records of the reader start empty. *)
Definition new_reader : reader :=
  {| format_version := 0;
     driver_cases := new_store;
     driver_derivative_cases := new_store;
     system_cases := new_store;
     solver_cases := new_store;
     problem_cases_store := new_store;
     reader_driver_metadata := None;
     reader_system_metadata := ∅;
     reader_solver_metadata := ∅;
     heap := []; decoded := 0; queries := 0 |}.

Definition set_keys (k : category) (keys : list string) : M unit :=
  modify (fun r =>
            with_store k {| _case_keys := keys;
                            num_cases := len keys;
                            _cases := _cases (store_of k r) |} r).

(** [try: m except sqlite3.OperationalError: handler] *)
Definition try_except_operational (m handler : M unit) : M unit :=
  fun r =>
    match m r with
    | (Raise OperationalError, r') => handler r'
    | other => other
    end.

(** The five category stores are created anew. *)
Definition new_stores : M unit :=
  modify (with_store driver new_store) ;;;
  modify (with_store driver_derivative new_store) ;;;
  modify (with_store system new_store) ;;;
  modify (with_store solver new_store) ;;;
  modify (with_store problem new_store).

(** [cur.execute(iter_query % table); rows = cur.fetchall()] and the
    two assignments to [_case_keys] and [num_cases]. *)
Definition read_keys {P : Type} (k : category) (table : option (list (row P)))
  : M unit :=
  let* rows := execute table in
  set_keys k (map iteration_coordinate (order_by id rows)).

(** The same inside [try: ... except sqlite3.OperationalError:
    if self.format_version >= 2: reraise(...)]. *)
Definition read_optional_keys {P : Type} (k : category)
           (table : option (list (row P))) (version : Z) : M unit :=
  try_except_operational
    (read_keys k table)
    (if Z.leb 2 version then raise OperationalError else ret tt).

(** [self.system_metadata[id]] holds the entries 'scaling_factors' and
    'component_options', each absent until it is assigned. *)
Definition set_system_metadata (ident : string) (entry : option meta * option meta)
  : M unit :=
  modify (fun r => with_metadata (reader_driver_metadata r)
                                 (<[ident := entry]> (reader_system_metadata r))
                                 (reader_solver_metadata r) r).

(** "Read in metadata for Drivers, Systems, and Solvers". *)
Definition read_metadata (db : database) (version : Z) : M unit :=
  let* rows := execute (driver_metadata db) in
  match rows with
  | [] => ret tt
  | cell :: _ =>
      let* m := lift (if Z.leb 3 version then json_loads cell else pickle_loads cell) in
      modify (fun r => with_metadata (Some m) (reader_system_metadata r)
                                     (reader_solver_metadata r) r)
  end ;;;
  let* rows := execute (system_metadata db) in
  each (fun '(ident, scaling, options) =>
          set_system_metadata ident (None, None) ;;;
          let* sf := lift (pickle_loads scaling) in
          set_system_metadata ident (Some sf, None) ;;;
          let* co := lift (pickle_loads options) in
          set_system_metadata ident (Some sf, Some co))
       rows ;;;
  let* rows := execute (solver_metadata db) in
  each (fun '(ident, options, solver_class) =>
          let* so := lift (pickle_loads options) in
          modify (fun r => with_metadata (reader_driver_metadata r)
                                         (reader_system_metadata r)
                                         (<[ident := (so, solver_class)]>
                                            (reader_solver_metadata r)) r))
       rows.

Definition _load (db : database) : M unit :=
  new_stores ;;;
  let* self := get_reader in
  let version := format_version self in
  if (Z.leb 1 version && Z.leb version recorder_format_version)%bool
  then
    read_keys driver (driver_iterations db) ;;;
    read_optional_keys driver_derivative (driver_derivatives db) version ;;;
    read_keys system (system_iterations db) ;;;
    read_keys solver (solver_iterations db) ;;;
    read_optional_keys problem (problem_cases db) version ;;;
    read_metadata db version
  else raise ValueError.

Definition load_cases (db : database) : M unit :=
  DriverCases.load_cases db ;;;
  SolverCases.load_cases db ;;;
  SystemCases.load_cases db ;;;
  ProblemCases.load_cases db.

Definition set_format_version (v : Z) : M unit :=
  modify (fun r =>
            {| format_version := v;
               driver_cases := driver_cases r;
               driver_derivative_cases := driver_derivative_cases r;
               system_cases := system_cases r;
               solver_cases := solver_cases r;
               problem_cases_store := problem_cases_store r;
               reader_driver_metadata := reader_driver_metadata r;
               reader_system_metadata := reader_system_metadata r;
               reader_solver_metadata := reader_solver_metadata r;
               heap := heap r; decoded := decoded r; queries := queries r |}).

(** [abs2prom], [prom2abs] and [abs2meta] decoded by [loads], in this
    order. *)
Definition load_maps (loads : raw -> outcome meta) (abs2prom prom2abs abs2meta : raw)
  : outcome (meta * meta * meta) :=
  a <- loads abs2prom ;;
  p <- loads prom2abs ;;
  m <- loads abs2meta ;;
  Return (a, p, m).

(** The lines of [__init__] between the reading of the format version
    and the call of [_load]: [_var_settings] and the three name maps are
    decoded as the version tells, and the two [PromotedToAbsoluteMap] are
    built from them.  For a version that is neither 3 or more nor 1 or
    2 no branch assigns the maps, and the use of [self._abs2meta] that
    follows raises [AttributeError] (the constructor of the base class
    [BaseCaseReader], whose code is not part of the module, is taken
    not to assign them either). *)
Definition read_catalog (version : Z) (rw : metadata_row) : outcome unit :=
  _ <- (if Z.leb 4 version
        then v <- json_loads (md_var_settings rw) ;; Return tt
        else Return tt) ;;
  maps <- (if Z.leb 3 version
           then
             maps <- load_maps json_loads (md_abs2prom rw) (md_prom2abs rw)
                               (md_abs2meta rw) ;;
             let '(a, p, m) := maps in
             m' <- convert_bounds m ;;
             Return (Some (a, p, m'))
           else if (Z.eqb version 1 || Z.eqb version 2)%bool
           then
             match load_maps pickle_loads (md_abs2prom rw) (md_prom2abs rw)
                             (md_abs2meta rw) with
             | Raise TypeError =>
                 a <- (t <- encode (md_abs2prom rw) ;; pickle_loads t) ;;
                 p <- (t <- encode (md_prom2abs rw) ;; pickle_loads t) ;;
                 m <- (t <- encode (md_abs2meta rw) ;; pickle_loads t) ;;
                 Return (Some (a, p, m))
             | Return maps => Return (Some maps)
             | Raise e => Raise e
             | Diverge => Diverge
             end
           else Return None) ;;
  match maps with
  | None => Raise AttributeError
  | Some (a, p, m) =>
      _ <- promoted_to_absolute_map m p a 1 ;;
      promoted_to_absolute_map m p a 0
  end.

(** [SqliteCaseReader(filename, pre_load)] on a file that is a valid
    database: the reader it builds, or the exception. *)
Definition __init__ (db : database) (pre_load : bool) : M unit :=
  let* rows := execute (metadata db) in
  match rows with
  | [] => raise TypeError
  | rw :: _ =>
      set_format_version (md_format_version rw) ;;;
      lift (read_catalog (md_format_version rw) rw) ;;;
      _load db ;;;
      if pre_load then load_cases db else ret tt
  end.

Definition open (db : database) (pre_load : bool) : outcome unit * reader :=
  __init__ db pre_load new_reader.

(** The rows [get_cases] hands to the resolver. *)
Definition driver_iter_of (rows : list (row driver_cols)) : list string :=
  map iteration_coordinate (order_by counter rows).

Definition solver_iter_of (rows : list (row solver_cols)) : list (string * Z) :=
  map (fun rw => (iteration_coordinate rw, counter rw)) (order_by counter rows).

(** [get_cases]; [source] is a string, so the [TypeError] of the first
    branch cannot arise.  [fuel] bounds the recursion of the resolver. *)
Definition get_cases (fuel : nat) (db : database) (source : string)
           (recurse flat : bool) : G :=
  if String.eqb source "problem" then ProblemCases.cases db
  else if String.eqb source "driver" then DriverCases.cases db
  else
    let iter_coord := source in
    before (execute (driver_iterations db)) (fun drows =>
    let driver_iter := driver_iter_of drows in
    before (execute (solver_iterations db)) (fun srows =>
    let solver_iter := solver_iter_of srows in
    let split_iter_coord :=
      if negb (String.eqb iter_coord "") then Coord.split iter_coord else [] in
    let coord_lengths := coord_lengths_of solver_iter in
    before (lift (_find_child_cases fuel iter_coord split_iter_coord driver_iter
                                    solver_iter recurse coord_lengths))
           (fun iter_set =>
    yield_each (fun iteration =>
                  if String.eqb (snd iteration) "driver"
                  then DriverCases.get_case db (Name (fst iteration)) false
                  else SolverCases.get_case db (Name (fst iteration)))
               iter_set))).

(** The counters and the coordinates of the cases a generator yielded. *)
Definition counters_of (refs : list nat) (r : reader) : list (option Z) :=
  map (fun ref => option_map case_counter (heap r !! ref)) refs.

Definition coordinates_of (refs : list nat) (r : reader) : list (option string) :=
  map (fun ref => option_map case_iteration_coordinate (heap r !! ref)) refs.

Definition categories_of (refs : list nat) (r : reader) : list (option category) :=
  map (fun ref => option_map category_of (heap r !! ref)) refs.

(** A missing table read as an empty one. *)
Definition or_empty {A : Type} (table : option (list A)) : option (list A) :=
  match table with
  | Some rows => Some rows
  | None => Some []
  end.

(** The same file with other [driver_derivatives] and [problem_cases]
    tables. *)
Definition with_optional_tables (dd : option (list (row derivative_cols)))
           (pc : option (list (row problem_cols))) (db : database) : database :=
  {| metadata := metadata db;
     driver_iterations := driver_iterations db;
     driver_derivatives := dd;
     system_iterations := system_iterations db;
     solver_iterations := solver_iterations db;
     problem_cases := pc;
     driver_metadata := driver_metadata db;
     system_metadata := system_metadata db;
     solver_metadata := solver_metadata db |}.

End Methods.
End SqliteCaseReader.

(** ** The five category stores seen as one family *)

Module CategoryStore.
Section Methods.
Context `{D : Data} `{X : !Externals}.

(** [get_case] of the store of category [k], on a string identifier and
    with the default arguments. *)
Definition get_case (k : category) (db : database) (key : string) : M nat :=
  match k with
  | driver => DriverCases.get_case db (Name key) false
  | driver_derivative => DriverDerivativeCases.get_case db (Name key)
  | system => SystemCases.get_case db (Name key)
  | solver => SolverCases.get_case db (Name key)
  | problem => ProblemCases.get_case db key
  end.

(** The coordinate (or case name) the store of category [k] looks up
    for the identifier [key]. *)
Definition looked_up (k : category) (r : reader) (key : string) : outcome string :=
  match k with
  | problem => Return key
  | _ => get_iteration_coordinate (_case_keys (store_of k r)) (Name key)
  end.

(** The key column of the table of category [k]. *)
Definition table_keys (k : category) (db : database) : option (list string) :=
  match k with
  | driver => option_map (map iteration_coordinate) (driver_iterations db)
  | driver_derivative => option_map (map iteration_coordinate) (driver_derivatives db)
  | system => option_map (map iteration_coordinate) (system_iterations db)
  | solver => option_map (map iteration_coordinate) (solver_iterations db)
  | problem => option_map (map iteration_coordinate) (problem_cases db)
  end.

(** The caches of a reader of [db] are in order: a cached reference
    points to a Case of the store's own class, and a cached key is a
    key of the store's table. *)
Definition wf (db : database) (r : reader) : Prop :=
  forall k key ref,
    _cases (store_of k r) !! key = Some ref ->
    (exists c, heap r !! ref = Some c /\ category_of c = k)
    /\ (forall keys, table_keys k db = Some keys -> In key keys).

(** [r'] is [r] after one Case of category [k], key [key] and counter
    [n] has been created at the reference [ref]; the stores are as
    they were. *)
Definition fresh_case (k : category) (key : string) (n : Z)
           (r r' : reader) (ref : nat) : Prop :=
  ref = length (heap r)
  /\ (exists c, heap r' = heap r ++ [c]
                /\ category_of c = k
                /\ case_iteration_coordinate c = key
                /\ case_counter c = n)
  /\ (forall k', store_of k' r' = store_of k' r)
  /\ format_version r' = format_version r
  /\ queries r' = queries r.

(** What a returning [get_case] of store [k] on the coordinate [c] has
    done: either the cache held [ref] and nothing changed, or the table
    has a row of key [c], a Case was created for it at the fresh
    reference [ref] after one more statement, and the cache of store
    [k] (and nothing else in the stores) was extended with it. *)
Definition fetched (k : category) (db : database) (c : string)
           (r : reader) (ref : nat) (r1 : reader) : Prop :=
  (_cases (store_of k r) !! c = Some ref /\ r1 = r)
  \/ (_cases (store_of k r) !! c = None
      /\ (exists keys, table_keys k db = Some keys /\ In c keys)
      /\ ref = length (heap r)
      /\ (exists obj, heap r1 = heap r ++ [obj]
                      /\ category_of obj = k
                      /\ case_iteration_coordinate obj = c)
      /\ _cases (store_of k r1) = <[c := ref]> (_cases (store_of k r))
      /\ _case_keys (store_of k r1) = _case_keys (store_of k r)
      /\ (forall k', k' <> k -> store_of k' r1 = store_of k' r)
      /\ format_version r1 = format_version r
      /\ queries r1 = S (queries r)).

(** The heap only grows from [r] to [r1]: the objects of [r] are
    those of [r1] at the same references. *)
Definition grows (r r1 : reader) : Prop := exists ext, heap r1 = heap r ++ ext.

Definition growing {A : Type} (m : M A) : Prop :=
  forall r o r1, m r = (o, r1) -> grows r r1.

(** Every yielded reference is a Case whose category satisfies [K]. *)
Definition yields_of (K : category -> Prop) (r : reader) (refs : list nat) : Prop :=
  Forall (fun ref => exists obj, heap r !! ref = Some obj /\ K (category_of obj)) refs.

(** [m] leaves every store as it is. *)
Definition still {A : Type} (m : M A) : Prop :=
  forall r o r1, m r = (o, r1) -> forall k, store_of k r1 = store_of k r.

(** No store has anything cached. *)
Definition blank (r : reader) : Prop := forall k, _cases (store_of k r) = ∅.

(** [m] creates no object and leaves every cache as it is. *)
Definition quiet {A : Type} (m : M A) : Prop :=
  forall r o r1,
    m r = (o, r1) ->
    heap r1 = heap r /\ forall k, _cases (store_of k r1) = _cases (store_of k r).

End Methods.
End CategoryStore.

(** ** A small recording used for the concrete evaluations

    Cells are strings that decode to themselves, reals are integers,
    string identifiers resolve to themselves and integer identifiers
    index the keys of the store; the current format is version 4. *)

Module Fixture.

Definition plain_data : Data :=
  {| raw := string; values := string; real := Z; meta := string |}.

#[local] Existing Instance plain_data.

Definition scale_plain (c : @case plain_data) : outcome (@case plain_data) :=
  match c with
  | DriverCase n k t s m i o =>
      Return (@DriverCase plain_data n k t s m (i ++ "*")%string (o ++ "*")%string)
  | other => Return other
  end.

Definition resolve_plain (keys : list string) (i : case_id) : outcome string :=
  match i with
  | Name s => Return s
  | Index n =>
      match nth_error keys (Z.to_nat n) with
      | Some s => Return s
      | None => Raise (ExternalError "IndexError")
      end
  end.

Definition plain_externals : @Externals plain_data :=
  {| json_to_np_array := fun t : @raw plain_data => Return (t : @values plain_data);
     blob_to_array := fun t : @raw plain_data => Return (t : @values plain_data);
     json_loads := fun t : @raw plain_data => Return (t : @meta plain_data);
     pickle_loads := fun t : @raw plain_data => Return (t : @meta plain_data);
     encode := fun t : @raw plain_data => Return t;
     convert_bounds := fun m : @meta plain_data => Return m;
     promoted_to_absolute_map := fun _ _ _ _ => Return tt;
     recorder_format_version := 4;
     get_iteration_coordinate := resolve_plain;
     scale := scale_plain |}.

Definition metadata_of (version : Z) : @metadata_row plain_data :=
  {| md_format_version := version; md_abs2prom := "{}"; md_prom2abs := "{}";
     md_abs2meta := "{}"; md_var_settings := "{}" |}.

Definition driver_row (i n : Z) (k : string) : @row plain_data (@driver_cols plain_data) :=
  @Row plain_data _ i n k 0 1 "" ("in", "out").

Definition solver_row (i n : Z) (k : string) : @row plain_data (@solver_cols plain_data) :=
  @Row plain_data _ i n k 0 1 "" (0, 0, ("in", "out", "res")).

Definition system_row (i n : Z) (k : string) : @row plain_data (@system_cols plain_data) :=
  @Row plain_data _ i n k 0 1 "" ("in", "out", "res").

(** One driver iteration over a model whose solver runs a nested
    solver: the inner solver iteration is recorded first (counter 1),
    then the outer one (counter 2), the system (counter 3) and the
    driver iteration (counter 4). *)
Definition nested_run : @database plain_data :=
  {| metadata := Some [metadata_of 3];
     driver_iterations := Some [driver_row 1 4 "rank0:SLSQP|0"];
     driver_derivatives := Some [];
     system_iterations :=
       Some [system_row 1 3 "rank0:SLSQP|0|root._solve_nonlinear|0"];
     solver_iterations :=
       Some [solver_row 1 1 "rank0:SLSQP|0|root._solve_nonlinear|0|NLRunOnce|0|mda._solve_nonlinear|0|NonlinearBlockGS|0";
             solver_row 2 2 "rank0:SLSQP|0|root._solve_nonlinear|0|NLRunOnce|0"];
     problem_cases := Some [];
     driver_metadata := Some [];
     system_metadata := Some [];
     solver_metadata := Some [] |}.

(** A version-1 recording made before the derivative and problem
    tables existed. *)
Definition legacy_run : @database plain_data :=
  {| metadata := Some [metadata_of 1];
     driver_iterations := Some [driver_row 1 1 "rank0:SLSQP|0"];
     driver_derivatives := None;
     system_iterations := Some [];
     solver_iterations := Some [];
     problem_cases := None;
     driver_metadata := Some [];
     system_metadata := Some [];
     solver_metadata := Some [] |}.

Definition opened (db : @database plain_data) : @reader plain_data :=
  snd (@SqliteCaseReader.open plain_data plain_externals db false).

(** The reader as [_load] finds it, for a file of the given version. *)
Definition reader_of_version (version : Z) : @reader plain_data :=
  snd (@SqliteCaseReader.set_format_version plain_data version
         (@SqliteCaseReader.new_reader plain_data)).

(** A version-2 file that lacks the [problem_cases] table. *)
Definition truncated_run : @database plain_data :=
  {| metadata := Some [metadata_of 2];
     driver_iterations := Some [driver_row 1 1 "rank0:SLSQP|0"];
     driver_derivatives := Some [];
     system_iterations := Some [];
     solver_iterations := Some [];
     problem_cases := None;
     driver_metadata := Some [];
     system_metadata := Some [];
     solver_metadata := Some [] |}.

Definition first_iteration : string := "rank0:SLSQP|0".

Definition root_system : string := "rank0:SLSQP|0|root._solve_nonlinear|0".

Definition outer_solver : string :=
  "rank0:SLSQP|0|root._solve_nonlinear|0|NLRunOnce|0".

Definition inner_solver : string :=
  "rank0:SLSQP|0|root._solve_nonlinear|0|NLRunOnce|0|mda._solve_nonlinear|0|NonlinearBlockGS|0".

(** [get_cases('rank0:SLSQP|0', recurse=True, flat=True)] on the freshly
    opened recording, run to its end. *)
Definition cases_of_first_iteration : list nat * outcome unit * @reader plain_data :=
  @SqliteCaseReader.get_cases plain_data plain_externals 10 nested_run
                              first_iteration true true (opened nested_run).

(** The solver rows of [nested_run] as [get_cases] fetches them. *)
Definition recorded_solver_iter : list (string * Z) :=
  [(inner_solver, 1); (outer_solver, 2)].

(** Solver coordinates without a driver above them, one of which has a
    single segment. *)
Definition odd_solver_iter : list (string * Z) := [("abc", 1); ("a|0|b|0", 2)].

End Fixture.


(** ** The wording of the specification *)

Module Claimed.

Definition segment_count (c : string) : Z := len (Coord.split c).

Fixpoint minimum (l : list Z) : option Z :=
  match l with
  | [] => None
  | x :: l' =>
      match minimum l' with
      | None => Some x
      | Some m => Some (Z.min x m)
      end
  end.

(** "The smallest non-root length present": the least segment count of
    a solver coordinate that is not the root's length 2. *)
Definition smallest_non_root_length (solver_iter : list (string * Z)) : option Z :=
  minimum (List.filter (fun n => negb (Z.eqb n 2))
                       (map (fun s => segment_count (fst s)) solver_iter)).

(** The same phrase read as the least segment count above the root's. *)
Definition smallest_length_above_root (solver_iter : list (string * Z)) : option Z :=
  minimum (List.filter (fun n => Z.ltb 2 n)
                       (map (fun s => segment_count (fst s)) solver_iter)).

(** The children of the root as the specification words them, for either
    reading of the length. *)
Definition root_children_for (length_of : list (string * Z) -> option Z)
           (driver_iter : list string) (solver_iter : list (string * Z))
  : list (string * string) :=
  match driver_iter with
  | _ :: _ => map (fun d => (d, "driver")) driver_iter
  | [] =>
      match length_of solver_iter with
      | Some m =>
          map (fun s => (fst s, "solver"))
              (List.filter (fun s => Z.eqb (segment_count (fst s)) m) solver_iter)
      | None => []
      end
  end.

Definition root_children := root_children_for smallest_non_root_length.

Section AllCategories.
Context `{D : Data}.

Definition keys_of {P : Type} (table : option (list (row P))) : list string :=
  match table with
  | Some rows => map iteration_coordinate rows
  | None => []
  end.

(** "The sorted set of distinct segment counts observed across the
    coordinates of every category, plus the base length." *)
Definition coord_lengths_all_categories (db : database) : list Z :=
  let counts :=
    map segment_count
        (keys_of (driver_iterations db) ++ keys_of (driver_derivatives db)
         ++ keys_of (system_iterations db) ++ keys_of (solver_iterations db)
         ++ keys_of (problem_cases db)) in
  sorted (fold_left (fun acc n => if existsb (Z.eqb n) acc then acc else acc ++ [n])
                    counts [2]).
End AllCategories.

End Claimed.

(** ** The coordinates the recorders write *)

Module Written.

(** Modelled from the spec: the recorders that write the coordinates are
    not in the sources; an iteration coordinate is made of identifiers
    and iteration numbers in turn, joined by pipes, as in
    ['rank0:SLSQP|0|root._solve_nonlinear|0']. *)
Fixpoint coordinate_of (pairs : list (string * string)) : string :=
  match pairs with
  | [] => ""
  | (name, number) :: rest =>
      match rest with
      | [] => name ++ "|" ++ number
      | _ :: _ => name ++ "|" ++ number ++ "|" ++ coordinate_of rest
      end
  end%string.

Fixpoint all_chars (p : ascii -> bool) (s : string) : bool :=
  match s with
  | EmptyString => true
  | String c r => (p c && all_chars p r)%bool
  end.

(** An identifier: not empty, and without a pipe. *)
Definition is_name (s : string) : bool :=
  (negb (String.eqb s "") && all_chars (fun c => negb (Coord.is_pipe c)) s)%bool.

(** An iteration number: one or more digits. *)
Definition is_number (s : string) : bool :=
  (negb (String.eqb s "") && all_chars Coord.is_digit s)%bool.

Definition well_formed (pairs : list (string * string)) : bool :=
  forallb (fun p => (is_name (fst p) && is_number (snd p))%bool) pairs.

End Written.

(** ** Listing the variables of the recorded systems *)

(** What [_get_all_sysvars] reads from a system Case, whose class is not
    part of the module: the attributes [inputs], [outputs] and
    [residuals] of a Case are fixed by the arrays it was built from, and
    each is [None] or a [PromotedToAbsoluteMap].  [is_None] and [truth]
    are the tests [x is None] and [if x], [absolute_names] and [getitem]
    the method [x.absolute_names()] and the subscript [x[abs_name]];
    [array] is what a subscript gives. *)
Class CaseViews `{D : Data} : Type := {
  array : Type;
  is_None : values -> bool;
  truth : values -> bool;
  absolute_names : values -> outcome (list string);
  getitem : values -> string -> outcome array
}.

(** [IndexError] and [KeyError], raised by a list index out of range and
    by a missing dictionary key. *)
Definition IndexError : exn := ExternalError "IndexError".
Definition KeyError : exn := ExternalError "KeyError".

Module Listing.
Section Methods.
Context `{D : Data} `{X : !Externals} `{V : !CaseViews}.

(** [sep.join(l)] *)
Fixpoint join (sep : string) (l : list string) : string :=
  match l with
  | [] => ""
  | x :: l' =>
      match l' with
      | [] => x
      | _ :: _ => x ++ sep ++ join sep l'
      end
  end%string.

(** [':'.join(_coord_split_re.split(c))]: the coordinate "without
    iteration numbers". *)
Definition iter_key (c : string) : string := join ":" (Coord.split c).

(** [l[i]] on a list, for an index of either sign; [None] stands for
    [IndexError]. *)
Definition list_getitem {A : Type} (l : list A) (i : Z) : option A :=
  let j := if Z.ltb i 0 then len l + i else i in
  if Z.ltb j 0 then None else nth_error l (Z.to_nat j).

Definition _has_all_values (coord_map : gmap string bool) : bool :=
  forallb snd (map_to_list coord_map).

(** The dictionary built at the head of [_get_all_sysvars]. *)
Definition coord_map_of (coords : list string) : gmap string bool :=
  fold_left (fun coord_map c => <[iter_key c := false]> coord_map) coords ∅.

(** The value of ['residuals']: an array, or the string ['Not Recorded']. *)
Inductive residual : Type :=
| Residual (a : array)
| Not_Recorded.

(** An entry of [variables]: ['value'], and ['residuals'] when outputs
    are listed. *)
Record entry : Type := {
  value : array;
  residuals : option residual
}.

(** [variables]: a dictionary, kept in the order of insertion. *)
Definition variables : Type := list (string * entry).

Definition contains (vars : variables) (abs_name : string) : bool :=
  existsb (fun item => String.eqb (fst item) abs_name) vars.

(** [for x in l: state = body(state, x)] *)
Fixpoint for_fold {A S : Type} (body : S -> A -> outcome S) (l : list A) (s : S)
  : outcome S :=
  match l with
  | [] => Return s
  | x :: l' => s' <- body s x ;; for_fold body l' s'
  end.

(** The body of [for abs_name in case.outputs.absolute_names()]. *)
Definition add_output (outputs resids : values) (vars : variables) (abs_name : string)
  : outcome variables :=
  if negb (contains vars abs_name)
  then
    v <- getitem outputs abs_name ;;
    res <- (if truth resids
            then names <- absolute_names resids ;;
                 if existsb (String.eqb abs_name) names
                 then a <- getitem resids abs_name ;; Return (Residual a)
                 else Return Not_Recorded
            else Return Not_Recorded) ;;
    Return (vars ++ [(abs_name, {| value := v; residuals := Some res |})])
  else Return vars.

(** The body of [for abs_name in case.inputs.absolute_names()]. *)
Definition add_input (inputs : values) (vars : variables) (abs_name : string)
  : outcome variables :=
  if negb (contains vars abs_name)
  then
    v <- getitem inputs abs_name ;;
    Return (vars ++ [(abs_name, {| value := v; residuals := None |})])
  else Return vars.

(** What the loop of [_get_all_sysvars] does with a coordinate it has
    just marked: [case = self.system_cases.get_case(iteration)] and the
    lines that follow; the two [continue] leave [variables] as it is. *)
Definition grab (db : database) (get_outputs : bool) (vars : variables)
           (iteration : string) : M variables :=
  let* case := SystemCases.get_case db (Name iteration) in
  let* c := deref case in
  match c with
  | SystemCase _ _ _ _ _ inputs outputs resids =>
      if (get_outputs && is_None outputs)%bool then ret vars
      else if (negb get_outputs && is_None inputs)%bool then ret vars
      else if get_outputs
      then lift (names <- absolute_names outputs ;;
                 for_fold (add_output outputs resids) names vars)
      else if negb (is_None inputs)
      then lift (names <- absolute_names inputs ;;
                 for_fold (add_input inputs) names vars)
      else ret vars
  | _ => raise (ExternalError "AttributeError")
  end.

(** [while not self._has_all_values(coord_map): ...]; [fuel] bounds the
    number of rounds. *)
Fixpoint sysvars_loop (fuel : nat) (db : database) (get_outputs : bool)
         (coord_map : gmap string bool) (vars : variables) (iteration_num : Z)
  : M variables :=
  match fuel with
  | O => fun r => (Diverge, r)
  | S fuel' =>
      if _has_all_values coord_map then ret vars
      else
        let* self := get_reader in
        match list_getitem (_case_keys (system_cases self)) iteration_num with
        | None => raise IndexError
        | Some iteration =>
            let iteration_num := iteration_num - 1 in
            match coord_map !! iter_key iteration with
            | None => raise KeyError
            | Some false =>
                let coord_map := <[iter_key iteration := true]> coord_map in
                let* vars := grab db get_outputs vars iteration in
                sysvars_loop fuel' db get_outputs coord_map vars iteration_num
            | Some true =>
                sysvars_loop fuel' db get_outputs coord_map vars iteration_num
            end
        end
  end.

(** [_get_all_sysvars]: [None], or the dictionary of variables. *)
Definition _get_all_sysvars (fuel : nat) (db : database) (get_outputs : bool)
  : M (option variables) :=
  let* self := get_reader in
  let coords := _case_keys (system_cases self) in
  let coord_map := coord_map_of coords in
  if Z.eqb (Z.of_nat (size coord_map)) 0 then ret None
  else
    let* vars := sysvars_loop fuel db get_outputs coord_map [] (-1) in
    ret (Some vars).

(** The coordinates of [l] that are the first of their system, [seen]
    holding the systems met before. *)
Fixpoint first_of_each (seen : list string) (l : list string) : list string :=
  match l with
  | [] => []
  | c :: l' =>
      if existsb (String.eqb (iter_key c)) seen
      then first_of_each seen l'
      else c :: first_of_each (iter_key c :: seen) l'
  end.

(** The last recorded iteration of every system, the latest first. *)
Definition latest_of_each_system (coords : list string) : list string :=
  first_of_each [] (rev coords).

(** The cases of the coordinates [l] read one after the other. *)
Fixpoint grab_all (db : database) (get_outputs : bool) (vars : variables)
         (l : list string) : M variables :=
  match l with
  | [] => ret vars
  | iteration :: l' =>
      let* vars := grab db get_outputs vars iteration in
      grab_all db get_outputs vars l'
  end.

End Methods.
End Listing.

(** ** Invariants of a reader *)

Module Invariant.
Section Methods.
Context `{D : Data}.

(** Every cached reference points to a Case of the store's own class
    whose coordinate is the key it is cached under. *)
Definition keyed (r : reader) : Prop :=
  forall k key ref,
    _cases (store_of k r) !! key = Some ref ->
    exists obj, heap r !! ref = Some obj
                /\ category_of obj = k
                /\ case_iteration_coordinate obj = key.

(** [m] takes a reader to one related to it by [R], however it ends. *)
Definition preserves (R : reader -> reader -> Prop) {A : Type} (m : M A) : Prop :=
  forall r o r1, m r = (o, r1) -> R r r1.

(** What stays as it is while no Case is read: the objects, the number
    of decoder calls and, when they are empty, the caches. *)
Definition untouched (r r1 : reader) : Prop :=
  heap r1 = heap r
  /\ decoded r1 = decoded r
  /\ ((forall k, _cases (store_of k r) = ∅) -> forall k, _cases (store_of k r1) = ∅).

(** The format version and the coordinates of the stores are kept, no
    cached key is lost, and the derivative cache is as it was. *)
Definition settled (r r1 : reader) : Prop :=
  format_version r1 = format_version r
  /\ (forall k, _case_keys (store_of k r1) = _case_keys (store_of k r))
  /\ (forall k key, is_Some (_cases (store_of k r) !! key) ->
                    is_Some (_cases (store_of k r1) !! key))
  /\ _cases (driver_derivative_cases r1) = _cases (driver_derivative_cases r).

(** [r1] has the objects and the cached system cases of [r], and
    possibly more; the coordinates of the system store are the same. *)
Definition extends (r r1 : reader) : Prop :=
  (exists ext, heap r1 = heap r ++ ext)
  /\ (forall key ref,
         _cases (system_cases r) !! key = Some ref ->
         _cases (system_cases r1) !! key = Some ref)
  /\ _case_keys (system_cases r1) = _case_keys (system_cases r).

End Methods.
End Invariant.

(** ** Further recordings used for the concrete evaluations *)

Module Samples.

Import Fixture.

#[local] Existing Instance plain_data.
#[local] Existing Instance plain_externals.

(** The attributes of the Cases of the fixture: a cell holds the name
    of one variable, which is also its value; the empty cell stands
    for [None]. *)
Definition plain_views : @CaseViews plain_data :=
  {| array := string;
     is_None := fun v : @values plain_data => String.eqb v "";
     truth := fun v : @values plain_data => negb (String.eqb v "");
     absolute_names := fun v : @values plain_data => Return [v : string];
     getitem := fun (v : @values plain_data) (_ : string) => Return (v : string) |}.

Definition system_row_of (i : Z) (k out : string)
  : @row plain_data (@system_cols plain_data) :=
  @Row plain_data _ i i k 0 1 "" ("", out, out).

Definition problem_row (i n : Z) (k : string)
  : @row plain_data (@problem_cols plain_data) :=
  @Row plain_data _ i n k 0 1 "" "out".

Definition derivative_row (i n : Z) (k : string)
  : @row plain_data (@derivative_cols plain_data) :=
  @Row plain_data _ i n k 0 1 "" "totals".

Definition model_0 : string := "rank0:Driver|0|root._solve_nonlinear|0".
Definition comp_0 : string := "rank0:Driver|0|root.comp._solve_nonlinear|0".
Definition model_1 : string := "rank0:Driver|1|root._solve_nonlinear|1".
Definition comp_1 : string := "rank0:Driver|1|root.comp._solve_nonlinear|1".

(** Two driver iterations over a model of two systems, each system
    recorded once per iteration; one derivative row and one problem
    case. *)
Definition two_systems_run : @database plain_data :=
  {| metadata := Some [metadata_of 3];
     driver_iterations :=
       Some [driver_row 1 5 "rank0:Driver|0"; driver_row 2 6 "rank0:Driver|1"];
     driver_derivatives := Some [derivative_row 1 7 "rank0:Driver|1"];
     system_iterations :=
       Some [system_row_of 1 model_0 "y"; system_row_of 2 comp_0 "z";
             system_row_of 3 model_1 "y"; system_row_of 4 comp_1 "z"];
     solver_iterations := Some [];
     problem_cases := Some [problem_row 1 8 "final"];
     driver_metadata := Some [];
     system_metadata := Some [];
     solver_metadata := Some [] |}.

(** The same recording with a format version of the future, and without
    its [solver_iterations] table. *)
Definition future_run : @database plain_data :=
  {| metadata := Some [metadata_of 9];
     driver_iterations := driver_iterations two_systems_run;
     driver_derivatives := driver_derivatives two_systems_run;
     system_iterations := system_iterations two_systems_run;
     solver_iterations := solver_iterations two_systems_run;
     problem_cases := problem_cases two_systems_run;
     driver_metadata := Some [];
     system_metadata := Some [];
     solver_metadata := Some [] |}.

Definition unsolved_run : @database plain_data :=
  {| metadata := Some [metadata_of 3];
     driver_iterations := driver_iterations two_systems_run;
     driver_derivatives := driver_derivatives two_systems_run;
     system_iterations := system_iterations two_systems_run;
     solver_iterations := None;
     problem_cases := problem_cases two_systems_run;
     driver_metadata := Some [];
     system_metadata := Some [];
     solver_metadata := Some [] |}.

(** The same recording with the format version 0. *)
Definition ancient_run : @database plain_data :=
  {| metadata := Some [metadata_of 0];
     driver_iterations := driver_iterations two_systems_run;
     driver_derivatives := driver_derivatives two_systems_run;
     system_iterations := system_iterations two_systems_run;
     solver_iterations := solver_iterations two_systems_run;
     problem_cases := problem_cases two_systems_run;
     driver_metadata := Some [];
     system_metadata := Some [];
     solver_metadata := Some [] |}.

(** The driver and solver iterations of [nested_run], no system
    iteration, and one problem case named ['final']. *)
Definition final_run : @database plain_data :=
  {| metadata := Some [metadata_of 3];
     driver_iterations := driver_iterations nested_run;
     driver_derivatives := Some [];
     system_iterations := Some [];
     solver_iterations := solver_iterations nested_run;
     problem_cases := Some [problem_row 1 5 "final"];
     driver_metadata := Some [];
     system_metadata := Some [];
     solver_metadata := Some [] |}.

(** The reader of a recording opened with [pre_load=True]. *)
Definition pre_loaded (db : @database plain_data) : @reader plain_data :=
  snd (@SqliteCaseReader.open plain_data plain_externals db true).

(** The coordinate of a solver iteration [levels] groups below the
    driver, as the recorders write it: the driver iteration and, for
    each group on the way down, the iteration of the group and that of
    its solver. *)
Definition deep_pairs (levels : nat) : list (string * string) :=
  ("rank0:Driver", "0")
    :: concat (repeat [("sub._solve_nonlinear", "0"); ("NLRunOnce", "0")] levels).

Definition deep (levels : nat) : string :=
  Written.coordinate_of (deep_pairs levels).

(** The solver rows of a model of 128 nested groups recorded by the
    solvers of its two innermost groups (an iteration is recorded when
    it ends, the inner one first), and the same a level higher. *)
Definition deep_solver_iter : list (string * Z) :=
  [(deep 128, 1); (deep 127, 2)].

Definition shallower_solver_iter : list (string * Z) :=
  [(deep 127, 1); (deep 126, 2)].

End Samples.

(** * Properties *)

(** ** Splitting *)

Section SplitFacts.

Lemma skip_while_length p s :
  (String.length (Coord.skip_while p s) <= String.length s)%nat.
Proof.
  induction s as [|c r IH]; simpl; [lia|].
  destruct (p c); simpl; lia.
Qed.

Lemma match_here_shorter s rest :
  Coord.match_here s = Some rest ->
  (String.length rest < String.length s)%nat.
Proof.
  destruct s as [|c [|d r]]; simpl; try discriminate.
  destruct (Coord.is_pipe c && Coord.is_digit d)%bool; [|discriminate].
  intros [= <-].
  pose proof (skip_while_length Coord.is_pipe (Coord.skip_while Coord.is_digit r)).
  pose proof (skip_while_length Coord.is_digit r).
  lia.
Qed.

(** The fuel of [split] is enough: more of it changes nothing. *)
Lemma split_from_fuel n m cur s :
  (String.length s < n)%nat -> (String.length s < m)%nat ->
  Coord.split_from n cur s = Coord.split_from m cur s.
Proof.
  revert m cur s.
  induction n as [|n IH]; intros m cur s Hn Hm; [lia|].
  destruct m as [|m]; [lia|].
  simpl.
  destruct (Coord.match_here s) as [rest|] eqn:E.
  - apply match_here_shorter in E.
    f_equal. apply IH; lia.
  - destruct s as [|c r]; [reflexivity|].
    simpl in Hn, Hm. apply IH; lia.
Qed.

Lemma split_from_nonempty n cur s : (1 <= length (Coord.split_from n cur s))%nat.
Proof.
  revert cur s.
  induction n as [|n IH]; intros cur s; simpl; [lia|].
  destruct (Coord.match_here s); simpl; [lia|].
  destruct s; simpl; [lia|apply IH].
Qed.

(** A coordinate always has at least one segment. *)
Lemma split_length_pos s : 1 <= len (Coord.split s).
Proof.
  unfold len, Coord.split.
  pose proof (split_from_nonempty (S (String.length s)) "" s). lia.
Qed.

End SplitFacts.

(** ** Lists: loops, sorting, minimum *)

Section ListFacts.

Lemma for_each_select {A B : Type} (sel : A -> bool) (g : A -> B) (l : list A) :
  for_each (fun x => if sel x then Return [g x] else Return []) l
  = Return (map g (List.filter sel l)).
Proof.
  induction l as [|x l IH]; simpl; [reflexivity|].
  rewrite IH. destruct (sel x); reflexivity.
Qed.

Lemma for_each_ext {A B : Type} (f g : A -> outcome (list B)) (l : list A) :
  (forall x, In x l -> f x = g x) -> for_each f l = for_each g l.
Proof.
  induction l as [|x l IH]; intros H; simpl; [reflexivity|].
  rewrite (H x (or_introl eq_refl)), IH; [reflexivity|].
  intros y Hy. apply H. now right.
Qed.

Lemma list_index_None x l : list_index x l = None <-> ~ In x l.
Proof.
  induction l as [|y l IH]; simpl; [tauto|].
  destruct (Z.eqb_spec y x) as [->|Hne].
  - split; [discriminate|]. intros H. exfalso. apply H. now left.
  - destruct (list_index x l); simpl.
    + split; [discriminate|]. intros H. exfalso.
      assert (Hn : ~ In x l) by tauto.
      apply IH in Hn. discriminate.
    + split; [|reflexivity]. intros _ [H|H]; [congruence|].
      now apply (proj1 IH).
Qed.

Lemma insert_sorted_In x y l : In y (insert_sorted x l) <-> y = x \/ In y l.
Proof.
  induction l as [|z l IH]; simpl; [intuition|].
  destruct (Z.leb x z); simpl; [intuition|].
  rewrite IH. intuition.
Qed.

Lemma sorted_In y l : In y (sorted l) <-> In y l.
Proof.
  induction l as [|x l IH]; simpl; [tauto|].
  rewrite insert_sorted_In, IH. intuition.
Qed.

Lemma insert_sorted_strict x l :
  StronglySorted Z.lt l -> ~ In x l -> StronglySorted Z.lt (insert_sorted x l).
Proof.
  induction 1 as [|y l Hs IH Hall]; intros Hx; simpl.
  - constructor; constructor.
  - destruct (Z.leb_spec x y) as [Hle|Hgt].
    + assert (Hlt : x < y).
      { destruct (Z.eq_dec x y) as [->|]; [|lia]. exfalso. apply Hx. now left. }
      constructor; [now constructor|].
      constructor; [exact Hlt|].
      rewrite List.Forall_forall in Hall |- *.
      intros z Hz. specialize (Hall z Hz). lia.
    + constructor.
      * apply IH. intros H. apply Hx. now right.
      * rewrite List.Forall_forall in Hall |- *.
        intros z Hz. apply insert_sorted_In in Hz as [->|Hz]; [lia|auto].
Qed.

Lemma sorted_strict l : List.NoDup l -> StronglySorted Z.lt (sorted l).
Proof.
  induction 1 as [|x l Hx Hnd IH]; simpl; [constructor|].
  apply insert_sorted_strict; [exact IH|].
  now rewrite sorted_In.
Qed.

Lemma existsb_eqb_In n l : existsb (Z.eqb n) l = true <-> In n l.
Proof.
  rewrite existsb_exists. split.
  - intros (x & Hx & E). apply Z.eqb_eq in E. now subst.
  - intros H. exists n. split; [exact H|apply Z.eqb_refl].
Qed.

Lemma minimum_spec l m :
  Claimed.minimum l = Some m <-> In m l /\ forall x, In x l -> m <= x.
Proof.
  revert m. induction l as [|y l IH]; intros m; simpl.
  - split; [discriminate|tauto].
  - destruct (Claimed.minimum l) as [k|] eqn:E.
    + destruct (proj1 (IH k) eq_refl) as [Hk Hmin].
      split.
      * intros [= <-]. split.
        -- destruct (Z.min_spec y k) as [[_ ->]|[_ ->]]; auto.
        -- intros x [<-|Hx]; [lia|]. specialize (Hmin x Hx). lia.
      * intros [[<-|Hm] Hall].
        -- f_equal. specialize (Hall k (or_intror Hk)). lia.
        -- f_equal. pose proof (Hall y (or_introl eq_refl)).
           assert (k <= m) by auto.
           assert (m <= k) by (apply Hall; now right).
           lia.
    + assert (l = []) as ->.
      { destruct l as [|z l]; [reflexivity|]. simpl in E.
        destruct (Claimed.minimum l); discriminate. }
      split.
      * intros [= <-]. split; [now left|]. intros x [<-|[]]. lia.
      * intros [[<-|[]] _]. reflexivity.
Qed.

Lemma filter_none {A : Type} (f : A -> bool) (l : list A) :
  (forall x, In x l -> f x = false) -> List.filter f l = [].
Proof.
  induction l as [|x l IH]; intros H; simpl; [reflexivity|].
  rewrite (H x (or_introl eq_refl)). apply IH. intros y Hy. apply H. now right.
Qed.

Lemma minimum_None l : Claimed.minimum l = None <-> l = [].
Proof.
  destruct l as [|x l]; simpl; [tauto|].
  destruct (Claimed.minimum l); split; discriminate.
Qed.

End ListFacts.

(** ** The list of coordinate lengths *)

Section CoordLengths.

Lemma add_length_fold (l : list (string * Z)) :
  forall acc,
    List.NoDup acc ->
    List.NoDup (fold_left add_length l acc)
    /\ forall n, In n (fold_left add_length l acc)
                 <-> In n acc \/ exists s, In s l /\ n = Claimed.segment_count (fst s).
Proof.
  induction l as [|s l IH]; intros acc Hnd; simpl.
  - split; [exact Hnd|]. intros n. split; [auto|]. intros [H|(s & [] & _)]. exact H.
  - assert (Hnd' : List.NoDup (add_length acc s)).
    { unfold add_length.
      destruct (existsb (Z.eqb (len (Coord.split (fst s)))) acc) eqn:E; simpl; [exact Hnd|].
      apply List.NoDup_app; [exact Hnd|repeat constructor; simpl; tauto|].
      intros x Hx [<-|[]].
      apply existsb_eqb_In in Hx. congruence. }
    destruct (IH _ Hnd') as [H1 H2]. split; [exact H1|].
    intros n. rewrite H2. unfold add_length, Claimed.segment_count.
    destruct (existsb (Z.eqb (len (Coord.split (fst s)))) acc) eqn:E; simpl.
    + apply existsb_eqb_In in E. split.
      * intros [H|(x & Hx & ->)]; [now left|]. right. exists x. auto.
      * intros [H|(x & [<-|Hx] & ->)]; [now left|now left|]. right. exists x. auto.
    + rewrite in_app_iff. simpl. split.
      * intros [[H|[<-|[]]]|(x & Hx & ->)]; [now left| |].
        -- right. exists s. auto.
        -- right. exists x. auto.
      * intros [H|(x & [<-|Hx] & ->)]; [now left; left| |].
        -- left. right. now left.
        -- right. exists x. auto.
Qed.

Lemma coord_lengths_strict solver_iter :
  StronglySorted Z.lt (coord_lengths_of solver_iter).
Proof.
  apply sorted_strict, add_length_fold.
  repeat constructor. simpl. tauto.
Qed.

Lemma coord_lengths_In solver_iter n :
  In n (coord_lengths_of solver_iter)
  <-> n = 2 \/ exists s, In s solver_iter /\ n = Claimed.segment_count (fst s).
Proof.
  unfold coord_lengths_of. rewrite sorted_In.
  destruct (add_length_fold solver_iter [2]) as [_ H].
  { repeat constructor. simpl. tauto. }
  rewrite H. simpl. intuition.
Qed.

Lemma list_index_In x l : In x l -> exists i, list_index x l = Some i.
Proof.
  intros H. destruct (list_index x l) as [i|] eqn:E; [now exists i|].
  apply list_index_None in E. contradiction.
Qed.

Lemma insert_by_In {A : Type} (key : A -> Z) (x y : A) l :
  In y (insert_by key x l) <-> y = x \/ In y l.
Proof.
  induction l as [|z l IH]; simpl; [intuition|].
  destruct (Z.ltb (key x) (key z)); simpl; [intuition|].
  rewrite IH. intuition.
Qed.

Lemma order_by_In {A : Type} (key : A -> Z) (y : A) l :
  In y (order_by key l) <-> In y l.
Proof.
  unfold order_by.
  induction l as [|x l IH]; simpl; [tauto|].
  rewrite insert_by_In, IH. intuition.
Qed.

End CoordLengths.

(** ** Children of a case and of the root *)

Section Children.

Lemma for_each_all {A B : Type} (g : A -> B) (l : list A) :
  for_each (fun x => Return [g x]) l = Return (map g l).
Proof.
  induction l as [|x l IH]; simpl; [reflexivity|]. now rewrite IH.
Qed.

(** Without recursion the loop over the solver rows is a selection. *)
Lemma find_child_cases_case fuel p sp driver_iter solver_iter cl idx :
  p <> "" ->
  list_index (if Z.eqb (len sp) 0 then 2 else len sp) cl = Some idx ->
  _find_child_cases (S fuel) p sp driver_iter solver_iter false cl
  = Return (map (fun s => (fst s, "solver"))
                (List.filter
                   (fun s => _is_case_child p (fst s) (expected_child_length_at idx cl))
                   solver_iter)).
Proof.
  intros Hp Hidx. simpl. rewrite Hidx.
  destruct (String.eqb_spec p "") as [->|_]; [contradiction|].
  rewrite <- for_each_select.
  apply for_each_ext. intros s _.
  destruct (_is_case_child p (fst s) (expected_child_length_at idx cl)); reflexivity.
Qed.

Lemma is_int_spec a b : is_int a b = true <-> a = b /\ -5 <= a <= 256.
Proof.
  unfold is_int. rewrite !andb_true_iff, Z.eqb_eq, !Z.leb_le. tauto.
Qed.

Lemma is_int_small a b : -5 <= a <= 256 -> is_int a b = Z.eqb a b.
Proof.
  intros H. unfold is_int.
  replace (Z.leb (-5) a) with true by (symmetry; apply Z.leb_le; lia).
  replace (Z.leb a 256) with true by (symmetry; apply Z.leb_le; lia).
  now rewrite !andb_true_r.
Qed.

(** The child test holds of the coordinates that start with the parent
    and have the expected number of segments, as long as this number is
    one of the integers CPython shares. *)
Lemma is_case_child_spec p c L :
  _is_case_child p c L = true
  <-> Coord.startswith c p = true /\ len (Coord.split c) = L /\ L <= 256.
Proof.
  unfold _is_case_child. pose proof (split_length_pos c) as Hpos.
  destruct (Coord.startswith c p); simpl.
  - destruct (is_int (len (Coord.split c)) L) eqn:E.
    + apply is_int_spec in E as [E1 E2]. split; [intros _|reflexivity].
      split; [reflexivity|]. split; [exact E1|lia].
    + split; [discriminate|]. intros (_ & H1 & H2).
      assert (is_int (len (Coord.split c)) L = true)
        by (apply is_int_spec; split; [exact H1|lia]).
      congruence.
  - split; [discriminate|]. intros [H _]. discriminate.
Qed.

(** What the non-recursive call returns for a parent coordinate [p]
    other than the root whose length is found in [coord_lengths]: in the
    order of [solver_iter], the solver coordinates that start with [p]
    and whose segment count is the expected child length [L] computed
    from the list, provided [L] is at most 256; every entry is tagged
    'solver'.  A coordinate with prefix [p] and another segment count is
    not in the result. *)
Lemma find_child_cases_direct_children
        fuel p sp driver_iter solver_iter cl idx :
  p <> "" ->
  list_index (if Z.eqb (len sp) 0 then 2 else len sp) cl = Some idx ->
  let L := expected_child_length_at idx cl in
  exists ret,
    _find_child_cases (S fuel) p sp driver_iter solver_iter false cl = Return ret
    /\ ret = map (fun s => (fst s, "solver"))
                 (List.filter (fun s => _is_case_child p (fst s) L) solver_iter)
    /\ (forall c tag,
           In (c, tag) ret
           <-> tag = "solver"
               /\ (exists n, In (c, n) solver_iter)
               /\ Coord.startswith c p = true
               /\ len (Coord.split c) = L
               /\ L <= 256)
    /\ (forall c n,
           In (c, n) solver_iter -> Coord.startswith c p = true ->
           len (Coord.split c) <> L -> ~ In (c, "solver") ret).
Proof.
  intros Hp Hidx L.
  eexists. split; [apply find_child_cases_case; eassumption|].
  split; [reflexivity|].
  assert (Hin : forall c tag,
             In (c, tag)
                (map (fun s : string * Z => (fst s, "solver"))
                     (List.filter (fun s => _is_case_child p (fst s) L) solver_iter))
             <-> tag = "solver"
                 /\ (exists n, In (c, n) solver_iter)
                 /\ Coord.startswith c p = true
                 /\ len (Coord.split c) = L
                 /\ L <= 256).
  { intros c tag. rewrite in_map_iff. split.
    - intros ([c' n] & [= <- <-] & Hf).
      apply List.filter_In in Hf as [Hs Hc]. simpl in Hc.
      apply is_case_child_spec in Hc as (H1 & H2 & H3).
      split; [reflexivity|]. split; [now exists n|]. auto.
    - intros (-> & (n & Hn) & H1 & H2 & H3).
      exists (c, n). split; [reflexivity|].
      apply List.filter_In. split; [exact Hn|].
      simpl. apply is_case_child_spec. auto. }
  split; [exact Hin|].
  intros c n _ _ Hlen Habs.
  apply Hin in Habs as (_ & _ & _ & Heq & _). contradiction.
Qed.

Lemma coord_lengths_index_2 solver_iter :
  exists idx, list_index 2 (coord_lengths_of solver_iter) = Some idx.
Proof. apply list_index_In, coord_lengths_In. now left. Qed.

(** The shape of the list when no solver coordinate has fewer than two
    segments: it starts with the base length, and what follows is above. *)
Lemma coord_lengths_head solver_iter :
  Forall (fun s => 2 <= Claimed.segment_count (fst s)) solver_iter ->
  exists rest,
    coord_lengths_of solver_iter = 2 :: rest
    /\ StronglySorted Z.lt rest /\ Forall (Z.lt 2) rest.
Proof.
  intros Hall.
  pose proof (coord_lengths_strict solver_iter) as Hs.
  pose proof (coord_lengths_In solver_iter) as Hin.
  destruct (coord_lengths_of solver_iter) as [|h rest].
  { exfalso. apply (proj2 (Hin 2)). now left. }
  apply StronglySorted_inv in Hs as [Hs Hlt].
  assert (h = 2) as ->.
  { assert (2 <= h).
    { destruct (proj1 (Hin h) (or_introl eq_refl)) as [->|(s & Hs' & ->)]; [lia|].
      rewrite List.Forall_forall in Hall. now apply Hall. }
    destruct (proj2 (Hin 2) (or_introl eq_refl)) as [->|H2]; [reflexivity|].
    rewrite List.Forall_forall in Hlt. specialize (Hlt 2 H2). lia. }
  exists rest. auto.
Qed.

Lemma root_solver_length solver_iter :
  Forall (fun s => 2 <= Claimed.segment_count (fst s)) solver_iter ->
  let cl := coord_lengths_of solver_iter in
  let min_iter_len := if Z.ltb 1 (len cl) then nth 1 cl (-1) else -1 in
  match Claimed.smallest_non_root_length solver_iter with
  | Some m => min_iter_len = m
  | None => min_iter_len = -1
  end.
Proof.
  intros Hall cl min_iter_len.
  destruct (coord_lengths_head solver_iter Hall) as (rest & Hcl & Hs & Hgt).
  pose proof (coord_lengths_In solver_iter) as Hin.
  subst min_iter_len cl. rewrite Hcl in *. clear Hcl.
  set (others := List.filter (fun n => negb (Z.eqb n 2))
                             (map (fun s => Claimed.segment_count (fst s)) solver_iter)).
  assert (Hothers : forall n, In n others <-> In n rest).
  { intros n. unfold others. rewrite List.filter_In, in_map_iff. split.
    - intros ((s & <- & Hs') & Hne).
      apply negb_true_iff, Z.eqb_neq in Hne.
      destruct (proj2 (Hin (Claimed.segment_count (fst s)))) as [E|H]; [| |exact H].
      + right. now exists s.
      + congruence.
    - intros Hn.
      rewrite List.Forall_forall in Hgt. pose proof (Hgt n Hn).
      destruct (proj1 (Hin n) (or_intror Hn)) as [->|(s & Hs' & ->)]; [lia|].
      split; [now exists s|]. apply negb_true_iff, Z.eqb_neq. lia. }
  unfold Claimed.smallest_non_root_length. fold others.
  destruct rest as [|m rest'].
  - destruct (Claimed.minimum others) as [k|] eqn:E; [|reflexivity].
    apply minimum_spec in E as [Hk _]. apply Hothers in Hk. destruct Hk.
  - assert (E : Claimed.minimum others = Some m).
    { apply minimum_spec. split; [apply Hothers; now left|].
      intros x Hx. apply Hothers in Hx as [<-|Hx]; [lia|].
      apply StronglySorted_inv in Hs as [_ Hlt].
      rewrite List.Forall_forall in Hlt. specialize (Hlt x Hx). lia. }
    rewrite E. unfold len. simpl length.
    replace (Z.ltb 1 (Z.of_nat (S (S (length rest'))))) with true
      by (symmetry; apply Z.ltb_lt; lia).
    reflexivity.
Qed.

(** The children of the root ([''], split into no segment) for the list
    of lengths computed from the solver rows, when every solver
    coordinate has between 2 and 256 segments: the non-recursive call
    never fails and
    - returns every driver coordinate, in the order given, tagged
      'driver', and nothing else, as soon as there is a driver row;
    - with no driver row, returns the solver coordinates whose segment
      count is the smallest one present other than the root's length;
    - returns the empty list when there is neither a driver nor a
      solver row. *)
Lemma find_child_cases_root fuel driver_iter solver_iter :
  (driver_iter = [] ->
   Forall (fun s => 2 <= Claimed.segment_count (fst s) <= 256) solver_iter) ->
  let children :=
    _find_child_cases (S fuel) "" [] driver_iter solver_iter false
                      (coord_lengths_of solver_iter) in
  (driver_iter <> [] ->
   children = Return (map (fun d => (d, "driver")) driver_iter))
  /\ (driver_iter = [] ->
      children
      = Return
          match Claimed.smallest_non_root_length solver_iter with
          | Some m =>
              map (fun s => (fst s, "solver"))
                  (List.filter (fun s => Z.eqb (Claimed.segment_count (fst s)) m)
                               solver_iter)
          | None => []
          end)
  /\ (driver_iter = [] -> solver_iter = [] -> children = Return [])
  /\ children = Return (Claimed.root_children driver_iter solver_iter).
Proof.
  intros Hall children.
  destruct (coord_lengths_index_2 solver_iter) as [idx Hidx].
  assert (Hdrv : driver_iter <> [] ->
                 children = Return (map (fun d => (d, "driver")) driver_iter)).
  { intros Hne. subst children. simpl. rewrite Hidx.
    destruct driver_iter as [|d l]; [contradiction|].
    replace (Z.ltb 0 (len (d :: l))) with true
      by (symmetry; apply Z.ltb_lt; unfold len; simpl; lia).
    apply (for_each_all (fun d => (d, "driver"))). }
  assert (Hsol : driver_iter = [] ->
                 children
                 = Return
                     match Claimed.smallest_non_root_length solver_iter with
                     | Some m =>
                         map (fun s => (fst s, "solver"))
                             (List.filter
                                (fun s => Z.eqb (Claimed.segment_count (fst s)) m)
                                solver_iter)
                     | None => []
                     end).
  { intros ->. specialize (Hall eq_refl).
    assert (Hall2 : Forall (fun s => 2 <= Claimed.segment_count (fst s)) solver_iter).
    { apply List.Forall_forall. intros s Hs.
      pose proof (proj1 (List.Forall_forall _ _) Hall s Hs) as H. simpl in H. lia. }
    pose proof (root_solver_length solver_iter Hall2) as Hlen.
    subst children. simpl. rewrite Hidx.
    destruct solver_iter as [|s0 l0] eqn:Esol.
    { reflexivity. }
    rewrite <- Esol in *.
    replace (Z.ltb 0 (len solver_iter)) with true
      by (symmetry; apply Z.ltb_lt; rewrite Esol; unfold len; simpl; lia).
    cbv zeta in Hlen.
    set (min_iter_len := if Z.ltb 1 (len (coord_lengths_of solver_iter))
                         then nth 1 (coord_lengths_of solver_iter) (-1) else -1) in *.
    rewrite (for_each_ext _
               (fun s => if Z.eqb (Claimed.segment_count (fst s)) min_iter_len
                         then Return [(fst s, "solver")] else Return [])).
    2:{ intros s Hs. rewrite List.Forall_forall in Hall. specialize (Hall s Hs).
        unfold Claimed.segment_count in *.
        rewrite is_int_small by lia.
        destruct (Z.eqb (len (Coord.split (fst s))) min_iter_len); reflexivity. }
    rewrite (for_each_select _ (fun s : string * Z => (fst s, "solver"))).
    destruct (Claimed.smallest_non_root_length solver_iter) as [m|].
    - now rewrite Hlen.
    - rewrite Hlen. f_equal.
      replace (List.filter _ solver_iter) with (@nil (string * Z)); [reflexivity|].
      symmetry. apply filter_none. intros s _.
      apply Z.eqb_neq. pose proof (split_length_pos (fst s)).
      unfold Claimed.segment_count. lia. }
  split; [exact Hdrv|]. split; [exact Hsol|]. split.
  - intros -> ->. reflexivity.
  - destruct driver_iter as [|d l].
    + rewrite (Hsol eq_refl). reflexivity.
    + rewrite Hdrv by discriminate. reflexivity.
Qed.

Lemma for_each_stable {A B : Type} (f g : A -> outcome (list B)) (l : list A) :
  for_each f l <> Diverge ->
  (forall x, In x l -> f x <> Diverge -> g x = f x) ->
  for_each g l = for_each f l.
Proof.
  induction l as [|x l IH]; intros Hd Hfg; simpl in *; [reflexivity|].
  assert (Hx : f x <> Diverge).
  { intros E. apply Hd. now rewrite E. }
  rewrite (Hfg x (or_introl eq_refl) Hx).
  destruct (f x) as [ys|e|]; simpl in *; try reflexivity.
  rewrite IH; [reflexivity| |].
  - intros E. apply Hd. now rewrite E.
  - intros y Hy. apply Hfg. now right.
Qed.

Lemma bind_not_Diverge {A B : Type} (o : outcome A) (k : A -> outcome B) :
  bind o k <> Diverge -> o <> Diverge.
Proof. intros H E. apply H. now rewrite E. Qed.

(** The fuel only bounds the depth of the recursion: a call that ends
    with some fuel ends in the same way with more. *)
Lemma find_child_cases_fuel n :
  forall m p sp driver_iter solver_iter recursive cl,
    (n <= m)%nat ->
    _find_child_cases n p sp driver_iter solver_iter recursive cl <> Diverge ->
    _find_child_cases m p sp driver_iter solver_iter recursive cl
    = _find_child_cases n p sp driver_iter solver_iter recursive cl.
Proof.
  induction n as [|n IH]; intros m p sp driver_iter solver_iter recursive cl Hle Hd.
  { exfalso. now apply Hd. }
  destruct m as [|m]; [lia|].
  assert (Hrec : forall c sc,
             (if recursive
              then _find_child_cases n c sc driver_iter solver_iter recursive cl
              else Return []) <> Diverge ->
             (if recursive
              then _find_child_cases m c sc driver_iter solver_iter recursive cl
              else Return [])
             = (if recursive
                then _find_child_cases n c sc driver_iter solver_iter recursive cl
                else Return [])).
  { intros c sc H. destruct recursive; [|reflexivity]. apply IH; [lia|exact H]. }
  simpl in *.
  destruct (list_index (if Z.eqb (len sp) 0 then 2 else len sp) cl) as [idx|];
    [|reflexivity].
  destruct (String.eqb p "").
  - destruct (Z.ltb 0 (len driver_iter)).
    + apply for_each_stable; [exact Hd|].
      intros d _ H. apply bind_not_Diverge in H. now rewrite Hrec.
    + destruct (Z.ltb 0 (len solver_iter)); [|reflexivity].
      apply for_each_stable; [exact Hd|].
      intros s _ H.
      destruct (is_int (len (Coord.split (fst s))) _); [|reflexivity].
      apply bind_not_Diverge in H. now rewrite Hrec.
  - apply for_each_stable; [exact Hd|].
    intros s _ H.
    destruct (_is_case_child p (fst s) (expected_child_length_at idx cl)); [|reflexivity].
    apply bind_not_Diverge in H. now rewrite Hrec.
Qed.

Lemma for_each_returns {A B : Type} (f : A -> outcome (list B)) (l : list A) :
  (forall x, In x l -> exists ys, f x = Return ys) ->
  exists ret, for_each f l = Return ret.
Proof.
  induction l as [|x l IH]; intros H; simpl; [now eexists|].
  destruct (H x (or_introl eq_refl)) as [ys ->].
  destruct IH as [zs ->]; [intros y Hy; apply H; now right|].
  simpl. now eexists.
Qed.

Lemma list_index_nth cl i d :
  StronglySorted Z.lt cl -> (i < length cl)%nat ->
  list_index (nth i cl d) cl = Some i.
Proof.
  intros Hs. revert i.
  induction Hs as [|y l Hs IH Hall]; intros i Hi; simpl in *; [lia|].
  destruct i as [|j].
  - now rewrite Z.eqb_refl.
  - assert (Hj : (j < length l)%nat) by lia.
    rewrite List.Forall_forall in Hall.
    pose proof (Hall (nth j l d) (nth_In l d Hj)) as Hlt.
    replace (Z.eqb y (nth j l d)) with false by (symmetry; apply Z.eqb_neq; lia).
    now rewrite (IH j Hj).
Qed.

Lemma startswith_nonempty c p : p <> "" -> Coord.startswith c p = true -> c <> "".
Proof.
  unfold Coord.startswith. intros Hp H ->. destruct p; [contradiction|discriminate].
Qed.

(** Below the root the routine is total on a strictly increasing list of
    lengths: when the parent's length is in the list, the call returns,
    recursive or not, with a fuel of the number of lengths that follow
    the parent's. *)
Lemma find_child_cases_total cl driver_iter solver_iter recursive :
  StronglySorted Z.lt cl ->
  forall fuel p sp idx,
    p <> "" ->
    list_index (if Z.eqb (len sp) 0 then 2 else len sp) cl = Some idx ->
    (1 <= fuel)%nat -> (length cl <= idx + fuel)%nat ->
    exists ret,
      _find_child_cases fuel p sp driver_iter solver_iter recursive cl = Return ret.
Proof.
  intros Hs. induction fuel as [|fuel IH]; intros p sp idx Hp Hidx H1 Hlen; [lia|].
  simpl. rewrite Hidx.
  destruct (String.eqb_spec p "") as [->|_]; [contradiction|].
  apply for_each_returns. intros s _.
  destruct (_is_case_child p (fst s) (expected_child_length_at idx cl)) eqn:Ec;
    [|now eexists].
  destruct recursive; [|simpl; now eexists].
  apply is_case_child_spec in Ec as (Hpre & Hl & _).
  pose proof (split_length_pos (fst s)) as Hpos.
  unfold expected_child_length_at in Hl.
  destruct (Z.ltb_spec (Z.of_nat idx) (len cl - 1)) as [Hlt|_]; [|lia].
  unfold len in Hlt.
  assert (Hi : (idx + 1 < length cl)%nat) by lia.
  destruct (IH (fst s) (Coord.split (fst s)) (idx + 1)%nat) as [sub ->].
  - eapply startswith_nonempty; eassumption.
  - replace (Z.eqb (len (Coord.split (fst s))) 0) with false
      by (symmetry; apply Z.eqb_neq; lia).
    rewrite Hl. now apply list_index_nth.
  - lia.
  - lia.
  - simpl. now eexists.
Qed.

End Children.

(** ** The category stores *)

Section StoreFacts.
Context `{D : Data} `{X : !Externals}.

Import CategoryStore.

Lemma lookup_fresh (h : list case) (c : case) : (h ++ [c]) !! length h = Some c.
Proof. rewrite lookup_app_r by lia. now rewrite Nat.sub_diag. Qed.

Lemma fetchone_where_Some {P : Type} (c : string) (rows : list (row P)) rw :
  fetchone_where c rows = Some rw -> In rw rows /\ iteration_coordinate rw = c.
Proof.
  unfold fetchone_where. intros H. apply List.find_some in H as [H1 H2].
  split; [exact H1|]. now apply String.eqb_eq.
Qed.

Lemma fetchone_where_None {P : Type} (c : string) (rows : list (row P)) :
  ~ In c (map iteration_coordinate rows) -> fetchone_where c rows = None.
Proof.
  intros H. unfold fetchone_where.
  destruct (List.find _ rows) as [rw|] eqn:E; [|reflexivity].
  apply List.find_some in E as [H1 H2]. apply String.eqb_eq in H2.
  exfalso. apply H. apply in_map_iff. now exists rw.
Qed.

Ltac run H :=
  repeat (simpl in H;
          match type of H with
          | context [match ?x with _ => _ end] =>
              lazymatch x with
              | context [match _ with _ => _ end] => fail
              | _ => destruct x eqn:?
              end
          end);
  simpl in H; try discriminate H.

Ltac fresh_done H :=
  injection H as <- <-;
  eexists; split; [reflexivity|];
  unfold fresh_case; simpl;
  split; [reflexivity|];
  split; [eexists; repeat split; reflexivity|];
  split; [intros []; reflexivity|];
  split; reflexivity.

Lemma driver_extract_inv rw r ref r' :
  DriverCases._extract_case_from_row rw r = (Return ref, r') ->
  exists row, rw = Some row
              /\ fresh_case driver (iteration_coordinate row) (counter row) r r' ref.
Proof.
  unfold DriverCases._extract_case_from_row, mbind, get_reader, decode, alloc, raise.
  intros H. run H. fresh_done H.
Qed.

Lemma derivative_extract_inv rw r ref r' :
  DriverDerivativeCases._extract_case_from_row rw r = (Return ref, r') ->
  exists row, rw = Some row
              /\ fresh_case driver_derivative (iteration_coordinate row) (counter row)
                            r r' ref.
Proof.
  unfold DriverDerivativeCases._extract_case_from_row,
    mbind, get_reader, decode, alloc, raise.
  intros H. run H. fresh_done H.
Qed.

Lemma system_extract_inv rw r ref r' :
  SystemCases._extract_case_from_row rw r = (Return ref, r') ->
  exists row, rw = Some row
              /\ fresh_case system (iteration_coordinate row) (counter row) r r' ref.
Proof.
  unfold SystemCases._extract_case_from_row, mbind, get_reader, decode, alloc, raise.
  intros H. run H. fresh_done H.
Qed.

Lemma solver_extract_inv rw r ref r' :
  SolverCases._extract_case_from_row rw r = (Return ref, r') ->
  exists row, rw = Some row
              /\ fresh_case solver (iteration_coordinate row) (counter row) r r' ref.
Proof.
  unfold SolverCases._extract_case_from_row, mbind, get_reader, decode, alloc, raise.
  intros H. run H. fresh_done H.
Qed.

Lemma problem_extract_inv rw r ref r' :
  ProblemCases._extract_case_from_row rw r = (Return ref, r') ->
  exists row, rw = Some row
              /\ fresh_case problem (iteration_coordinate row) (counter row) r r' ref.
Proof.
  unfold ProblemCases._extract_case_from_row, mbind, get_reader, decode, alloc, raise.
  intros H. run H. fresh_done H.
Qed.

Lemma store_of_with_store k st r : store_of k (with_store k st r) = st.
Proof. destruct k; reflexivity. Qed.

Lemma store_of_with_store_ne k k' st r :
  k' <> k -> store_of k' (with_store k st r) = store_of k' r.
Proof. destruct k, k'; intros H; try reflexivity; contradiction. Qed.

(** The cache-miss branch of a [get_case]: [H] is the equation of the
    run from the statement on, [inv] the inversion lemma of the row
    decoder, [Et] the table and [Ehit] the miss. *)
Ltac miss_branch H inv Et Ehit :=
  let ref' := fresh "ref'" in
  let r2 := fresh "r2" in
  let Ex := fresh "Ex" in
  let row := fresh "row" in
  let Hrow := fresh "Hrow" in
  let Href := fresh "Href" in
  let obj := fresh "obj" in
  let Hh := fresh "Hh" in
  let Hk := fresh "Hk" in
  let Hc := fresh "Hc" in
  let Hst := fresh "Hst" in
  let Hv := fresh "Hv" in
  let Hq := fresh "Hq" in
  let Hin := fresh "Hin" in
  let Hkey := fresh "Hkey" in
  let k' := fresh "k'" in
  let Hne := fresh "Hne" in
  let Hs1 := fresh "Hs1" in
  let Hs2 := fresh "Hs2" in
  let Hs3 := fresh "Hs3" in
  let Hs4 := fresh "Hs4" in
  let Hs5 := fresh "Hs5" in
  unfold mbind at 1 in H;
  match type of H with
  | context [?ex (fetchone_where ?c ?rows) ?b] =>
      destruct (ex (fetchone_where c rows) b) as [[ref'| |] r2] eqn:Ex;
      try discriminate H
  end;
  apply inv in Ex as (row & Hrow & Href & (obj & Hh & Hk & Hc & _) & Hst & Hv & Hq);
  apply fetchone_where_Some in Hrow as [Hin Hkey];
  simpl in Href, Hh, Hv, Hq;
  try (unfold mbind at 1, deref in H; rewrite Hh, Href in H; simpl in H;
       rewrite lookup_fresh in H);
  unfold mbind, cache_put, modify, ret in H; simpl in H;
  injection H as <- <-;
  right;
  split; [exact Ehit|];
  split;
  [ eexists; simpl; rewrite Et; split; [reflexivity|];
    apply in_map_iff; now exists row |];
  split; [first [reflexivity|exact Href]|];
  split;
  [ exists obj; simpl; rewrite Hh; split; [reflexivity|]; split; [exact Hk|]; congruence |];
  rewrite ?Hc, ?Hkey;
  pose proof (Hst driver) as Hs1;
  pose proof (Hst driver_derivative) as Hs2;
  pose proof (Hst system) as Hs3;
  pose proof (Hst solver) as Hs4;
  pose proof (Hst problem) as Hs5;
  simpl in Hs1, Hs2, Hs3, Hs4, Hs5;
  simpl;
  rewrite ?Hs1, ?Hs2, ?Hs3, ?Hs4, ?Hs5;
  simpl;
  split; [first [reflexivity|now rewrite Href]|];
  split; [reflexivity|];
  split; [ intros k' Hne; destruct k'; try contradiction; assumption |];
  split; [exact Hv|exact Hq].

Lemma driver_get_case_fetched db i r ref r1 :
  DriverCases.get_case db i false r = (Return ref, r1) ->
  exists c, get_iteration_coordinate (_case_keys (driver_cases r)) i = Return c
            /\ fetched driver db c r ref r1.
Proof.
  unfold DriverCases.get_case, mbind at 1, get_reader, lift.
  unfold mbind at 1.
  destruct (get_iteration_coordinate (_case_keys (driver_cases r)) i) as [c| |] eqn:Ec;
    try discriminate.
  intros H. exists c. split; [reflexivity|].
  unfold mbind at 1 in H.
  destruct (_cases (driver_cases r) !! c) as [ref0|] eqn:Ehit.
  - simpl in H. injection H as <- <-. left. split; [exact Ehit|reflexivity].
  - unfold mbind at 1, execute in H.
    destruct (driver_iterations db) as [rows|] eqn:Et; [|discriminate].
    miss_branch H driver_extract_inv Et Ehit.
Qed.

Lemma derivative_get_case_fetched db i r ref r1 :
  DriverDerivativeCases.get_case db i r = (Return ref, r1) ->
  exists c, get_iteration_coordinate (_case_keys (driver_derivative_cases r)) i = Return c
            /\ fetched driver_derivative db c r ref r1.
Proof.
  unfold DriverDerivativeCases.get_case, mbind at 1, get_reader, lift.
  unfold mbind at 1.
  destruct (get_iteration_coordinate (_case_keys (driver_derivative_cases r)) i)
    as [c| |] eqn:Ec; try discriminate.
  intros H. exists c. split; [reflexivity|].
  destruct (_cases (driver_derivative_cases r) !! c) as [ref0|] eqn:Ehit.
  - injection H as <- <-. left. split; [exact Ehit|reflexivity].
  - unfold mbind at 1, execute in H.
    destruct (driver_derivatives db) as [rows|] eqn:Et; [|discriminate].
    miss_branch H derivative_extract_inv Et Ehit.
Qed.

Lemma system_get_case_fetched db i r ref r1 :
  SystemCases.get_case db i r = (Return ref, r1) ->
  exists c, get_iteration_coordinate (_case_keys (system_cases r)) i = Return c
            /\ fetched system db c r ref r1.
Proof.
  unfold SystemCases.get_case, mbind at 1, get_reader, lift.
  unfold mbind at 1.
  destruct (get_iteration_coordinate (_case_keys (system_cases r)) i)
    as [c| |] eqn:Ec; try discriminate.
  intros H. exists c. split; [reflexivity|].
  destruct (_cases (system_cases r) !! c) as [ref0|] eqn:Ehit.
  - injection H as <- <-. left. split; [exact Ehit|reflexivity].
  - unfold mbind at 1, execute in H.
    destruct (system_iterations db) as [rows|] eqn:Et; [|discriminate].
    miss_branch H system_extract_inv Et Ehit.
Qed.

Lemma solver_get_case_fetched db i r ref r1 :
  SolverCases.get_case db i r = (Return ref, r1) ->
  exists c, get_iteration_coordinate (_case_keys (solver_cases r)) i = Return c
            /\ fetched solver db c r ref r1.
Proof.
  unfold SolverCases.get_case, mbind at 1, get_reader, lift.
  unfold mbind at 1.
  destruct (get_iteration_coordinate (_case_keys (solver_cases r)) i)
    as [c| |] eqn:Ec; try discriminate.
  intros H. exists c. split; [reflexivity|].
  destruct (_cases (solver_cases r) !! c) as [ref0|] eqn:Ehit.
  - injection H as <- <-. left. split; [exact Ehit|reflexivity].
  - unfold mbind at 1, execute in H.
    destruct (solver_iterations db) as [rows|] eqn:Et; [|discriminate].
    miss_branch H solver_extract_inv Et Ehit.
Qed.

Lemma problem_get_case_fetched db c r ref r1 :
  ProblemCases.get_case db c r = (Return ref, r1) ->
  fetched problem db c r ref r1.
Proof.
  unfold ProblemCases.get_case, mbind at 1, get_reader.
  intros H.
  destruct (_cases (problem_cases_store r) !! c) as [ref0|] eqn:Ehit.
  - injection H as <- <-. left. split; [exact Ehit|reflexivity].
  - unfold mbind at 1, execute in H.
    destruct (problem_cases db) as [rows|] eqn:Et; [|discriminate].
    miss_branch H problem_extract_inv Et Ehit.
Qed.

Lemma get_case_fetched k db key r ref r1 :
  get_case k db key r = (Return ref, r1) ->
  exists c, looked_up k r key = Return c /\ fetched k db c r ref r1.
Proof.
  destruct k; simpl; intros H.
  - now apply driver_get_case_fetched.
  - now apply derivative_get_case_fetched.
  - now apply system_get_case_fetched.
  - now apply solver_get_case_fetched.
  - exists key. split; [reflexivity|]. now apply problem_get_case_fetched.
Qed.

(** A cached coordinate is answered from the cache: no statement, no
    decoding, no change of the reader. *)
Lemma get_case_hit k db key r c ref :
  looked_up k r key = Return c ->
  _cases (store_of k r) !! c = Some ref ->
  get_case k db key r = (Return ref, r).
Proof.
  destruct k; simpl; intros Hc Hhit.
  - unfold DriverCases.get_case, mbind, get_reader, lift. rewrite Hc, Hhit. reflexivity.
  - unfold DriverDerivativeCases.get_case, mbind, get_reader, lift.
    rewrite Hc, Hhit. reflexivity.
  - unfold SystemCases.get_case, mbind, get_reader, lift. rewrite Hc, Hhit. reflexivity.
  - unfold SolverCases.get_case, mbind, get_reader, lift. rewrite Hc, Hhit. reflexivity.
  - injection Hc as ->.
    unfold ProblemCases.get_case, mbind, get_reader. rewrite Hhit. reflexivity.
Qed.

Lemma fetched_cached k db c r ref r1 :
  fetched k db c r ref r1 ->
  _cases (store_of k r1) !! c = Some ref
  /\ _case_keys (store_of k r1) = _case_keys (store_of k r).
Proof.
  intros [[Hhit ->]|(_ & _ & _ & _ & Hcache & Hkeys & _)].
  - split; [exact Hhit|reflexivity].
  - split; [|exact Hkeys]. rewrite Hcache. apply lookup_insert_eq.
Qed.

Lemma fetched_heap k db c r ref r1 :
  fetched k db c r ref r1 -> exists ext, heap r1 = heap r ++ ext.
Proof.
  intros [[_ ->]|(_ & _ & _ & (obj & Hh & _) & _)].
  - exists []. now rewrite app_nil_r.
  - now exists [obj].
Qed.

Lemma fetched_wf k db c r ref r1 :
  wf db r -> fetched k db c r ref r1 ->
  wf db r1 /\ exists obj, heap r1 !! ref = Some obj /\ category_of obj = k.
Proof.
  intros Hwf [[Hhit ->]|(Hmiss & (keys & Hkeys & Hin) & Href & (obj & Hh & Hk & Hc)
                          & Hcache & _ & Hothers & _)].
  - split; [exact Hwf|]. now apply (Hwf k c ref).
  - split.
    + intros k0 key0 ref0 Hl.
      destruct (decide (k0 = k)) as [->|Hne].
      * rewrite Hcache in Hl.
        destruct (decide (key0 = c)) as [->|Hkne].
        -- rewrite lookup_insert_eq in Hl. injection Hl as <-.
           split.
           ++ exists obj. split; [|exact Hk]. rewrite Hh, Href. apply lookup_fresh.
           ++ intros keys' Hk'. congruence.
        -- rewrite lookup_insert_ne in Hl by congruence.
           destruct (Hwf k key0 ref0 Hl) as [(o & Ho & Hko) Htab].
           split; [|exact Htab].
           exists o. split; [|exact Hko]. rewrite Hh. now apply lookup_app_l_Some.
      * rewrite (Hothers k0 Hne) in Hl.
        destruct (Hwf k0 key0 ref0 Hl) as [(o & Ho & Hko) Htab].
        split; [|exact Htab].
        exists o. split; [|exact Hko]. rewrite Hh. now apply lookup_app_l_Some.
    + exists obj. split; [|exact Hk]. rewrite Hh, Href. apply lookup_fresh.
Qed.


(** A coordinate with no row and nothing cached: the row fetched is
    [None] and unpacking it raises [TypeError]; the only trace is the
    statement that was executed. *)
Lemma get_case_absent k db key r c keys :
  looked_up k r key = Return c ->
  _cases (store_of k r) !! c = None ->
  table_keys k db = Some keys -> ~ In c keys ->
  get_case k db key r
  = (Raise TypeError, with_counts (decoded r) (S (queries r)) r).
Proof.
  destruct k; simpl; intros Hc Hmiss Hkeys Hin.
  - destruct (driver_iterations db) as [rows|] eqn:Et; [|discriminate].
    injection Hkeys as <-.
    unfold DriverCases.get_case, mbind, get_reader, lift, execute.
    rewrite Hc, Hmiss, Et, (fetchone_where_None c rows Hin). reflexivity.
  - destruct (driver_derivatives db) as [rows|] eqn:Et; [|discriminate].
    injection Hkeys as <-.
    unfold DriverDerivativeCases.get_case, mbind, get_reader, lift, execute.
    rewrite Hc, Hmiss, Et, (fetchone_where_None c rows Hin). reflexivity.
  - destruct (system_iterations db) as [rows|] eqn:Et; [|discriminate].
    injection Hkeys as <-.
    unfold SystemCases.get_case, mbind, get_reader, lift, execute.
    rewrite Hc, Hmiss, Et, (fetchone_where_None c rows Hin). reflexivity.
  - destruct (solver_iterations db) as [rows|] eqn:Et; [|discriminate].
    injection Hkeys as <-.
    unfold SolverCases.get_case, mbind, get_reader, lift, execute.
    rewrite Hc, Hmiss, Et, (fetchone_where_None c rows Hin). reflexivity.
  - destruct (problem_cases db) as [rows|] eqn:Et; [|discriminate].
    injection Hkeys as <-. injection Hc as ->.
    unfold ProblemCases.get_case, mbind, get_reader, execute.
    rewrite Hmiss, Et, (fetchone_where_None c rows Hin). reflexivity.
Qed.

(** C5, as amended.  In a reader whose caches are in order, [get_case]
    of any category store on a coordinate (or case name) that has no
    row in the store's table raises [TypeError], the error of unpacking
    the missing row; it returns no Case, creates none and caches none.
    The error is never [CaseNotFound]. *)
Theorem get_case_no_row k db key r c keys :
  wf db r ->
  looked_up k r key = Return c ->
  table_keys k db = Some keys -> ~ In c keys ->
  exists r',
    get_case k db key r = (Raise TypeError, r')
    /\ heap r' = heap r
    /\ (forall k', store_of k' r' = store_of k' r)
    /\ decoded r' = decoded r
    /\ @Raise nat TypeError <> Raise CaseNotFound.
Proof.
  intros Hwf Hc Hkeys Hin.
  assert (Hmiss : _cases (store_of k r) !! c = None).
  { destruct (_cases (store_of k r) !! c) as [ref|] eqn:E; [|reflexivity].
    destruct (Hwf k c ref E) as [_ Htab]. exfalso. apply Hin. now apply Htab. }
  eexists. split; [apply (get_case_absent k db key r c keys); assumption|].
  split; [reflexivity|]. split; [intros []; reflexivity|].
  split; [reflexivity|discriminate].
Qed.

(** A scaled request is the plain request followed by the copy. *)
Lemma driver_get_case_scaled db i r :
  DriverCases.get_case db i true r
  = match DriverCases.get_case db i false r with
    | (Return case, r0) =>
        (let* c := deref case in
         let* copy := alloc c in
         let* c' := lift (scale c) in
         heap_set copy c' ;;; ret copy) r0
    | (Raise e, r0) => (Raise e, r0)
    | (Diverge, r0) => (Diverge, r0)
    end.
Proof.
  unfold DriverCases.get_case, mbind, get_reader, lift, ret.
  repeat match goal with
         | |- context [match ?x with _ => _ end] =>
             lazymatch x with
             | context [match _ with _ => _ end] => fail
             | _ => destruct x eqn:?
             end
         end;
    simpl in *; congruence.
Qed.

(** C9.  A scaled request to [DriverCases.get_case] that returns has
    done what the plain request does (same cache, same cached object
    [ref]) and then created one more object, the copy, which alone was
    scaled: the copy is a new reference, the cached Case still has the
    unscaled value [c], and a later plain request for the same
    identifier returns the cached reference without touching the
    reader. *)
Theorem driver_get_case_scaled_copy db i r copy r1 :
  DriverCases.get_case db i true r = (Return copy, r1) ->
  exists ref r0 c c',
    DriverCases.get_case db i false r = (Return ref, r0)
    /\ heap r0 !! ref = Some c
    /\ scale c = Return c'
    /\ copy = length (heap r0) /\ copy <> ref
    /\ heap r1 = heap r0 ++ [c']
    /\ (forall k, store_of k r1 = store_of k r0)
    /\ heap r1 !! ref = Some c
    /\ DriverCases.get_case db i false r1 = (Return ref, r1).
Proof.
  rewrite driver_get_case_scaled.
  destruct (DriverCases.get_case db i false r) as [[ref| |] r0] eqn:E0;
    try discriminate.
  unfold mbind at 1, deref.
  destruct (heap r0 !! ref) as [c|] eqn:Eref; [|discriminate].
  unfold mbind at 1, alloc. unfold mbind at 1, lift.
  destruct (scale c) as [c'| |] eqn:Esc; try discriminate.
  unfold mbind, heap_set, modify, ret. simpl.
  intros [= <- <-].
  assert (Hlt : (ref < length (heap r0))%nat) by (eapply lookup_lt_Some; eassumption).
  assert (Hheap : <[length (heap r0) := c']> (heap r0 ++ [c]) = heap r0 ++ [c']).
  { rewrite insert_app_r_alt by lia. now rewrite Nat.sub_diag. }
  exists ref, r0, c, c'.
  split; [reflexivity|]. split; [exact Eref|]. split; [exact Esc|].
  split; [reflexivity|]. split; [lia|].
  split; [exact Hheap|].
  split; [intros []; reflexivity|].
  split.
  { simpl. rewrite Hheap. now apply lookup_app_l_Some. }
  apply driver_get_case_fetched in E0 as (k & Hk & Hf).
  apply fetched_cached in Hf as [Hhit Hkeys]. simpl in Hhit, Hkeys.
  unfold DriverCases.get_case, mbind, get_reader, lift, ret. simpl.
  rewrite Hkeys, Hk, Hhit. reflexivity.
Qed.

End StoreFacts.

(** ** The reader: lengths, unknown lengths *)

Section ReaderFacts.
Context `{D : Data} `{X : !Externals}.

Import SqliteCaseReader.

Lemma solver_iter_of_In (srows : list (row solver_cols)) s :
  In s (solver_iter_of srows)
  <-> exists rw, In rw srows /\ s = (iteration_coordinate rw, counter rw).
Proof.
  unfold solver_iter_of. rewrite in_map_iff. split.
  - intros (rw & <- & Hin). exists rw. split; [|reflexivity]. now apply order_by_In in Hin.
  - intros (rw & Hin & ->). exists rw. split; [reflexivity|]. now apply order_by_In.
Qed.

Lemma find_child_cases_unknown_length fuel p sp driver_iter solver_iter recursive cl :
  ~ In (if Z.eqb (len sp) 0 then 2 else len sp) cl ->
  _find_child_cases (S fuel) p sp driver_iter solver_iter recursive cl
  = Raise ValueError.
Proof.
  intros H. apply list_index_None in H. simpl. now rewrite H.
Qed.

(** C10.  When the segment count of the source coordinate (the base
    length 2 for the root) is not in the list of lengths computed from
    the solver table, [get_cases] yields nothing and ends with the
    [ValueError] of [coord_lengths.index]; the error is not
    [SourceNotFound]. *)
Theorem get_cases_unknown_length fuel db source recurse flat r drows srows :
  source <> "problem" -> source <> "driver" ->
  driver_iterations db = Some drows ->
  solver_iterations db = Some srows ->
  let split_iter_coord :=
    if negb (String.eqb source "") then Coord.split source else [] in
  let par_len := len split_iter_coord in
  ~ In (if Z.eqb par_len 0 then 2 else par_len)
       (coord_lengths_of (solver_iter_of srows)) ->
  fst (get_cases (S fuel) db source recurse flat r) = ([], Raise ValueError)
  /\ fst (get_cases (S fuel) db source recurse flat r) <> ([], Raise SourceNotFound).
Proof.
  intros Hp Hd Edr Eso sp par_len Hnot.
  assert (E : fst (get_cases (S fuel) db source recurse flat r) = ([], Raise ValueError)).
  { unfold get_cases.
    destruct (String.eqb_spec source "problem") as [|_]; [contradiction|].
    destruct (String.eqb_spec source "driver") as [|_]; [contradiction|].
    unfold before, execute, lift. rewrite Edr, Eso.
    fold sp.
    rewrite (find_child_cases_unknown_length fuel source sp _ _ recurse _ Hnot).
    reflexivity. }
  rewrite E. split; [reflexivity|discriminate].
Qed.

End ReaderFacts.

(** ** What a generator yields *)

Section Yields.
Context `{D : Data} `{X : !Externals}.

Import CategoryStore SqliteCaseReader.

Lemma grows_refl r : grows r r.
Proof. exists []. now rewrite app_nil_r. Qed.

Lemma grows_same_heap r r1 : heap r1 = heap r -> grows r r1.
Proof. intros H. exists []. now rewrite app_nil_r. Qed.

Lemma grows_trans r1 r2 r3 : grows r1 r2 -> grows r2 r3 -> grows r1 r3.
Proof.
  intros [e1 H1] [e2 H2]. exists (e1 ++ e2). now rewrite H2, H1, app_assoc.
Qed.

Lemma grows_lookup r r1 ref obj :
  grows r r1 -> heap r !! ref = Some obj -> heap r1 !! ref = Some obj.
Proof. intros [ext ->] H. now apply lookup_app_l_Some. Qed.

Lemma growing_ret {A : Type} (a : A) : growing (ret a).
Proof. intros r o r1 [= <- <-]. apply grows_refl. Qed.

Lemma growing_raise {A : Type} (e : exn) : growing (@raise _ A e).
Proof. intros r o r1 [= <- <-]. apply grows_refl. Qed.

Lemma growing_lift {A : Type} (o : outcome A) : growing (lift o).
Proof. intros r o' r1 [= <- <-]. apply grows_refl. Qed.

Lemma growing_get : growing get_reader.
Proof. intros r o r1 [= <- <-]. apply grows_refl. Qed.

Lemma growing_bind {A B : Type} (m : M A) (k : A -> M B) :
  growing m -> (forall a, growing (k a)) -> growing (mbind m k).
Proof.
  intros Hm Hk r o r1. unfold mbind.
  destruct (m r) as [[a|e|] r'] eqn:E; intros H.
  - eapply grows_trans; [eapply Hm; eassumption|eapply Hk; eassumption].
  - injection H as <- <-. eapply Hm; eassumption.
  - injection H as <- <-. eapply Hm; eassumption.
Qed.

Lemma growing_execute {A : Type} (table : option (list A)) : growing (execute table).
Proof.
  intros r o r1. unfold execute.
  destruct table; intros [= <- <-]; now apply grows_same_heap.
Qed.

Lemma growing_alloc c : growing (alloc c).
Proof. intros r o r1 [= <- <-]. now exists [c]. Qed.

Lemma growing_decode f text : growing (decode f text).
Proof. intros r o r1 [= <- <-]. now apply grows_same_heap. Qed.

Lemma growing_deref ref : growing (deref ref).
Proof.
  intros r o r1. unfold deref. destruct (heap r !! ref); intros [= <- <-]; apply grows_refl.
Qed.

Lemma growing_cache_put k key ref : growing (cache_put k key ref).
Proof. intros r o r1 [= <- <-]. now apply grows_same_heap. Qed.

Ltac growing :=
  repeat first
    [ apply growing_ret | apply growing_raise | apply growing_lift
    | apply growing_get | apply growing_execute | apply growing_alloc
    | apply growing_decode | apply growing_cache_put | apply growing_deref
    | apply growing_bind; [|intro]
    | match goal with
      | |- growing (match ?x with _ => _ end) => destruct x
      end ].

Lemma growing_get_case k db key : growing (get_case k db key).
Proof.
  destruct k; simpl.
  - unfold DriverCases.get_case, DriverCases._extract_case_from_row. growing.
  - unfold DriverDerivativeCases.get_case, DriverDerivativeCases._extract_case_from_row.
    growing.
  - unfold SystemCases.get_case, SystemCases._extract_case_from_row. growing.
  - unfold SolverCases.get_case, SolverCases._extract_case_from_row. growing.
  - unfold ProblemCases.get_case, ProblemCases._extract_case_from_row. growing.
Qed.

Lemma yields_of_grows K r r1 refs :
  grows r r1 -> yields_of K r refs -> yields_of K r1 refs.
Proof.
  intros Hg. unfold yields_of. rewrite !List.Forall_forall.
  intros H ref Hin. destruct (H ref Hin) as (obj & Ho & Hk).
  exists obj. split; [|exact Hk]. eapply grows_lookup; eassumption.
Qed.

Lemma yield_each_yields {A : Type} db (K : category -> Prop) (body : A -> M nat) l :
  (forall x, In x l -> growing (body x)) ->
  (forall x r ref r1,
      In x l -> wf db r -> body x r = (Return ref, r1) ->
      wf db r1 /\ exists obj, heap r1 !! ref = Some obj /\ K (category_of obj)) ->
  forall r ys e r',
    wf db r -> yield_each body l r = ((ys, e), r') ->
    grows r r' /\ yields_of K r' ys /\ (e = Return tt -> wf db r').
Proof.
  induction l as [|x l IH]; intros Hg Hb r ys e r' Hwf; simpl.
  - intros [= <- <- <-]. split; [apply grows_refl|]. split; [constructor|auto].
  - destruct (body x r) as [[ref|err|] r1] eqn:E.
    + destruct (yield_each body l r1) as [[ys' e'] r2] eqn:E2.
      intros [= <- <- <-].
      destruct (Hb x r ref r1 (or_introl eq_refl) Hwf E) as [Hwf1 Hobj].
      destruct (IH (fun y Hy => Hg y (or_intror Hy))
                   (fun y a b c Hy => Hb y a b c (or_intror Hy))
                   r1 ys' e' r2 Hwf1 E2) as (Hg2 & Hy & Hw).
      assert (Hg1 : grows r r1) by (eapply (Hg x); [now left|eassumption]).
      split; [eapply grows_trans; eassumption|].
      split; [|exact Hw].
      constructor; [|exact Hy].
      destruct Hobj as (obj & Ho & Hk). exists obj. split; [|exact Hk].
      eapply grows_lookup; eassumption.
    + intros [= <- <- <-]. split; [eapply (Hg x); [now left|eassumption]|].
      split; [constructor|discriminate].
    + intros [= <- <- <-]. split; [eapply (Hg x); [now left|eassumption]|].
      split; [constructor|discriminate].
Qed.

Lemma wf_same db r r' :
  (forall k, store_of k r' = store_of k r) -> heap r' = heap r ->
  wf db r -> wf db r'.
Proof.
  intros Hs Hh Hwf k key ref. rewrite Hs, Hh. apply Hwf.
Qed.

Lemma execute_inv {A : Type} (table : option (list A)) r o r1 :
  execute table r = (o, r1) ->
  r1 = with_counts (decoded r) (S (queries r)) r
  /\ (o = Raise OperationalError /\ table = None
      \/ exists rows, o = Return rows /\ table = Some rows).
Proof.
  unfold execute. destruct table as [rows|]; intros [= <- <-].
  - split; [reflexivity|]. right. now exists rows.
  - split; [reflexivity|]. now left.
Qed.

Lemma wf_counts db r d q : wf db r -> wf db (with_counts d q r).
Proof. apply wf_same; [intros []; reflexivity|reflexivity]. Qed.

(** On a coordinate, [get_cases] yields Cases of the driver and solver
    stores only. *)
Lemma get_cases_coordinate_yields fuel db source recurse flat r ys e r' :
  source <> "problem" -> source <> "driver" ->
  wf db r ->
  get_cases fuel db source recurse flat r = ((ys, e), r') ->
  grows r r' /\ yields_of (fun k => k = driver \/ k = solver) r' ys.
Proof.
  intros Hp Hd Hwf. unfold get_cases.
  destruct (String.eqb_spec source "problem") as [|_]; [contradiction|].
  destruct (String.eqb_spec source "driver") as [|_]; [contradiction|].
  unfold before at 1.
  destruct (execute (driver_iterations db) r) as [o1 r1] eqn:E1.
  apply execute_inv in E1 as [-> [[-> _]|(drows & -> & _)]].
  { intros [= <- <- <-]. split; [now apply grows_same_heap|constructor]. }
  unfold before at 1.
  match goal with
  | |- context [execute (solver_iterations db) ?s] =>
      destruct (execute (solver_iterations db) s) as [o2 r2] eqn:E2
  end.
  apply execute_inv in E2 as [-> [[-> _]|(srows & -> & _)]].
  { intros [= <- <- <-]. split; [now apply grows_same_heap|constructor]. }
  unfold before, lift.
  match goal with
  | |- context [_find_child_cases ?a ?b ?c ?d ?f ?g ?h] =>
      destruct (_find_child_cases a b c d f g h) as [iter_set|err|]
  end.
  - intros H.
    eapply (yield_each_yields db (fun k => k = driver \/ k = solver)) in H
      as (Hg & Hy & _).
    + split; [|exact Hy].
      destruct Hg as [ext Hext]. exists ext. exact Hext.
    + intros [c tag] _. simpl.
      destruct (String.eqb tag "driver").
      * apply (growing_get_case driver db c).
      * apply (growing_get_case solver db c).
    + intros [c tag] r0 ref r3 _ Hwf0. simpl.
      destruct (String.eqb tag "driver"); intros Hrun.
      * apply (get_case_fetched driver db c) in Hrun as (c' & _ & Hf).
        destruct (fetched_wf _ _ _ _ _ _ Hwf0 Hf) as [Hwf3 (obj & Ho & Hk)].
        split; [exact Hwf3|]. exists obj. split; [exact Ho|now left].
      * apply (get_case_fetched solver db c) in Hrun as (c' & _ & Hf).
        destruct (fetched_wf _ _ _ _ _ _ Hwf0 Hf) as [Hwf3 (obj & Ho & Hk)].
        split; [exact Hwf3|]. exists obj. split; [exact Ho|now right].
    + now apply wf_counts, wf_counts.
  - intros [= <- <- <-]. split; [now apply grows_same_heap|constructor].
  - intros [= <- <- <-]. split; [now apply grows_same_heap|constructor].
Qed.

End Yields.


(** ** Opening a recording *)

Section LoadFacts.
Context `{D : Data} `{X : !Externals}.

Import CategoryStore SqliteCaseReader.

Lemma mbind_ext {A B : Type} (m m' : M A) (k k' : A -> M B) r :
  m r = m' r ->
  (forall a r1, m' r = (Return a, r1) -> k a r1 = k' a r1) ->
  mbind m k r = mbind m' k' r.
Proof.
  intros Hm Hk. unfold mbind. rewrite Hm.
  destruct (m' r) as [[a|e|] r1]; try reflexivity. now apply Hk.
Qed.

Lemma with_store_same k r : with_store k (store_of k r) r = r.
Proof. destruct r, k; reflexivity. Qed.

Lemma new_stores_run r :
  exists r1,
    new_stores r = (Return tt, r1)
    /\ format_version r1 = format_version r
    /\ forall k, store_of k r1 = new_store.
Proof.
  eexists. split; [reflexivity|]. split; [reflexivity|]. intros []; reflexivity.
Qed.

Lemma read_keys_present {P : Type} k (rows : list (row P)) r :
  exists r1,
    read_keys k (Some rows) r = (Return tt, r1)
    /\ format_version r1 = format_version r
    /\ _case_keys (store_of k r1) = map iteration_coordinate (order_by id rows)
    /\ _cases (store_of k r1) = _cases (store_of k r)
    /\ forall k', k' <> k -> store_of k' r1 = store_of k' r.
Proof.
  eexists. split; [reflexivity|]. simpl.
  split; [reflexivity|].
  rewrite store_of_with_store. simpl.
  split; [reflexivity|]. split; [destruct k; reflexivity|].
  intros k' Hne. rewrite store_of_with_store_ne by exact Hne.
  destruct k'; reflexivity.
Qed.

Lemma read_keys_missing {P : Type} k r :
  read_keys k (@None (list (row P))) r
  = (Raise OperationalError, with_counts (decoded r) (S (queries r)) r).
Proof. reflexivity. Qed.

Lemma read_optional_keys_version_1 {P : Type} k r :
  store_of k r = new_store ->
  read_optional_keys k (@None (list (row P))) 1 r
  = read_optional_keys k (@Some (list (row P)) []) 1 r.
Proof.
  intros Hs. unfold read_optional_keys, try_except_operational.
  rewrite read_keys_missing.
  unfold read_keys, mbind, execute, set_keys, modify, ret. simpl.
  f_equal.
  rewrite <- (with_store_same k (with_counts (decoded r) (S (queries r)) r)) at 1.
  f_equal.
  replace (store_of k (with_counts (decoded r) (S (queries r)) r)) with (store_of k r)
    by (destruct k; reflexivity).
  rewrite Hs. reflexivity.
Qed.

Lemma read_optional_keys_or_empty {P : Type} k (table : option (list (row P))) r :
  store_of k r = new_store ->
  read_optional_keys k table 1 r = read_optional_keys k (or_empty table) 1 r.
Proof.
  destruct table; [reflexivity|]. apply read_optional_keys_version_1.
Qed.

Lemma read_optional_keys_stores {P : Type} k (table : option (list (row P))) v r r1 :
  read_optional_keys k table v r = (Return tt, r1) ->
  format_version r1 = format_version r
  /\ forall k', k' <> k -> store_of k' r1 = store_of k' r.
Proof.
  unfold read_optional_keys, try_except_operational.
  destruct table as [rows|].
  - destruct (read_keys_present k rows r) as (r2 & -> & Hv & _ & _ & Hs).
    intros [= <-]. auto.
  - rewrite read_keys_missing.
    destruct (Z.leb 2 v); [discriminate|].
    intros [= <-]. split; [reflexivity|]. intros k' _. destruct k'; reflexivity.
Qed.

Lemma read_keys_stores {P : Type} k (table : option (list (row P))) r r1 :
  read_keys k table r = (Return tt, r1) ->
  format_version r1 = format_version r
  /\ forall k', k' <> k -> store_of k' r1 = store_of k' r.
Proof.
  destruct table as [rows|]; [|rewrite read_keys_missing; discriminate].
  destruct (read_keys_present k rows r) as (r2 & -> & Hv & _ & _ & Hs).
  intros [= <-]. auto.
Qed.

(** In a version-1 file, [_load] reads a missing [driver_derivatives]
    or [problem_cases] table as an empty one: it does not fail on the
    absence, and the store's list of coordinates is the empty list of
    the empty table. *)
Lemma load_version_1_missing_tables db dd pc r :
  format_version r = 1 ->
  _load (with_optional_tables dd pc db) r
  = _load (with_optional_tables (or_empty dd) (or_empty pc) db) r.
Proof.
  intros Hv. unfold _load.
  cbn [driver_derivatives problem_cases with_optional_tables driver_iterations
       system_iterations solver_iterations].
  destruct (new_stores_run r) as (r1 & H1 & Hv1 & Hs1).
  apply mbind_ext; [reflexivity|]. intros [] r1' H1'.
  rewrite H1 in H1'. injection H1' as <-.
  apply mbind_ext; [reflexivity|]. intros self r2 [= <- <-].
  cbv zeta. rewrite Hv1, Hv.
  destruct (Z.leb 1 1 && Z.leb 1 recorder_format_version)%bool; [|reflexivity].
  apply mbind_ext; [reflexivity|]. intros [] r3 H3.
  apply read_keys_stores in H3 as [_ Hs3].
  apply mbind_ext.
  { apply read_optional_keys_or_empty.
    rewrite (Hs3 driver_derivative) by discriminate. apply Hs1. }
  intros [] r4 H4. apply read_optional_keys_stores in H4 as [_ Hs4].
  apply mbind_ext; [reflexivity|]. intros [] r5 H5.
  apply read_keys_stores in H5 as [_ Hs5].
  apply mbind_ext; [reflexivity|]. intros [] r6 H6.
  apply read_keys_stores in H6 as [_ Hs6].
  apply mbind_ext; [|reflexivity].
  apply read_optional_keys_or_empty.
  rewrite (Hs6 problem), (Hs5 problem), (Hs4 problem), (Hs3 problem) by discriminate.
  apply Hs1.
Qed.

Lemma mbind_Return_inv {A B : Type} (m : M A) (k : A -> M B) r b r2 :
  mbind m k r = (Return b, r2) ->
  exists a r1, m r = (Return a, r1) /\ k a r1 = (Return b, r2).
Proof.
  unfold mbind. destruct (m r) as [[a|e|] r1]; try discriminate.
  intros H. now exists a, r1.
Qed.

Lemma mbind_return {A B : Type} (m : M A) (k : A -> M B) r a r1 :
  m r = (Return a, r1) -> mbind m k r = k a r1.
Proof. intros H. unfold mbind. now rewrite H. Qed.

Lemma mbind_raise {A B : Type} (m : M A) (k : A -> M B) r e r1 :
  m r = (Raise e, r1) -> mbind m k r = (Raise e, r1).
Proof. intros H. unfold mbind. now rewrite H. Qed.

Lemma read_optional_keys_version_2 {P : Type} k v r :
  2 <= v ->
  read_optional_keys k (@None (list (row P))) v r
  = (Raise OperationalError, with_counts (decoded r) (S (queries r)) r).
Proof.
  intros Hv. unfold read_optional_keys, try_except_operational.
  rewrite read_keys_missing.
  replace (Z.leb 2 v) with true by (symmetry; apply Z.leb_le; lia).
  reflexivity.
Qed.

(** From version 2 on, [_load] raises when the [driver_derivatives] or
    the [problem_cases] table is missing. *)
Lemma load_version_2_missing_tables db r :
  2 <= format_version r ->
  driver_derivatives db = None \/ problem_cases db = None ->
  exists e r', _load db r = (Raise e, r').
Proof.
  intros Hv Hmiss. unfold _load.
  destruct (new_stores_run r) as (r1 & H1 & Hv1 & _).
  rewrite (mbind_return _ _ _ _ _ H1).
  unfold mbind at 1, get_reader. cbv zeta. rewrite Hv1.
  destruct (Z.leb 1 (format_version r) && Z.leb (format_version r) recorder_format_version)%bool;
    [|eexists; eexists; reflexivity].
  destruct (driver_iterations db) as [rows|].
  2:{ eexists; eexists. apply mbind_raise. apply read_keys_missing. }
  destruct (read_keys_present driver rows r1) as (r2 & H2 & _).
  rewrite (mbind_return _ _ _ _ _ H2).
  destruct (driver_derivatives db) as [drows|] eqn:Ed.
  2:{ eexists; eexists. apply mbind_raise. now apply read_optional_keys_version_2. }
  destruct Hmiss as [Hm|Hm]; [discriminate|].
  unfold read_optional_keys at 1, try_except_operational at 1.
  destruct (read_keys_present driver_derivative drows r2) as (r3 & H3 & _).
  unfold mbind at 1. rewrite H3.
  destruct (system_iterations db) as [srows|].
  2:{ eexists; eexists. apply mbind_raise. apply read_keys_missing. }
  destruct (read_keys_present system srows r3) as (r4 & H4 & _).
  rewrite (mbind_return _ _ _ _ _ H4).
  destruct (solver_iterations db) as [vrows|].
  2:{ eexists; eexists. apply mbind_raise. apply read_keys_missing. }
  destruct (read_keys_present solver vrows r4) as (r5 & H5 & _).
  rewrite (mbind_return _ _ _ _ _ H5).
  rewrite Hm.
  eexists; eexists. apply mbind_raise. now apply read_optional_keys_version_2.
Qed.

Lemma still_ret {A : Type} (a : A) : still (ret a).
Proof. intros r o r1 [= <- <-] k. reflexivity. Qed.

Lemma still_lift {A : Type} (o : outcome A) : still (lift o).
Proof. intros r o' r1 [= <- <-] k. reflexivity. Qed.

Lemma still_bind {A B : Type} (m : M A) (k : A -> M B) :
  still m -> (forall a, still (k a)) -> still (mbind m k).
Proof.
  intros Hm Hk r o r1. unfold mbind.
  destruct (m r) as [[a|e|] r'] eqn:E; intros H k0.
  - rewrite (Hk a _ _ _ H k0). now apply (Hm _ _ _ E).
  - injection H as <- <-. now apply (Hm _ _ _ E).
  - injection H as <- <-. now apply (Hm _ _ _ E).
Qed.

Lemma still_execute {A : Type} (table : option (list A)) : still (execute table).
Proof.
  intros r o r1. unfold execute. destruct table; intros [= <- <-] []; reflexivity.
Qed.

Lemma still_with_metadata (f : reader -> reader) :
  (forall r, exists dm sm vm, f r = with_metadata dm sm vm r) -> still (modify f).
Proof.
  intros Hf r o r1 [= <- <-]. destruct (Hf r) as (dm & sm & vm & ->).
  intros []; reflexivity.
Qed.

Lemma still_each {A : Type} (body : A -> M unit) l :
  (forall x, still (body x)) -> still (each body l).
Proof.
  intros Hb. induction l as [|x l IH]; simpl.
  - apply still_ret.
  - apply still_bind; [apply Hb|intros _; exact IH].
Qed.

Lemma still_read_metadata db v : still (read_metadata db v).
Proof.
  unfold read_metadata, set_system_metadata.
  repeat first
    [ apply still_execute | apply still_lift | apply still_ret
    | apply still_with_metadata; intros ?; eauto
    | apply still_each; intros [[? ?] ?]
    | apply still_bind; [|intro]
    | match goal with
      | |- still (match ?x with _ => _ end) => destruct x
      end ].
Qed.

Lemma read_optional_keys_absent {P : Type} k v r r1 :
  read_optional_keys k (@None (list (row P))) v r = (Return tt, r1) ->
  forall k', store_of k' r1 = store_of k' r.
Proof.
  unfold read_optional_keys, try_except_operational. rewrite read_keys_missing.
  destruct (Z.leb 2 v); [discriminate|]. intros [= <-] []; reflexivity.
Qed.

Lemma with_optional_tables_same db :
  with_optional_tables (driver_derivatives db) (problem_cases db) db = db.
Proof. destruct db; reflexivity. Qed.

(** When [_load] returns on a file without the table, the store of the
    table has no coordinates. *)
Lemma load_missing_keys db r r1 :
  _load db r = (Return tt, r1) ->
  (driver_derivatives db = None -> _case_keys (driver_derivative_cases r1) = [])
  /\ (problem_cases db = None -> _case_keys (problem_cases_store r1) = []).
Proof.
  unfold _load. intros H.
  destruct (new_stores_run r) as (r0 & H0 & _ & Hs0).
  rewrite (mbind_return _ _ _ _ _ H0) in H.
  unfold mbind at 1, get_reader in H. cbv zeta in H.
  destruct (Z.leb 1 (format_version r0)
            && Z.leb (format_version r0) recorder_format_version)%bool;
    [|discriminate].
  apply mbind_Return_inv in H as ([] & r2 & H2 & H).
  apply mbind_Return_inv in H as ([] & r3 & H3 & H).
  apply mbind_Return_inv in H as ([] & r4 & H4 & H).
  apply mbind_Return_inv in H as ([] & r5 & H5 & H).
  apply mbind_Return_inv in H as ([] & r6 & H6 & H7).
  pose proof (still_read_metadata _ _ _ _ _ H7) as S7.
  apply read_keys_stores in H2 as [_ S2].
  apply read_keys_stores in H4 as [_ S4].
  apply read_keys_stores in H5 as [_ S5].
  split; intros Hm.
  - rewrite Hm in H3. pose proof (read_optional_keys_absent _ _ _ _ H3) as S3.
    apply read_optional_keys_stores in H6 as [_ S6].
    change (_case_keys (store_of driver_derivative r1) = []).
    rewrite S7, (S6 driver_derivative), (S5 driver_derivative), (S4 driver_derivative),
      S3, (S2 driver_derivative), Hs0 by discriminate.
    reflexivity.
  - rewrite Hm in H6. pose proof (read_optional_keys_absent _ _ _ _ H6) as S6.
    apply read_optional_keys_stores in H3 as [_ S3].
    change (_case_keys (store_of problem r1) = []).
    rewrite S7, S6, (S5 problem), (S4 problem), (S3 problem), (S2 problem), Hs0
      by discriminate.
    reflexivity.
Qed.

Lemma mbind_lift {A B : Type} (o : outcome A) (k : A -> M B) r :
  mbind (lift o) k r
  = match o with
    | Return a => k a r
    | Raise e => (Raise e, r)
    | Diverge => (Diverge, r)
    end.
Proof. unfold mbind, lift. destruct o; reflexivity. Qed.

(** [_load] is the step of the constructor that reads the tables.
    - On a version-1 file it runs exactly as if a missing
      [driver_derivatives] or [problem_cases] table were there and
      empty, and when it returns the store of a missing table has no
      coordinates; the same holds of the constructor called without
      [pre_load].
    - From version 2 on, [_load] raises when either table is missing,
      and the constructor does not return, with or without [pre_load]. *)
Lemma load_optional_tables db r :
  let db' := with_optional_tables (or_empty (driver_derivatives db))
                                  (or_empty (problem_cases db)) db in
  (format_version r = 1 -> _load db r = _load db' r)
  /\ (forall r1,
         _load db r = (Return tt, r1) ->
         (driver_derivatives db = None -> _case_keys (driver_derivative_cases r1) = [])
         /\ (problem_cases db = None -> _case_keys (problem_cases_store r1) = []))
  /\ (2 <= format_version r ->
      driver_derivatives db = None \/ problem_cases db = None ->
      exists e r', _load db r = (Raise e, r'))
  /\ (forall rw rest,
         metadata db = Some (rw :: rest) -> md_format_version rw = 1 ->
         open db false = open db' false)
  /\ (forall rw rest pre_load b,
         metadata db = Some (rw :: rest) -> 2 <= md_format_version rw ->
         driver_derivatives db = None \/ problem_cases db = None ->
         fst (open db pre_load) <> Return b).
Proof.
  intros db'.
  assert (H1 : forall s, format_version s = 1 -> _load db s = _load db' s).
  { intros s Hv. subst db'.
    rewrite <- (with_optional_tables_same db) at 1.
    now apply load_version_1_missing_tables. }
  split; [apply H1|].
  split; [intros r1; apply load_missing_keys|].
  split; [apply load_version_2_missing_tables|].
  split.
  - intros rw rest Hmd Hv. unfold open, __init__.
    replace (metadata db') with (metadata db) by reflexivity.
    apply mbind_ext; [reflexivity|]. intros rows s1 Hs1.
    unfold execute in Hs1. rewrite Hmd in Hs1. injection Hs1 as <- <-.
    apply mbind_ext; [reflexivity|]. intros [] s2 [= <-].
    apply mbind_ext; [reflexivity|]. intros [] s3 Hs3.
    unfold lift in Hs3. injection Hs3 as _ <-.
    apply mbind_ext; [|reflexivity].
    apply H1. simpl. exact Hv.
  - intros rw rest pre_load b Hmd Hv Hmiss. unfold open, __init__.
    unfold mbind at 1, execute. rewrite Hmd.
    unfold mbind at 1, set_format_version, modify.
    rewrite mbind_lift.
    destruct (read_catalog (md_format_version rw) rw); try discriminate.
    match goal with
    | |- context [mbind (_load db) ?k ?s] =>
        destruct (load_version_2_missing_tables db s) as (e & s' & He);
        [simpl; exact Hv|exact Hmiss|];
        rewrite (mbind_raise (_load db) k s e s' He)
    end.
    discriminate.
Qed.

Lemma never_returns_bind {A B : Type} (m : M A) (k : A -> M B) :
  (forall a r b, fst (k a r) <> Return b) ->
  forall r b, fst (mbind m k r) <> Return b.
Proof.
  intros Hk r b. unfold mbind.
  destruct (m r) as [[a|e|] r1]; simpl; try discriminate. apply Hk.
Qed.

(** With [pre_load=True] the constructor goes on to [load_cases], whose
    last step reads the [problem_cases] table without the guard that
    [_load] has: no file without that table can be opened this way. *)
Lemma open_pre_load_without_problem_cases (db : database) :
  problem_cases db = None ->
  forall b, fst (open db true) <> Return b.
Proof.
  intros Hm b. unfold open, __init__.
  apply never_returns_bind. intros rows r0 b0.
  destruct rows as [|rw rows]; [discriminate|].
  apply never_returns_bind. intros _ r1 b1.
  apply never_returns_bind. intros _ r2 b2.
  apply never_returns_bind. intros _ r3 b3.
  unfold load_cases.
  apply never_returns_bind. intros _ r4 b4.
  apply never_returns_bind. intros _ r5 b5.
  apply never_returns_bind. intros _ r6 b6.
  unfold ProblemCases.load_cases, mbind, execute. rewrite Hm. discriminate.
Qed.

End LoadFacts.

(** ** Readers that come out of the constructor *)

Section OpenFacts.
Context `{D : Data} `{X : !Externals}.

Import CategoryStore SqliteCaseReader.

Lemma blank_wf (db : database) (r : reader) : blank r -> wf db r.
Proof.
  intros H k key ref Hl. rewrite H in Hl. rewrite lookup_empty in Hl. discriminate.
Qed.

Lemma quiet_same {A : Type} (m : M A) :
  (forall r o r1, m r = (o, r1) ->
                  heap r1 = heap r /\ forall k, store_of k r1 = store_of k r) ->
  quiet m.
Proof.
  intros H r o r1 E. destruct (H r o r1 E) as [Hh Hs].
  split; [exact Hh|]. intros k. now rewrite Hs.
Qed.

Lemma quiet_ret {A : Type} (a : A) : quiet (ret a).
Proof. intros r o r1 [= <- <-]. auto. Qed.

Lemma quiet_raise {A : Type} (e : exn) : quiet (@raise _ A e).
Proof. intros r o r1 [= <- <-]. auto. Qed.

Lemma quiet_lift {A : Type} (o : outcome A) : quiet (lift o).
Proof. intros r o' r1 [= <- <-]. auto. Qed.

Lemma quiet_get : quiet get_reader.
Proof. intros r o r1 [= <- <-]. auto. Qed.

Lemma quiet_bind {A B : Type} (m : M A) (k : A -> M B) :
  quiet m -> (forall a, quiet (k a)) -> quiet (mbind m k).
Proof.
  intros Hm Hk r o r1. unfold mbind.
  destruct (m r) as [[a|e|] r'] eqn:E; intros H.
  - destruct (Hm _ _ _ E) as [Hh Hc]. destruct (Hk a _ _ _ H) as [Hh' Hc'].
    split; [congruence|]. intros k0. now rewrite Hc', Hc.
  - injection H as <- <-. eapply Hm; eassumption.
  - injection H as <- <-. eapply Hm; eassumption.
Qed.

Lemma quiet_execute {A : Type} (table : option (list A)) : quiet (execute table).
Proof.
  apply quiet_same. intros r o r1. unfold execute.
  destruct table; intros [= <- <-]; (split; [reflexivity|intros []; reflexivity]).
Qed.

Lemma quiet_set_keys k keys : quiet (set_keys k keys).
Proof.
  intros r o r1 [= <- <-]. split; [reflexivity|].
  intros k0. destruct (decide (k0 = k)) as [->|Hne].
  - now rewrite store_of_with_store.
  - now rewrite store_of_with_store_ne.
Qed.

Lemma quiet_with_metadata (f : reader -> reader) :
  (forall r, exists dm sm vm, f r = with_metadata dm sm vm r) -> quiet (modify f).
Proof.
  intros Hf. apply quiet_same. intros r o r1 [= <- <-].
  destruct (Hf r) as (dm & sm & vm & ->).
  split; [reflexivity|intros []; reflexivity].
Qed.

Lemma quiet_set_format_version v : quiet (set_format_version v).
Proof.
  apply quiet_same. intros r o r1 [= <- <-].
  split; [reflexivity|intros []; reflexivity].
Qed.

Lemma quiet_each {A : Type} (body : A -> M unit) l :
  (forall x, quiet (body x)) -> quiet (each body l).
Proof.
  intros Hb. induction l as [|x l IH]; simpl.
  - apply quiet_ret.
  - apply quiet_bind; [apply Hb|intros _; exact IH].
Qed.

Lemma quiet_try_except (m handler : M unit) :
  quiet m -> quiet handler -> quiet (try_except_operational m handler).
Proof.
  intros Hm Hh r o r1. unfold try_except_operational.
  destruct (m r) as [[[]|e|] r'] eqn:E.
  - intros [= <- <-]. eapply Hm; eassumption.
  - destruct (Hm _ _ _ E) as [Hh1 Hc1].
    destruct e; try (intros [= <- <-]; auto; fail).
    intros H. destruct (Hh _ _ _ H) as [Hh2 Hc2].
    split; [congruence|]. intros k. now rewrite Hc2, Hc1.
  - intros [= <- <-]. eapply Hm; eassumption.
Qed.

Lemma quiet_read_keys {P : Type} k (table : option (list (row P))) :
  quiet (read_keys k table).
Proof.
  apply quiet_bind; [apply quiet_execute|intros rows; apply quiet_set_keys].
Qed.

Lemma quiet_read_optional_keys {P : Type} k (table : option (list (row P))) v :
  quiet (read_optional_keys k table v).
Proof.
  apply quiet_try_except; [apply quiet_read_keys|].
  destruct (Z.leb 2 v); [apply quiet_raise|apply quiet_ret].
Qed.

Lemma quiet_read_metadata db v : quiet (read_metadata db v).
Proof.
  unfold read_metadata, set_system_metadata.
  repeat first
    [ apply quiet_execute | apply quiet_lift | apply quiet_ret
    | apply quiet_with_metadata; intros ?; eauto
    | apply quiet_each; intros [[? ?] ?]
    | apply quiet_bind; [|intro]
    | match goal with
      | |- quiet (match ?x with _ => _ end) => destruct x
      end ].
Qed.

(** However [_load] ends, it leaves the heap as it was and every cache
    empty. *)
Lemma load_blank db r o r1 :
  _load db r = (o, r1) -> heap r1 = heap r /\ blank r1.
Proof.
  unfold _load. intros H.
  destruct (new_stores_run r) as (r0 & H0 & _ & Hs0).
  rewrite (mbind_return _ _ _ _ _ H0) in H.
  assert (Hq : quiet (let* self := get_reader in
                      let version := format_version self in
                      if (Z.leb 1 version && Z.leb version recorder_format_version)%bool
                      then
                        read_keys driver (driver_iterations db) ;;;
                        read_optional_keys driver_derivative (driver_derivatives db) version ;;;
                        read_keys system (system_iterations db) ;;;
                        read_keys solver (solver_iterations db) ;;;
                        read_optional_keys problem (problem_cases db) version ;;;
                        read_metadata db version
                      else raise ValueError)).
  { apply quiet_bind; [apply quiet_get|]. intros self. cbv zeta.
    destruct (Z.leb 1 (format_version self)
              && Z.leb (format_version self) recorder_format_version)%bool;
      [|apply quiet_raise].
    repeat first [apply quiet_bind; [|intros _]
                 |apply quiet_read_keys
                 |apply quiet_read_optional_keys
                 |apply quiet_read_metadata]. }
  destruct (Hq _ _ _ H) as [Hh Hc].
  split.
  - rewrite Hh. injection H0 as <-. reflexivity.
  - intros k. rewrite Hc, Hs0. reflexivity.
Qed.

(** One row of [load_cases]: the Case is created and cached under its
    own coordinate. *)
Lemma store_row_wf {P : Type} db k (extract : option (row P) -> M nat) (rw : row P) r r1 :
  (forall x s ref s',
      extract x s = (Return ref, s') ->
      exists row0, x = Some row0
                   /\ fresh_case k (iteration_coordinate row0) (counter row0) s s' ref) ->
  (forall keys, table_keys k db = Some keys -> In (iteration_coordinate rw) keys) ->
  wf db r ->
  (let* case := extract (Some rw) in
   let* c := deref case in
   cache_put k (case_iteration_coordinate c) case) r = (Return tt, r1) ->
  wf db r1.
Proof.
  intros Hinv Hkey Hwf H.
  apply mbind_Return_inv in H as (ref & r2 & Hex & H).
  apply Hinv in Hex as (row0 & [= <-] & Href & (obj & Hh & Hk & Hc & _) & Hst & _).
  apply mbind_Return_inv in H as (c & r3 & Hd & H).
  unfold deref in Hd. rewrite Hh, Href, lookup_fresh in Hd. injection Hd as <- <-.
  unfold cache_put, modify in H. injection H as <-.
  intros k0 key0 ref0 Hl.
  destruct (decide (k0 = k)) as [->|Hne].
  - rewrite store_of_with_store in Hl. simpl in Hl.
    replace (heap (with_store k _ r2)) with (heap r2) by (destruct k; reflexivity).
    destruct (decide (key0 = case_iteration_coordinate obj)) as [->|Hkne].
    + rewrite lookup_insert_eq in Hl. injection Hl as <-.
      split.
      * exists obj. split; [|exact Hk]. rewrite Hh, Href. apply lookup_fresh.
      * rewrite Hc. exact Hkey.
    + rewrite lookup_insert_ne in Hl by congruence. rewrite Hst in Hl.
      destruct (Hwf k key0 ref0 Hl) as [(o & Ho & Hko) Htab].
      split; [|exact Htab].
      exists o. split; [|exact Hko]. rewrite Hh. now apply lookup_app_l_Some.
  - rewrite store_of_with_store_ne in Hl by exact Hne. rewrite Hst in Hl.
    replace (heap (with_store k _ r2)) with (heap r2) by (destruct k; reflexivity).
    destruct (Hwf k0 key0 ref0 Hl) as [(o & Ho & Hko) Htab].
    split; [|exact Htab].
    exists o. split; [|exact Hko]. rewrite Hh. now apply lookup_app_l_Some.
Qed.

Lemma each_wf {A : Type} db (body : A -> M unit) l :
  (forall x r r1, In x l -> wf db r -> body x r = (Return tt, r1) -> wf db r1) ->
  forall r r1, wf db r -> each body l r = (Return tt, r1) -> wf db r1.
Proof.
  induction l as [|x l IH]; intros Hb r r1 Hwf; simpl.
  - intros [= <-]. exact Hwf.
  - intros H. apply mbind_Return_inv in H as ([] & r2 & H1 & H2).
    apply (IH (fun y a b Hy => Hb y a b (or_intror Hy)) r2 r1); [|exact H2].
    apply (Hb x r r2); [now left|exact Hwf|exact H1].
Qed.

Lemma load_rows_wf {P : Type} db k (extract : option (row P) -> M nat)
      (table : option (list (row P))) r r1 :
  (forall x s ref s',
      extract x s = (Return ref, s') ->
      exists row0, x = Some row0
                   /\ fresh_case k (iteration_coordinate row0) (counter row0) s s' ref) ->
  table_keys k db = option_map (map iteration_coordinate) table ->
  wf db r ->
  (let* rows := execute table in
   each (fun rw =>
           let* case := extract (Some rw) in
           let* c := deref case in
           cache_put k (case_iteration_coordinate c) case)
        rows) r = (Return tt, r1) ->
  wf db r1.
Proof.
  intros Hinv Htab Hwf H.
  apply mbind_Return_inv in H as (rows & r2 & He & H).
  apply execute_inv in He as [-> [[? _]|(rows' & [= <-] & ->)]]; [discriminate|].
  revert H. apply each_wf; [|now apply wf_counts].
  intros rw s s1 Hin Hs. apply (store_row_wf db k extract rw); [exact Hinv| |exact Hs].
  intros keys Hk. rewrite Htab in Hk. injection Hk as <-.
  apply in_map_iff. now exists rw.
Qed.

Lemma load_cases_wf db r r1 :
  wf db r -> load_cases db r = (Return tt, r1) -> wf db r1.
Proof.
  intros Hwf H. unfold load_cases in H.
  apply mbind_Return_inv in H as ([] & r2 & H1 & H).
  apply mbind_Return_inv in H as ([] & r3 & H2 & H).
  apply mbind_Return_inv in H as ([] & r4 & H3 & H4).
  apply (load_rows_wf db driver _ _ _ _ driver_extract_inv eq_refl) in H1; [|exact Hwf].
  apply (load_rows_wf db solver _ _ _ _ solver_extract_inv eq_refl) in H2; [|exact H1].
  apply (load_rows_wf db system _ _ _ _ system_extract_inv eq_refl) in H3; [|exact H2].
  apply (load_rows_wf db problem _ _ _ _ problem_extract_inv eq_refl) in H4; [|exact H3].
  exact H4.
Qed.

(** The caches of a reader the constructor returns are in order. *)
Lemma open_wf db pre_load r : open db pre_load = (Return tt, r) -> wf db r.
Proof.
  unfold open, __init__. intros H.
  apply mbind_Return_inv in H as (rows & r1 & _ & H).
  destruct rows as [|rw rows]; [discriminate|].
  apply mbind_Return_inv in H as ([] & r2 & _ & H).
  apply mbind_Return_inv in H as ([] & r3 & _ & H).
  apply mbind_Return_inv in H as ([] & r4 & Hl & H).
  apply load_blank in Hl as [_ Hb].
  destruct pre_load.
  - apply (load_cases_wf db r4 r); [now apply blank_wf|exact H].
  - injection H as <-. now apply blank_wf.
Qed.

End OpenFacts.

(** ** The recordings of the fixture *)

Section Evaluations.

Import SqliteCaseReader CategoryStore Fixture Samples.

#[local] Existing Instance plain_data.
#[local] Existing Instance plain_externals.

Ltac conjuncts := repeat match goal with |- _ /\ _ => split end.

(** C7.  The recording [legacy_run] has the format version 1 and
    neither a [driver_derivatives] nor a [problem_cases] table.  Opened
    without [pre_load] it loads, and the two stores have no coordinates;
    opened with [pre_load=True] the constructor goes on to
    [load_cases], where [ProblemCases.load_cases] reads [problem_cases]
    without the guard of [_load], and raises
    [sqlite3.OperationalError]: the absence of the table is an error
    when this version-1 store is opened. *)
Theorem open_legacy_run_pre_load :
  metadata legacy_run = Some [metadata_of 1]
  /\ md_format_version (metadata_of 1) = 1
  /\ driver_derivatives legacy_run = None
  /\ problem_cases legacy_run = None
  /\ fst (open legacy_run false) = Return tt
  /\ _case_keys (driver_derivative_cases (snd (open legacy_run false))) = []
  /\ _case_keys (problem_cases_store (snd (open legacy_run false))) = []
  /\ fst (open legacy_run true) = Raise OperationalError.
Proof. conjuncts; vm_compute; reflexivity. Qed.

(** C6.  On the recording of the fixture, where the inner solver
    iteration was recorded before the outer one,
    [get_cases('rank0:SLSQP|0', recurse=True, flat=True)] ends normally
    after yielding the outer solver case (counter 2) and then the inner
    one (counter 1): the counters are not increasing. *)
Theorem get_cases_yields_parent_first :
  snd (fst cases_of_first_iteration) = Return tt
  /\ coordinates_of (fst (fst cases_of_first_iteration)) (snd cases_of_first_iteration)
     = [Some outer_solver; Some inner_solver]
  /\ counters_of (fst (fst cases_of_first_iteration)) (snd cases_of_first_iteration)
     = [Some 2; Some 1]
  /\ ~ StronglySorted Z.lt [2; 1].
Proof.
  split; [vm_compute; reflexivity|].
  split; [vm_compute; reflexivity|].
  split; [vm_compute; reflexivity|].
  intros H. apply StronglySorted_inv in H as [_ H].
  apply Forall_inv in H. lia.
Qed.

(** C4.  The recording of the fixture has a system case directly under
    the driver iteration ['rank0:SLSQP|0']: its coordinate starts with
    the parent's and has 3 segments, the next length after 2 when the
    coordinates of every table are counted.  [get_cases] on the parent,
    recursively, yields the two solver cases and not the system case;
    the list of lengths it used was built from the solver table alone. *)
Theorem get_cases_skips_system_case :
  system_iterations nested_run = Some [system_row 1 3 root_system]
  /\ Coord.startswith root_system first_iteration = true
  /\ Claimed.segment_count first_iteration = 2
  /\ Claimed.segment_count root_system = 3
  /\ Claimed.coord_lengths_all_categories nested_run = [2; 3; 4; 6]
  /\ _is_case_child first_iteration root_system 3 = true
  /\ coordinates_of (fst (fst cases_of_first_iteration)) (snd cases_of_first_iteration)
     = [Some outer_solver; Some inner_solver]
  /\ categories_of (fst (fst cases_of_first_iteration)) (snd cases_of_first_iteration)
     = [Some solver; Some solver].
Proof. conjuncts; vm_compute; reflexivity. Qed.

(** C1.  In the recording [deep_solver_iter] the solver coordinate
    [deep 128] (258 segments) starts with the solver coordinate
    [deep 127] (256 segments), and 258 is the expected child length
    computed for this parent from the list [2; 256; 258]: the claim
    makes it a direct child.  The call returns no child: the test
    [len(split_coord) is expected_child_length] compares two integer
    objects, which are one object only up to 256.  A level higher the
    same call finds the child. *)
Theorem find_child_cases_misses_deep_child :
  Written.well_formed (deep_pairs 127) = true
  /\ Written.well_formed (deep_pairs 128) = true
  /\ coord_lengths_of deep_solver_iter = [2; 256; 258]
  /\ len (Coord.split (deep 127)) = 256
  /\ list_index 256 (coord_lengths_of deep_solver_iter) = Some 1%nat
  /\ expected_child_length_at 1 (coord_lengths_of deep_solver_iter) = 258
  /\ Coord.startswith (deep 128) (deep 127) = true
  /\ len (Coord.split (deep 128)) = 258
  /\ _is_case_child (deep 127) (deep 128) 258 = false
  /\ _find_child_cases 1 (deep 127) (Coord.split (deep 127)) [] deep_solver_iter false
                       (coord_lengths_of deep_solver_iter)
     = Return []
  /\ _find_child_cases 1 (deep 126) (Coord.split (deep 126)) [] shallower_solver_iter
                       false (coord_lengths_of shallower_solver_iter)
     = Return [(deep 127, "solver")].
Proof. conjuncts; vm_compute; reflexivity. Qed.

(** C2.  With no driver row and the single solver coordinate [deep 128]
    (258 segments), the smallest length present other than the root's
    is 258 and the claim makes the coordinate a child of the root.  The
    call returns no child: the test [len(split_coord) is min_iter_len]
    compares two integer objects, which are one object only up to 256.
    With the single coordinate [deep 127] (256 segments) the same call
    returns it. *)
Theorem find_child_cases_root_misses_deep_layer :
  Written.well_formed (deep_pairs 128) = true
  /\ len (Coord.split (deep 128)) = 258
  /\ coord_lengths_of [(deep 128, 1)] = [2; 258]
  /\ Claimed.smallest_non_root_length [(deep 128, 1)] = Some 258
  /\ Claimed.root_children [] [(deep 128, 1)] = [(deep 128, "solver")]
  /\ _find_child_cases 1 "" [] [] [(deep 128, 1)] false
                       (coord_lengths_of [(deep 128, 1)])
     = Return []
  /\ _find_child_cases 1 "" [] [] [(deep 127, 1)] false
                       (coord_lengths_of [(deep 127, 1)])
     = Return (Claimed.root_children [] [(deep 127, 1)])
  /\ Claimed.root_children [] [(deep 127, 1)] = [(deep 127, "solver")].
Proof. conjuncts; vm_compute; reflexivity. Qed.

(** C3, counterexample.  The recording [final_run] has no system
    iteration and one problem case, named ['final'], a name of one
    segment; the list [get_cases] computes is [2; 4; 6], not the list
    [1; 2; 4; 6] of the segment counts of every category. *)
Lemma coord_lengths_problem_name_counterexample :
  system_iterations final_run = Some []
  /\ problem_cases final_run = Some [problem_row 1 5 "final"]
  /\ Claimed.segment_count "final" = 1
  /\ exists srows,
      solver_iterations final_run = Some srows
      /\ coord_lengths_of (solver_iter_of srows) = [2; 4; 6]
      /\ Claimed.coord_lengths_all_categories final_run = [1; 2; 4; 6]
      /\ coord_lengths_of (solver_iter_of srows)
         <> Claimed.coord_lengths_all_categories final_run.
Proof.
  split; [reflexivity|]. split; [reflexivity|]. split; [vm_compute; reflexivity|].
  eexists. split; [vm_compute; reflexivity|].
  conjuncts; try (vm_compute; reflexivity); vm_compute; discriminate.
Qed.

(** C5, counterexample.  The solver table of the fixture has no row for
    ['rank0:SLSQP|9'], and no problem case is named ['final']: both
    lookups raise [TypeError], not [CaseNotFound]. *)
Lemma get_case_missing_counterexample :
  fst (get_case solver nested_run "rank0:SLSQP|9" (opened nested_run)) = Raise TypeError
  /\ fst (get_case problem nested_run "final" (opened nested_run)) = Raise TypeError
  /\ fst (get_case solver nested_run "rank0:SLSQP|9" (opened nested_run))
     <> Raise CaseNotFound
  /\ fst (get_case problem nested_run "final" (opened nested_run))
     <> Raise CaseNotFound.
Proof.
  conjuncts; try (vm_compute; reflexivity); vm_compute; discriminate.
Qed.

(** *** The general statements at concrete inputs *)

Lemma opened_nested_run_wf : wf nested_run (opened nested_run).
Proof. apply blank_wf. intros []; vm_compute; reflexivity. Defined.

Lemma get_case_no_row_witness :
  wf nested_run (opened nested_run)
  /\ looked_up solver (opened nested_run) "rank0:SLSQP|9" = Return "rank0:SLSQP|9"
  /\ table_keys solver nested_run = Some [inner_solver; outer_solver]
  /\ ~ In "rank0:SLSQP|9" [inner_solver; outer_solver]
  /\ fst (get_case solver nested_run "rank0:SLSQP|9" (opened nested_run))
     = Raise TypeError.
Proof.
  assert (Hl : looked_up solver (opened nested_run) "rank0:SLSQP|9"
               = Return "rank0:SLSQP|9") by (vm_compute; reflexivity).
  assert (Ht : table_keys solver nested_run = Some [inner_solver; outer_solver])
    by (vm_compute; reflexivity).
  assert (Hn : ~ In "rank0:SLSQP|9" [inner_solver; outer_solver]).
  { intros [H|[H|[]]]; discriminate H. }
  split; [exact opened_nested_run_wf|]. split; [exact Hl|].
  split; [exact Ht|]. split; [exact Hn|].
  destruct (get_case_no_row solver nested_run "rank0:SLSQP|9" (opened nested_run)
                            "rank0:SLSQP|9" [inner_solver; outer_solver]
                            opened_nested_run_wf Hl Ht Hn)
    as (r' & Hrun & _).
  rewrite Hrun. reflexivity.
Defined.

Local Abbreviation scaled_request :=
  (DriverCases.get_case nested_run (Name first_iteration) true (opened nested_run)).

Lemma driver_get_case_scaled_copy_witness :
  scaled_request = (Return 1%nat, snd scaled_request)
  /\ heap (snd scaled_request) !! 0%nat
     = Some (DriverCase 4 first_iteration 0 1 "" "in" "out")
  /\ heap (snd scaled_request) !! 1%nat
     = Some (DriverCase 4 first_iteration 0 1 "" "in*" "out*")
  /\ DriverCases.get_case nested_run (Name first_iteration) false (snd scaled_request)
     = (Return 0%nat, snd scaled_request).
Proof.
  assert (H : scaled_request = (Return 1%nat, snd scaled_request))
    by (vm_compute; reflexivity).
  split; [exact H|].
  split; [vm_compute; reflexivity|]. split; [vm_compute; reflexivity|].
  destruct (driver_get_case_scaled_copy nested_run (Name first_iteration)
                                        (opened nested_run) 1%nat
                                        (snd scaled_request) H)
    as (ref & r0 & c & c' & Hplain & _ & _ & _ & _ & _ & _ & _ & Hlater).
  assert (Hplain' : fst (DriverCases.get_case nested_run (Name first_iteration) false
                                              (opened nested_run)) = Return 0%nat)
    by (vm_compute; reflexivity).
  rewrite Hplain in Hplain'. simpl in Hplain'. injection Hplain' as ->.
  exact Hlater.
Defined.

Lemma get_cases_unknown_length_witness :
  root_system <> "problem" /\ root_system <> "driver"
  /\ driver_iterations legacy_run = Some [driver_row 1 1 first_iteration]
  /\ solver_iterations legacy_run = Some []
  /\ ~ In 3 (coord_lengths_of (solver_iter_of []))
  /\ fst (get_cases 1 legacy_run root_system true true (opened legacy_run))
     = ([], Raise ValueError).
Proof.
  assert (H1 : root_system <> "problem") by discriminate.
  assert (H2 : root_system <> "driver") by discriminate.
  assert (H3 : ~ In 3 (coord_lengths_of (solver_iter_of []))).
  { intros H. vm_compute in H. destruct H as [H|[]]. discriminate H. }
  split; [exact H1|]. split; [exact H2|].
  split; [reflexivity|]. split; [reflexivity|]. split; [exact H3|].
  apply (get_cases_unknown_length 0 legacy_run root_system true true
                                  (opened legacy_run)
                                  [driver_row 1 1 first_iteration] [] H1 H2
                                  eq_refl eq_refl H3).
Defined.

End Evaluations.

(** ** The resolver: the entries it returns and the depth of its recursion *)

Section Descent.

Lemma for_each_In {A B : Type} (f : A -> outcome (list B)) (l : list A) ret y :
  for_each f l = Return ret -> In y ret ->
  exists x ys, In x l /\ f x = Return ys /\ In y ys.
Proof.
  revert ret. induction l as [|x l IH]; intros ret H Hy; simpl in H.
  - injection H as <-. contradiction.
  - destruct (f x) as [ys|e|] eqn:Ex; simpl in H; try discriminate.
    destruct (for_each f l) as [zs|e|] eqn:El; simpl in H; try discriminate.
    injection H as <-. apply in_app_or in Hy as [Hy|Hy].
    + exists x, ys. split; [now left|]. split; [exact Ex|exact Hy].
    + destruct (IH zs eq_refl Hy) as (x' & ys' & Hin & Hf & Hy').
      exists x', ys'. split; [now right|]. split; [exact Hf|exact Hy'].
Qed.

Lemma prefix_trans a : forall b c,
  String.prefix a b = true -> String.prefix b c = true -> String.prefix a c = true.
Proof.
  induction a as [|x a IH]; intros b c Hab Hbc; [destruct c; reflexivity|].
  destruct b as [|y b]; [discriminate|]. destruct c as [|z c]; [discriminate|].
  simpl in *.
  destruct (ascii_dec x y) as [->|]; [|discriminate].
  destruct (ascii_dec y z) as [->|]; [|discriminate].
  eapply IH; eassumption.
Qed.

Lemma list_index_Some x l : forall i,
  list_index x l = Some i -> (i < length l)%nat /\ forall d, nth i l d = x.
Proof.
  induction l as [|y l IH]; intros i H; simpl in H; [discriminate|].
  destruct (Z.eqb_spec y x) as [->|_].
  - injection H as <-. split; [simpl; lia|reflexivity].
  - destruct (list_index x l) as [j|]; [|discriminate]. injection H as <-.
    destruct (IH j eq_refl) as [Hj Hn]. split; [simpl; lia|exact Hn].
Qed.

Lemma sorted_nth_lt l d :
  StronglySorted Z.lt l ->
  forall i j, (i < j)%nat -> (j < length l)%nat -> nth i l d < nth j l d.
Proof.
  intros Hs. induction Hs as [|y l Hs IH Hall]; intros i j Hij Hj; simpl in *; [lia|].
  destruct j as [|j]; [lia|]. destruct i as [|i].
  - rewrite List.Forall_forall in Hall. apply Hall. apply nth_In. lia.
  - apply IH; lia.
Qed.

(** X1.  Whatever the parent, the recursion and the lists given, an
    entry of the list [_find_child_cases] returns is either a coordinate
    of [driver_iter] tagged ['driver'] or a coordinate of [solver_iter]
    tagged ['solver']: the routine returns nothing that is not a row
    of one of the two tables, and never another tag. *)
Theorem find_child_cases_entries fuel :
  forall p sp driver_iter solver_iter recursive cl ret,
    _find_child_cases fuel p sp driver_iter solver_iter recursive cl = Return ret ->
    forall c tag,
      In (c, tag) ret ->
      (tag = "driver" /\ In c driver_iter)
      \/ (tag = "solver" /\ exists n, In (c, n) solver_iter).
Proof.
  induction fuel as [|fuel IH];
    intros p sp driver_iter solver_iter recursive cl ret H c tag Hin; [discriminate|].
  assert (Hrec : forall q sq sub,
             (if recursive
              then _find_child_cases fuel q sq driver_iter solver_iter recursive cl
              else Return []) = Return sub ->
             In (c, tag) sub ->
             (tag = "driver" /\ In c driver_iter)
             \/ (tag = "solver" /\ exists n, In (c, n) solver_iter)).
  { intros q sq sub Hs Hi. destruct recursive.
    - eapply IH; eassumption.
    - injection Hs as <-. contradiction. }
  simpl in H.
  destruct (list_index (if Z.eqb (len sp) 0 then 2 else len sp) cl) as [idx|];
    [|discriminate].
  destruct (String.eqb p "").
  - destruct (Z.ltb 0 (len driver_iter)).
    + destruct (for_each_In _ _ _ _ H Hin) as (d & ys & Hd & Hb & Hy).
      destruct (if recursive then _ else _) as [sub|e|] eqn:Es; simpl in Hb;
        try discriminate.
      injection Hb as <-. destruct Hy as [Hy|Hy].
      * injection Hy as <- <-. left. auto.
      * eapply Hrec; eassumption.
    + destruct (Z.ltb 0 (len solver_iter)); [|injection H as <-; contradiction].
      destruct (for_each_In _ _ _ _ H Hin) as (s & ys & Hs & Hb & Hy).
      destruct (is_int (len (Coord.split (fst s))) _);
        [|injection Hb as <-; contradiction].
      destruct (if recursive then _ else _) as [sub|e|] eqn:Es; simpl in Hb;
        try discriminate.
      injection Hb as <-. destruct Hy as [Hy|Hy].
      * injection Hy as <- <-. right. split; [reflexivity|].
        exists (snd s). now destruct s.
      * eapply Hrec; eassumption.
  - destruct (for_each_In _ _ _ _ H Hin) as (s & ys & Hs & Hb & Hy).
    destruct (_is_case_child p (fst s) (expected_child_length_at idx cl));
      [|injection Hb as <-; contradiction].
    destruct (if recursive then _ else _) as [sub|e|] eqn:Es; simpl in Hb;
      try discriminate.
    injection Hb as <-. destruct Hy as [Hy|Hy].
    + injection Hy as <- <-. right. split; [reflexivity|].
      exists (snd s). now destruct s.
    + eapply Hrec; eassumption.
Qed.

Lemma find_child_cases_below cl driver_iter solver_iter recursive :
  StronglySorted Z.lt cl ->
  forall fuel p sp ret,
    p <> "" ->
    _find_child_cases fuel p sp driver_iter solver_iter recursive cl = Return ret ->
    forall c tag,
      In (c, tag) ret ->
      tag = "solver"
      /\ (exists n, In (c, n) solver_iter)
      /\ Coord.startswith c p = true
      /\ (if Z.eqb (len sp) 0 then 2 else len sp) < len (Coord.split c).
Proof.
  intros Hsorted.
  induction fuel as [|fuel IH]; intros p sp ret Hp H c tag Hin; [discriminate|].
  simpl in H.
  destruct (list_index (if Z.eqb (len sp) 0 then 2 else len sp) cl) as [idx|] eqn:Ei;
    [|discriminate].
  destruct (String.eqb_spec p "") as [->|_]; [contradiction|].
  destruct (for_each_In _ _ _ _ H Hin) as (s & ys & Hs & Hb & Hy).
  destruct (_is_case_child p (fst s) (expected_child_length_at idx cl)) eqn:Ec;
    [|injection Hb as <-; contradiction].
  apply is_case_child_spec in Ec as (Hpre & Hl & _).
  pose proof (split_length_pos (fst s)) as Hpos.
  destruct (list_index_Some _ _ _ Ei) as [Hidx Hnth].
  assert (Hlonger : (if Z.eqb (len sp) 0 then 2 else len sp) < len (Coord.split (fst s))).
  { unfold expected_child_length_at in Hl.
    destruct (Z.ltb_spec (Z.of_nat idx) (len cl - 1)) as [Hlt|_]; [|lia].
    unfold len in Hlt. rewrite Hl, <- (Hnth (-1)).
    apply sorted_nth_lt; [exact Hsorted|lia|lia]. }
  assert (Hhead : (fst s, "solver") = (c, tag) ->
                  tag = "solver" /\ (exists n, In (c, n) solver_iter)
                  /\ Coord.startswith c p = true
                  /\ (if Z.eqb (len sp) 0 then 2 else len sp) < len (Coord.split c)).
  { intros Hy'. injection Hy' as <- <-. split; [reflexivity|].
    split; [exists (snd s); now destruct s|]. split; assumption. }
  destruct recursive.
  - destruct (_find_child_cases fuel (fst s) (Coord.split (fst s)) driver_iter
                                solver_iter true cl) as [sub|e|] eqn:Es;
      simpl in Hb; try discriminate.
    injection Hb as <-. destruct Hy as [Hy|Hy]; [now apply Hhead|].
    assert (Hne : fst s <> "") by (eapply startswith_nonempty; eassumption).
    destruct (IH (fst s) (Coord.split (fst s)) sub Hne Es c tag Hy)
      as (Ht & Hn & Hpre' & Hlen').
    split; [exact Ht|]. split; [exact Hn|]. split.
    + unfold Coord.startswith in *. eapply prefix_trans; eassumption.
    + replace (Z.eqb (len (Coord.split (fst s))) 0) with false in Hlen'
        by (symmetry; apply Z.eqb_neq; lia).
      lia.
  - simpl in Hb. injection Hb as <-. destruct Hy as [Hy|[]]. now apply Hhead.
Qed.

(** X2.  Below the root, with a strictly increasing list of lengths (as
    [get_cases] builds it), every entry returned, at any depth of the
    recursion, is a solver coordinate that starts with the parent
    coordinate and has more segments than the parent. *)
Theorem find_child_cases_descendants cl driver_iter solver_iter recursive
        fuel p sp ret c tag :
  StronglySorted Z.lt cl ->
  p <> "" ->
  _find_child_cases fuel p sp driver_iter solver_iter recursive cl = Return ret ->
  In (c, tag) ret ->
  tag = "solver"
  /\ (exists n, In (c, n) solver_iter)
  /\ Coord.startswith c p = true
  /\ (if Z.eqb (len sp) 0 then 2 else len sp) < len (Coord.split c).
Proof.
  intros Hs Hp H Hin.
  exact (find_child_cases_below cl driver_iter solver_iter recursive Hs
           fuel p sp ret Hp H c tag Hin).
Qed.

(** X3.  Below the root, when the parent has one of the lengths of the
    list [get_cases] builds from the solver rows, the call returns,
    recursive or not, and its result is the same for every depth
    allowed to the recursion from the number of lengths on: the
    recursion goes down through strictly longer lengths and so ends. *)
Theorem find_child_cases_below_root_returns driver_iter solver_iter recursive p :
  p <> "" ->
  In (len (Coord.split p)) (coord_lengths_of solver_iter) ->
  exists ret,
    forall fuel,
      (length (coord_lengths_of solver_iter) <= fuel)%nat ->
      _find_child_cases fuel p (Coord.split p) driver_iter solver_iter recursive
                        (coord_lengths_of solver_iter)
      = Return ret.
Proof.
  intros Hp Hin.
  pose proof (split_length_pos p) as Hpos.
  assert (Hz : Z.eqb (len (Coord.split p)) 0 = false) by (apply Z.eqb_neq; lia).
  destruct (list_index_In _ _ Hin) as [idx Hidx].
  assert (Hidx' : list_index (if Z.eqb (len (Coord.split p)) 0 then 2
                              else len (Coord.split p))
                             (coord_lengths_of solver_iter) = Some idx)
    by now rewrite Hz.
  assert (H1 : (1 <= length (coord_lengths_of solver_iter))%nat).
  { destruct (coord_lengths_of solver_iter); [contradiction|simpl; lia]. }
  destruct (find_child_cases_total (coord_lengths_of solver_iter) driver_iter solver_iter
              recursive (coord_lengths_strict solver_iter)
              (length (coord_lengths_of solver_iter)) p (Coord.split p) idx
              Hp Hidx' H1 ltac:(lia)) as [ret Hret].
  exists ret. intros fuel Hfuel.
  rewrite (find_child_cases_fuel _ fuel p (Coord.split p) driver_iter solver_iter
             recursive _ Hfuel); [exact Hret|].
  rewrite Hret. discriminate.
Qed.

Lemma find_child_cases_empty_coordinate_loops cl rest solver_iter :
  In 1 cl -> In 2 cl ->
  forall fuel sp,
    sp = [] \/ sp = [""] ->
    _find_child_cases fuel "" sp ("" :: rest) solver_iter true cl = Diverge.
Proof.
  intros H1 H2. induction fuel as [|fuel IH]; intros sp Hsp; [reflexivity|].
  assert (Hidx : exists idx,
             list_index (if Z.eqb (len sp) 0 then 2 else len sp) cl = Some idx).
  { destruct Hsp as [->| ->]; apply list_index_In; assumption. }
  destruct Hidx as [idx Hidx].
  simpl. rewrite Hidx.
  replace (Z.ltb 0 (len ("" :: rest))) with true
    by (symmetry; apply Z.ltb_lt; unfold len; simpl length; lia).
  simpl for_each.
  replace (Coord.split "") with [""] by reflexivity.
  rewrite (IH [""] (or_intror eq_refl)). reflexivity.
Qed.

(** X4.  A root query with [recursive=True] never ends when the first
    driver coordinate is the empty string and some solver coordinate
    has a single segment: the empty coordinate is taken for the root
    again, so the routine calls itself with the same arguments, and no
    depth of recursion lets it return. *)
Theorem find_child_cases_empty_driver_coordinate rest solver_iter s :
  In s solver_iter -> len (Coord.split (fst s)) = 1 ->
  forall fuel,
    _find_child_cases fuel "" [] ("" :: rest) solver_iter true
                      (coord_lengths_of solver_iter)
    = Diverge.
Proof.
  intros Hs Hl fuel.
  apply find_child_cases_empty_coordinate_loops; [| |now left].
  - apply coord_lengths_In. right. exists s. split; [exact Hs|].
    unfold Claimed.segment_count. now rewrite Hl.
  - apply coord_lengths_In. now left.
Qed.

End Descent.

(** ** Splitting the coordinates the recorders write *)

Section WrittenCoordinates.

Import Written.

Local Abbreviation split_whole cur s :=
  (Coord.split_from (S (String.length s)) cur s).

Lemma string_app_cons x (a b : string) : (String x a ++ b = String x (a ++ b))%string.
Proof. reflexivity. Qed.

Lemma string_app_assoc (a b c : string) : ((a ++ b) ++ c = a ++ (b ++ c))%string.
Proof.
  induction a as [|x a IH]; [reflexivity|].
  rewrite !string_app_cons. now rewrite IH.
Qed.

Lemma string_app_nil (a : string) : (a ++ "" = a)%string.
Proof.
  induction a as [|x a IH]; [reflexivity|].
  rewrite string_app_cons. now rewrite IH.
Qed.

Lemma split_from_S n cur s :
  Coord.split_from (S n) cur s
  = match Coord.match_here s with
    | Some rest => cur :: Coord.split_from n "" rest
    | None =>
        match s with
        | EmptyString => [cur]
        | String c r => Coord.split_from n (cur ++ String c "")%string r
        end
    end.
Proof. reflexivity. Qed.

Lemma split_whole_match cur s rest :
  Coord.match_here s = Some rest ->
  split_whole cur s = cur :: split_whole "" rest.
Proof.
  intros H. rewrite (split_from_S (String.length s) cur s), H. f_equal.
  pose proof (match_here_shorter _ _ H).
  apply split_from_fuel; lia.
Qed.

Lemma match_here_not_pipe c r :
  Coord.is_pipe c = false -> Coord.match_here (String c r) = None.
Proof. intros H. destruct r; simpl; [reflexivity|]. now rewrite H. Qed.

Lemma split_whole_name name : forall cur s,
  all_chars (fun c => negb (Coord.is_pipe c)) name = true ->
  split_whole cur (name ++ s)%string = split_whole (cur ++ name)%string s.
Proof.
  induction name as [|c name IH]; intros cur s H.
  - rewrite string_app_nil. reflexivity.
  - simpl in H. apply andb_prop in H as [Hc Hn].
    apply negb_true_iff in Hc.
    rewrite string_app_cons.
    rewrite (split_from_S _ cur), (match_here_not_pipe _ _ Hc).
    cbn [String.length].
    rewrite IH by exact Hn.
    rewrite string_app_assoc. reflexivity.
Qed.

Lemma skip_digits number : forall s,
  all_chars Coord.is_digit number = true ->
  Coord.skip_while Coord.is_digit s = s ->
  Coord.skip_while Coord.is_digit (number ++ s)%string = s.
Proof.
  induction number as [|c number IH]; intros s H Hs; [exact Hs|].
  simpl in H. apply andb_prop in H as [Hc Hn].
  rewrite string_app_cons. simpl. rewrite Hc. now apply IH.
Qed.

Lemma match_here_number d number s :
  Coord.is_digit d = true -> all_chars Coord.is_digit number = true ->
  Coord.skip_while Coord.is_digit s = s ->
  Coord.match_here ("|" ++ String d number ++ s)%string
  = Some (Coord.skip_while Coord.is_pipe s).
Proof.
  intros Hd Hn Hs.
  change ("|" ++ String d number ++ s)%string
    with (String "|" (String d (number ++ s)%string)).
  simpl. rewrite Hd. simpl. now rewrite skip_digits.
Qed.

Lemma coordinate_of_head pairs :
  pairs <> [] -> well_formed pairs = true ->
  exists c r, coordinate_of pairs = String c r /\ Coord.is_pipe c = false.
Proof.
  destruct pairs as [|[name number] rest]; intros Hne H; [contradiction|].
  simpl in H. apply andb_prop in H as [H _]. apply andb_prop in H as [Hname _].
  unfold is_name in Hname. apply andb_prop in Hname as [Hn Hall].
  destruct name as [|c name]; [discriminate|].
  simpl in Hall. apply andb_prop in Hall as [Hc _]. apply negb_true_iff in Hc.
  destruct rest; simpl coordinate_of; rewrite string_app_cons; eauto.
Qed.

Lemma split_written pairs :
  pairs <> [] -> well_formed pairs = true ->
  Coord.split (coordinate_of pairs) = map fst pairs ++ [""].
Proof.
  unfold Coord.split.
  induction pairs as [|[name number] rest IH]; intros Hne Hwf; [contradiction|].
  simpl in Hwf. apply andb_prop in Hwf as [Hhead Hrest].
  apply andb_prop in Hhead as [Hname Hnumber].
  unfold is_name in Hname. apply andb_prop in Hname as [_ Hname].
  unfold is_number in Hnumber. apply andb_prop in Hnumber as [Hn0 Hdigits].
  destruct number as [|d number]; [discriminate|].
  simpl in Hdigits. apply andb_prop in Hdigits as [Hd Hdigits].
  destruct rest as [|p rest].
  - replace (coordinate_of [(name, String d number)])
      with (name ++ "|" ++ String d number ++ "")%string
      by (now rewrite string_app_nil).
    rewrite split_whole_name by exact Hname.
    rewrite (split_whole_match _ _ "").
    + reflexivity.
    + now rewrite match_here_number.
  - destruct (coordinate_of_head (p :: rest)) as (c & r & Hc & Hpipe);
      [discriminate|exact Hrest|].
    change (coordinate_of ((name, String d number) :: p :: rest))
      with (name ++ "|" ++ String d number ++ "|" ++ coordinate_of (p :: rest))%string.
    rewrite split_whole_name by exact Hname.
    rewrite (split_whole_match _ _ (coordinate_of (p :: rest))).
    + simpl map. simpl app. f_equal. apply IH; [discriminate|exact Hrest].
    + rewrite match_here_number; [|exact Hd|exact Hdigits|reflexivity].
      f_equal. rewrite Hc.
      change ("|" ++ String c r)%string with (String "|" (String c r)).
      simpl. now rewrite Hpipe.
Qed.

(** X5.  A coordinate written as identifiers and iteration numbers in
    turn splits into its identifiers followed by one empty segment: the
    numbers and the pipes are dropped, and a coordinate of [k]
    identifier-number pairs has [k + 1] segments (2 for a driver
    iteration, the base length of [get_cases]). *)
Theorem split_written_coordinate pairs :
  pairs <> [] -> well_formed pairs = true ->
  Coord.split (coordinate_of pairs) = map fst pairs ++ [""]
  /\ len (Coord.split (coordinate_of pairs)) = len pairs + 1.
Proof.
  intros Hne Hwf. pose proof (split_written pairs Hne Hwf) as H.
  split; [exact H|].
  rewrite H. unfold len. rewrite length_app, length_map. simpl. lia.
Qed.

(** X15.  The key [_get_all_sysvars] files a system coordinate under
    does not depend on the iteration numbers: two written coordinates
    with the same identifiers get the same key, so that the iterations
    of one system share one entry of [coord_map]. *)
Theorem iter_key_ignores_numbers pairs pairs' :
  pairs <> [] ->
  well_formed pairs = true -> well_formed pairs' = true ->
  map fst pairs = map fst pairs' ->
  Listing.iter_key (coordinate_of pairs) = Listing.iter_key (coordinate_of pairs')
  /\ Listing.iter_key (coordinate_of pairs) = Listing.join ":" (map fst pairs ++ [""]).
Proof.
  intros Hne Hwf Hwf' Hnames.
  assert (Hne' : pairs' <> []).
  { intros ->. destruct pairs; [contradiction|discriminate]. }
  unfold Listing.iter_key.
  rewrite (split_written pairs Hne Hwf), (split_written pairs' Hne' Hwf'), Hnames.
  split; reflexivity.
Qed.

End WrittenCoordinates.

(** ** The lengths [get_cases] works with *)

Section Lengths.
Context `{D : Data} `{X : !Externals}.

Import CategoryStore SqliteCaseReader Written.

(** C3, as amended.  The list of lengths [get_cases] hands to the
    child-finding routine is strictly increasing (sorted, without
    repetition).  It holds the base length 2, which is the segment count
    of every driver or driver-derivative coordinate as written, and the
    segment count of every coordinate of the solver table.  It holds
    nothing else but segment counts of coordinates of the solver and
    system tables: the names of the problem cases do not contribute. *)
Theorem coord_lengths_from_solver_rows db (srows : list (row solver_cols)) :
  solver_iterations db = Some srows ->
  let coord_lengths := coord_lengths_of (solver_iter_of srows) in
  StronglySorted Z.lt coord_lengths
  /\ In 2 coord_lengths
  /\ (forall name number,
        well_formed [(name, number)] = true ->
        Claimed.segment_count (coordinate_of [(name, number)]) = 2)
  /\ (forall keys c,
        table_keys solver db = Some keys -> In c keys ->
        In (Claimed.segment_count c) coord_lengths)
  /\ (forall n,
        In n coord_lengths ->
        n = 2
        \/ exists k keys c,
            (k = solver \/ k = system)
            /\ table_keys k db = Some keys
            /\ In c keys
            /\ n = Claimed.segment_count c).
Proof.
  intros Hs coord_lengths.
  split; [apply coord_lengths_strict|].
  split; [apply coord_lengths_In; now left|].
  split.
  { intros name number Hwf. unfold Claimed.segment_count.
    rewrite (split_written [(name, number)]); [reflexivity|discriminate|exact Hwf]. }
  split.
  - intros keys c Hk Hin. simpl in Hk. rewrite Hs in Hk. injection Hk as <-.
    apply in_map_iff in Hin as (rw & <- & Hin).
    apply coord_lengths_In. right.
    exists (iteration_coordinate rw, counter rw). split; [|reflexivity].
    apply solver_iter_of_In. now exists rw.
  - intros n Hn. apply coord_lengths_In in Hn as [->|(s & Hin & ->)]; [now left|].
    right. apply solver_iter_of_In in Hin as (rw & Hin & ->).
    exists solver, (map iteration_coordinate srows), (iteration_coordinate rw).
    split; [now left|]. split; [simpl; now rewrite Hs|].
    split; [now apply in_map|reflexivity].
Qed.

End Lengths.

(** ** The variables of the recorded systems *)

Section ListingFacts.
Context `{D : Data} `{X : !Externals} `{V : !CaseViews}.

Import CategoryStore Listing.

Lemma has_all_values_spec (coord_map : gmap string bool) :
  _has_all_values coord_map = true
  <-> forall key b, coord_map !! key = Some b -> b = true.
Proof.
  unfold _has_all_values. rewrite forallb_forall. split.
  - intros H key b Hk.
    apply (H (key, b)). apply list_elem_of_In. now apply elem_of_map_to_list.
  - intros H [key b] Hin. apply list_elem_of_In, elem_of_map_to_list in Hin.
    simpl. eapply H. exact Hin.
Qed.

Lemma coord_map_fold coords : forall (acc : gmap string bool) key,
  fold_left (fun coord_map c => <[iter_key c := false]> coord_map) coords acc !! key
  = if existsb (String.eqb key) (map iter_key coords) then Some false else acc !! key.
Proof.
  induction coords as [|c coords IH]; intros acc key; simpl; [reflexivity|].
  rewrite IH.
  destruct (existsb (String.eqb key) (map iter_key coords)).
  - now rewrite orb_true_r.
  - rewrite orb_false_r. destruct (String.eqb_spec key (iter_key c)) as [->|Hne].
    + now rewrite lookup_insert_eq.
    + rewrite lookup_insert_ne; [reflexivity|congruence].
Qed.

Lemma coord_map_of_lookup coords key :
  coord_map_of coords !! key
  = if existsb (String.eqb key) (map iter_key coords) then Some false else None.
Proof. unfold coord_map_of. now rewrite coord_map_fold, lookup_empty. Qed.

Lemma existsb_iter_key key coords :
  existsb (String.eqb key) (map iter_key coords) = true
  <-> exists c, In c coords /\ iter_key c = key.
Proof.
  rewrite existsb_exists. split.
  - intros (k & Hin & Hk). apply in_map_iff in Hin as (c & <- & Hc).
    apply String.eqb_eq in Hk. eauto.
  - intros (c & Hc & <-). exists (iter_key c). split; [now apply in_map|].
    apply String.eqb_refl.
Qed.

Lemma list_getitem_from_end (pre post : list string) c :
  list_getitem (pre ++ c :: post) (- len post - 1) = Some c.
Proof.
  unfold list_getitem, len.
  replace (Z.ltb (- Z.of_nat (length post) - 1) 0) with true
    by (symmetry; apply Z.ltb_lt; lia).
  rewrite length_app. simpl length.
  replace (Z.of_nat (length pre + S (length post)) + (- Z.of_nat (length post) - 1))
    with (Z.of_nat (length pre)) by lia.
  replace (Z.ltb (Z.of_nat (length pre)) 0) with false
    by (symmetry; apply Z.ltb_ge; lia).
  rewrite Nat2Z.id. rewrite nth_error_app2 by lia.
  now rewrite Nat.sub_diag.
Qed.

Lemma first_of_each_seen seen l :
  (forall c, In c l -> existsb (String.eqb (iter_key c)) seen = true) ->
  first_of_each seen l = [].
Proof.
  induction l as [|c l IH]; intros H; simpl; [reflexivity|].
  rewrite (H c (or_introl eq_refl)). apply IH. intros c' Hc'. apply H. now right.
Qed.

(** A returning [grab] leaves the coordinates of the system store as
    they are. *)
Lemma grab_keys db get_outputs vars iteration r vars' r1 :
  grab db get_outputs vars iteration r = (Return vars', r1) ->
  _case_keys (system_cases r1) = _case_keys (system_cases r).
Proof.
  unfold grab. intros H.
  apply mbind_Return_inv in H as (ref & r2 & Hget & H).
  apply system_get_case_fetched in Hget as (c & _ & Hf).
  apply fetched_cached in Hf as [_ Hkeys]. simpl in Hkeys.
  apply mbind_Return_inv in H as (obj & r3 & Hd & H).
  assert (r3 = r2) as ->.
  { unfold deref in Hd. destruct (heap r2 !! ref); congruence. }
  assert (r1 = r2) as ->; [|exact Hkeys].
  destruct obj; try discriminate H.
  unfold ret, lift in H.
  repeat match type of H with
         | (if ?b then _ else _) _ = _ => destruct b
         end; congruence.
Qed.

Lemma sysvars_loop_S fuel db get_outputs coord_map vars iteration_num :
  sysvars_loop (S fuel) db get_outputs coord_map vars iteration_num
  = if _has_all_values coord_map then ret vars
    else
      let* self := get_reader in
      match list_getitem (_case_keys (system_cases self)) iteration_num with
      | None => raise IndexError
      | Some iteration =>
          match coord_map !! iter_key iteration with
          | None => raise KeyError
          | Some false =>
              let* vars := grab db get_outputs vars iteration in
              sysvars_loop fuel db get_outputs (<[iter_key iteration := true]> coord_map)
                           vars (iteration_num - 1)
          | Some true =>
              sysvars_loop fuel db get_outputs coord_map vars (iteration_num - 1)
          end
      end.
Proof. reflexivity. Qed.

(** The loop seen from a round on: [post] holds the coordinates already
    passed, [pre] those still to come, and [seen] the systems marked in
    [coord_map]. *)
Lemma sysvars_loop_run db get_outputs pre :
  forall post coord_map seen vars fuel r,
    _case_keys (system_cases r) = pre ++ post ->
    (length pre < fuel)%nat ->
    (forall c, In c pre ->
               coord_map !! iter_key c
               = Some (existsb (String.eqb (iter_key c)) seen)) ->
    (forall key, coord_map !! key = Some false ->
                 exists c, In c pre /\ iter_key c = key) ->
    sysvars_loop fuel db get_outputs coord_map vars (- len post - 1) r
    = grab_all db get_outputs vars (first_of_each seen (rev pre)) r.
Proof.
  induction pre as [|c pre IH] using rev_ind;
    intros post coord_map seen vars fuel r Hkeys Hfuel Hseen Hfalse;
    (destruct fuel as [|fuel]; [simpl in Hfuel; lia|]);
    rewrite sysvars_loop_S.
  - replace (_has_all_values coord_map) with true; [reflexivity|].
    symmetry. apply has_all_values_spec. intros key [|] Hk; [reflexivity|].
    destruct (Hfalse key Hk) as (c & [] & _).
  - rewrite rev_app_distr. simpl rev. simpl app.
    destruct (_has_all_values coord_map) eqn:Hall.
    + rewrite first_of_each_seen; [reflexivity|].
      intros c' Hc'.
      assert (Hin : In c' (pre ++ [c])).
      { apply in_or_app. destruct Hc' as [<-|Hc']; [right; now left|].
        left. now apply in_rev. }
      pose proof (Hseen c' Hin) as Hl.
      rewrite has_all_values_spec in Hall. exact (Hall _ _ Hl).
    + rewrite (mbind_return get_reader _ r r r eq_refl).
      rewrite Hkeys, <- app_assoc.
      change (pre ++ [c] ++ post) with (pre ++ c :: post).
      rewrite list_getitem_from_end.
      rewrite (Hseen c) by (apply in_or_app; right; now left).
      assert (Hlen : length (pre ++ [c]) = S (length pre))
        by (rewrite length_app; simpl; lia).
      assert (Hkeys' : forall r1, _case_keys (system_cases r1)
                                  = _case_keys (system_cases r) ->
                                  _case_keys (system_cases r1) = pre ++ c :: post).
      { intros r1 ->. rewrite Hkeys, <- app_assoc. reflexivity. }
      assert (Hnum : - len post - 1 - 1 = - len (c :: post) - 1).
      { unfold len. simpl length. lia. }
      simpl first_of_each.
      destruct (existsb (String.eqb (iter_key c)) seen) eqn:Ec.
      * rewrite Hnum. apply IH.
        -- now apply Hkeys'.
        -- lia.
        -- intros c' Hc'. apply Hseen. apply in_or_app. now left.
        -- intros key Hk. destruct (Hfalse key Hk) as (c' & Hc' & Hkey).
           apply in_app_or in Hc' as [Hc'|[<-|[]]]; [eauto|].
           rewrite <- Hkey, (Hseen c), Ec in Hk by (apply in_or_app; right; now left).
           discriminate.
      * simpl grab_all. apply mbind_ext; [reflexivity|].
        intros vars' r1 Hg. rewrite Hnum. apply IH.
        -- apply Hkeys'. eapply grab_keys. exact Hg.
        -- lia.
        -- intros c' Hc'. simpl existsb.
           destruct (String.eqb_spec (iter_key c') (iter_key c)) as [->|Hne].
           ++ now rewrite lookup_insert_eq.
           ++ rewrite lookup_insert_ne by congruence.
              rewrite (Hseen c') by (apply in_or_app; now left).
              reflexivity.
        -- intros key Hk.
           destruct (String.eqb_spec key (iter_key c)) as [->|Hne].
           ++ rewrite lookup_insert_eq in Hk. discriminate.
           ++ rewrite lookup_insert_ne in Hk by congruence.
              destruct (Hfalse key Hk) as (c' & Hc' & Hkey).
              apply in_app_or in Hc' as [Hc'|[<-|[]]]; [eauto|].
              congruence.
Qed.

(** The loop started by [_get_all_sysvars]. *)
Lemma sysvars_loop_from_start fuel db get_outputs r :
  (length (_case_keys (system_cases r)) < fuel)%nat ->
  sysvars_loop fuel db get_outputs (coord_map_of (_case_keys (system_cases r))) [] (-1) r
  = grab_all db get_outputs [] (latest_of_each_system (_case_keys (system_cases r))) r.
Proof.
  intros Hfuel.
  apply (sysvars_loop_run db get_outputs (_case_keys (system_cases r)) [] _ []).
  - now rewrite app_nil_r.
  - exact Hfuel.
  - intros c Hc. rewrite coord_map_of_lookup.
    replace (existsb (String.eqb (iter_key c))
                     (map iter_key (_case_keys (system_cases r)))) with true;
      [reflexivity|].
    symmetry. apply existsb_iter_key. eauto.
  - intros key Hk. rewrite coord_map_of_lookup in Hk.
    destruct (existsb (String.eqb key) (map iter_key (_case_keys (system_cases r))))
      eqn:E; [|discriminate].
    now apply existsb_iter_key.
Qed.

Lemma coord_map_size coords :
  coords <> [] -> Z.eqb (Z.of_nat (size (coord_map_of coords))) 0 = false.
Proof.
  intros Hne. apply Z.eqb_neq. intros Hsize.
  destruct coords as [|c keys]; [contradiction|].
  assert (Hs : size (coord_map_of (c :: keys)) = 0%nat) by lia.
  apply map_size_empty_iff in Hs.
  pose proof (coord_map_of_lookup (c :: keys) (iter_key c)) as Hl.
  rewrite Hs, lookup_empty in Hl. simpl in Hl.
  rewrite String.eqb_refl in Hl. discriminate.
Qed.

(** X6.  With at least one system coordinate, [_get_all_sysvars] reads
    exactly one case for every system, the one of its last recorded
    iteration, going through the coordinates from the last to the
    first, and returns the variables gathered in that order.  The
    [while] loop ends after at most as many rounds as there are
    coordinates: it never indexes [_case_keys] before its first entry
    and never looks up a key that [coord_map] lacks. *)
Theorem get_all_sysvars_reads_latest fuel db get_outputs r :
  _case_keys (system_cases r) <> [] ->
  (length (_case_keys (system_cases r)) < fuel)%nat ->
  _get_all_sysvars fuel db get_outputs r
  = (let* vars := grab_all db get_outputs []
                           (latest_of_each_system (_case_keys (system_cases r))) in
     ret (Some vars)) r.
Proof.
  intros Hne Hfuel. unfold _get_all_sysvars.
  rewrite (mbind_return get_reader _ r r r eq_refl).
  rewrite (coord_map_size _ Hne).
  apply mbind_ext; [|reflexivity].
  now apply sysvars_loop_from_start.
Qed.

(** X7.  [_get_all_sysvars] returns [None] exactly when the system store
    has no coordinate; it then reads nothing and leaves the reader as
    it was. *)
Theorem get_all_sysvars_none fuel db get_outputs r :
  (fst (_get_all_sysvars fuel db get_outputs r) = Return None
   <-> _case_keys (system_cases r) = [])
  /\ (fst (_get_all_sysvars fuel db get_outputs r) = Return None ->
      snd (_get_all_sysvars fuel db get_outputs r) = r).
Proof.
  assert (Hnone : _case_keys (system_cases r) = [] ->
                  _get_all_sysvars fuel db get_outputs r = (Return None, r)).
  { intros Hk. unfold _get_all_sysvars.
    rewrite (mbind_return get_reader _ r r r eq_refl), Hk. reflexivity. }
  assert (Hsome : fst (_get_all_sysvars fuel db get_outputs r) = Return None ->
                  _case_keys (system_cases r) = []).
  { intros H. destruct (_case_keys (system_cases r)) as [|c keys] eqn:Ek; [reflexivity|].
    exfalso. revert H. unfold _get_all_sysvars.
    rewrite (mbind_return get_reader _ r r r eq_refl), Ek.
    rewrite coord_map_size by discriminate.
    unfold mbind.
    destruct (sysvars_loop fuel db get_outputs _ [] (-1) r) as [[vars|e|] r1];
      simpl; discriminate. }
  split; [split; [exact Hsome|]|].
  - intros Hk. now rewrite (Hnone Hk).
  - intros H. now rewrite (Hnone (Hsome H)).
Qed.

Lemma extends_refl r : Invariant.extends r r.
Proof. split; [exists []; now rewrite app_nil_r|]. split; auto. Qed.

Lemma extends_trans r1 r2 r3 :
  Invariant.extends r1 r2 -> Invariant.extends r2 r3 -> Invariant.extends r1 r3.
Proof.
  intros ([e1 H1] & H2 & H3) ([e2 H4] & H5 & H6).
  split; [exists (e1 ++ e2); now rewrite H4, H1, app_assoc|].
  split; [auto|congruence].
Qed.

(** The lines of [grab] after the case has been fetched read the case
    and nothing of the reader. *)
Lemma grab_tail get_outputs vars (c : case) r o r1 :
  match c with
  | SystemCase _ _ _ _ _ inputs outputs resids =>
      if (get_outputs && is_None outputs)%bool then ret vars
      else if (negb get_outputs && is_None inputs)%bool then ret vars
      else if get_outputs
      then lift (names <- absolute_names outputs ;;
                 for_fold (add_output outputs resids) names vars)
      else if negb (is_None inputs)
      then lift (names <- absolute_names inputs ;;
                 for_fold (add_input inputs) names vars)
      else ret vars
  | _ => raise (ExternalError "AttributeError")
  end r = (o, r1) ->
  r1 = r
  /\ forall r2,
      match c with
      | SystemCase _ _ _ _ _ inputs outputs resids =>
          if (get_outputs && is_None outputs)%bool then ret vars
          else if (negb get_outputs && is_None inputs)%bool then ret vars
          else if get_outputs
          then lift (names <- absolute_names outputs ;;
                     for_fold (add_output outputs resids) names vars)
          else if negb (is_None inputs)
          then lift (names <- absolute_names inputs ;;
                     for_fold (add_input inputs) names vars)
          else ret vars
      | _ => raise (ExternalError "AttributeError")
      end r2 = (o, r2).
Proof.
  unfold ret, lift, raise.
  destruct c; try (intros [= <- <-]; split; reflexivity).
  repeat match goal with
         | |- context [if ?b then _ else _] => destruct b
         end; intros [= <- <-]; split; reflexivity.
Qed.

(** A returning [grab] only adds to the reader, and run again on a
    reader that has kept what it added it returns the same variables
    from the cache, leaving the reader as it is. *)
Lemma grab_again db get_outputs vars iteration r vars' r1 :
  grab db get_outputs vars iteration r = (Return vars', r1) ->
  Invariant.extends r r1
  /\ forall r2, Invariant.extends r1 r2 ->
                grab db get_outputs vars iteration r2 = (Return vars', r2).
Proof.
  unfold grab. intros H.
  apply mbind_Return_inv in H as (ref & ra & Hget & H).
  apply system_get_case_fetched in Hget as (c & Hc & Hf).
  apply mbind_Return_inv in H as (obj & rb & Hd & H).
  assert (rb = ra /\ heap ra !! ref = Some obj) as [-> Hobj].
  { unfold deref in Hd. destruct (heap ra !! ref); [|discriminate].
    injection Hd as <- <-. auto. }
  apply grab_tail in H as [-> Htail].
  pose proof (fetched_cached _ _ _ _ _ _ Hf) as [Hcached Hkeys].
  pose proof (fetched_heap _ _ _ _ _ _ Hf) as Hheap.
  simpl in Hcached, Hkeys.
  assert (Hext : Invariant.extends r ra).
  { split; [exact Hheap|]. split; [|exact Hkeys].
    intros key ref0 Hk.
    destruct Hf as [[_ ->]|(Hmiss & _ & _ & _ & Hcache & _)]; [exact Hk|].
    simpl in Hmiss, Hcache. rewrite Hcache.
    rewrite lookup_insert_ne; [exact Hk|]. intros <-. congruence. }
  split; [exact Hext|].
  intros r2 ([ext Hh2] & Hc2 & Hk2).
  assert (Hhit : SystemCases.get_case db (Name iteration) r2 = (Return ref, r2)).
  { apply (get_case_hit system db iteration r2 c ref).
    - simpl. rewrite Hk2, Hkeys. exact Hc.
    - simpl. now apply Hc2. }
  rewrite (mbind_return _ _ _ _ _ Hhit).
  assert (Hd2 : deref ref r2 = (Return obj, r2)).
  { unfold deref. rewrite Hh2, (lookup_app_l_Some _ _ _ _ Hobj). reflexivity. }
  rewrite (mbind_return _ _ _ _ _ Hd2). apply Htail.
Qed.

Lemma grab_all_again db get_outputs l :
  forall vars r vars' r1,
    grab_all db get_outputs vars l r = (Return vars', r1) ->
    Invariant.extends r r1
    /\ forall r2, Invariant.extends r1 r2 ->
                  grab_all db get_outputs vars l r2 = (Return vars', r2).
Proof.
  induction l as [|c l IH]; intros vars r vars' r1 H; simpl in H.
  - injection H as <- <-. split; [apply extends_refl|reflexivity].
  - apply mbind_Return_inv in H as (v1 & ra & Hg & H).
    apply grab_again in Hg as [He1 Hagain].
    apply IH in H as [He2 Hrest].
    split; [eapply extends_trans; eassumption|].
    intros r2 He3. simpl.
    rewrite (mbind_return _ _ _ _ _ (Hagain r2 (extends_trans _ _ _ He2 He3))).
    now apply Hrest.
Qed.

(** X22.  After [_get_all_sysvars] has returned, the same call returns
    the same result and leaves the reader as it is: every case it
    needs is in the cache of the system store, so that no statement is
    executed and nothing is decoded the second time. *)
Theorem get_all_sysvars_again fuel db get_outputs r result r1 :
  (length (_case_keys (system_cases r)) < fuel)%nat ->
  _get_all_sysvars fuel db get_outputs r = (Return result, r1) ->
  _get_all_sysvars fuel db get_outputs r1 = (Return result, r1).
Proof.
  intros Hfuel H.
  destruct (_case_keys (system_cases r)) as [|c keys] eqn:Ek.
  - unfold _get_all_sysvars in H.
    rewrite (mbind_return get_reader _ r r r eq_refl), Ek in H.
    injection H as <- <-.
    unfold _get_all_sysvars.
    rewrite (mbind_return get_reader _ r r r eq_refl), Ek. reflexivity.
  - rewrite <- Ek in Hfuel.
    assert (Hsize : Z.eqb (Z.of_nat (size (coord_map_of (_case_keys (system_cases r))))) 0
                    = false)
      by (apply coord_map_size; rewrite Ek; discriminate).
    unfold _get_all_sysvars in H.
    rewrite (mbind_return get_reader _ r r r eq_refl), Hsize in H.
    apply mbind_Return_inv in H as (vars & ra & Hg & H).
    injection H as <- <-.
    rewrite sysvars_loop_from_start in Hg by exact Hfuel.
    apply grab_all_again in Hg as [(_ & _ & Hkeys) Hagain].
    assert (Hsize' : Z.eqb (Z.of_nat (size (coord_map_of (_case_keys (system_cases ra)))))
                           0 = false) by (rewrite Hkeys; exact Hsize).
    unfold _get_all_sysvars.
    rewrite (mbind_return get_reader _ ra ra ra eq_refl), Hsize'.
    rewrite (mbind_ext _ (grab_all db get_outputs []
                                   (latest_of_each_system (_case_keys (system_cases ra))))
                       _ (fun vars => ret (Some vars)) ra
                       (sysvars_loop_from_start fuel db get_outputs ra
                          ltac:(rewrite Hkeys; exact Hfuel))
                       (fun _ _ _ => eq_refl)).
    rewrite Hkeys.
    rewrite (mbind_return _ _ _ _ _ (Hagain ra (extends_refl ra))). reflexivity.
Qed.

End ListingFacts.

(** ** What the reader keeps *)

Section Preservation.
Context `{D : Data}.

Import Invariant.

Variable R : reader -> reader -> Prop.
Hypothesis R_refl : forall r, R r r.
Hypothesis R_trans : forall r1 r2 r3, R r1 r2 -> R r2 r3 -> R r1 r3.

Lemma preserves_ret {A : Type} (a : A) : preserves R (ret a).
Proof. intros r o r1 [= <- <-]. apply R_refl. Qed.

Lemma preserves_raise {A : Type} (e : exn) : preserves R (@raise _ A e).
Proof. intros r o r1 [= <- <-]. apply R_refl. Qed.

Lemma preserves_lift {A : Type} (o : outcome A) : preserves R (lift o).
Proof. intros r o' r1 [= <- <-]. apply R_refl. Qed.

Lemma preserves_get : preserves R get_reader.
Proof. intros r o r1 [= <- <-]. apply R_refl. Qed.

Lemma preserves_deref ref : preserves R (deref ref).
Proof.
  intros r o r1. unfold deref. destruct (heap r !! ref); intros [= <- <-]; apply R_refl.
Qed.

Lemma preserves_bind {A B : Type} (m : M A) (k : A -> M B) :
  preserves R m -> (forall a, preserves R (k a)) -> preserves R (mbind m k).
Proof.
  intros Hm Hk r o r1. unfold mbind.
  destruct (m r) as [[a|e|] r2] eqn:E; pose proof (Hm _ _ _ E) as H1.
  - intros H2. apply Hk in H2. eapply R_trans; eassumption.
  - intros [= <- <-]. exact H1.
  - intros [= <- <-]. exact H1.
Qed.

Lemma preserves_modify (f : reader -> reader) :
  (forall r, R r (f r)) -> preserves R (modify f).
Proof. intros H r o r1 [= <- <-]. apply H. Qed.

Lemma preserves_execute {A : Type} (table : option (list A)) :
  (forall r d q, R r (with_counts d q r)) -> preserves R (execute table).
Proof. intros H r o r1. unfold execute. destruct table; intros [= <- <-]; apply H. Qed.

Lemma preserves_decode f text :
  (forall r d q, R r (with_counts d q r)) -> preserves R (decode f text).
Proof. intros H r o r1 [= <- <-]. apply H. Qed.

Lemma preserves_alloc c :
  (forall r h, R r (with_heap h r)) -> preserves R (alloc c).
Proof. intros H r o r1 [= <- <-]. apply H. Qed.

Lemma preserves_each {A : Type} (body : A -> M unit) l :
  (forall x, preserves R (body x)) -> preserves R (each body l).
Proof.
  intros H. induction l as [|x l IH]; simpl.
  - apply preserves_ret.
  - apply preserves_bind; [apply H|intros _; exact IH].
Qed.

Lemma preserves_try_except (m handler : M unit) :
  preserves R m -> preserves R handler ->
  preserves R (SqliteCaseReader.try_except_operational m handler).
Proof.
  intros Hm Hh r o r1. unfold SqliteCaseReader.try_except_operational.
  destruct (m r) as [[a|e|] r2] eqn:E; pose proof (Hm _ _ _ E) as H1;
    try (intros [= <- <-]; exact H1).
  destruct e; try (intros [= <- <-]; exact H1).
  intros H2. apply Hh in H2. eapply R_trans; eassumption.
Qed.

End Preservation.

Section Kept.
Context `{D : Data} `{X : !Externals}.

Import CategoryStore SqliteCaseReader Invariant.

Lemma untouched_refl r : untouched r r.
Proof. split; [reflexivity|]. split; [reflexivity|auto]. Qed.

Lemma untouched_trans r1 r2 r3 : untouched r1 r2 -> untouched r2 r3 -> untouched r1 r3.
Proof.
  intros (H1 & H2 & H3) (H4 & H5 & H6).
  split; [congruence|]. split; [congruence|auto].
Qed.

Lemma untouched_execute {A : Type} (table : option (list A)) :
  preserves untouched (execute table).
Proof.
  intros r o r1. unfold execute.
  destruct table; intros [= <- <-];
    (split; [reflexivity|]; split; [reflexivity|]; intros Hb k; specialize (Hb k); destruct k; exact Hb).
Qed.

Lemma untouched_with_store k st r :
  _cases st = ∅ \/ _cases st = _cases (store_of k r) ->
  untouched r (with_store k st r).
Proof.
  intros Hst. split; [destruct k; reflexivity|]. split; [destruct k; reflexivity|].
  intros Hb k'. destruct (decide (k' = k)) as [->|Hne].
  - rewrite store_of_with_store. destruct Hst as [->| ->]; [reflexivity|apply Hb].
  - rewrite store_of_with_store_ne by exact Hne. apply Hb.
Qed.

Lemma untouched_with_metadata dm sm vm r : untouched r (with_metadata dm sm vm r).
Proof.
  split; [reflexivity|]. split; [reflexivity|]. intros Hb k; specialize (Hb k); destruct k; exact Hb.
Qed.

Ltac untouched :=
  repeat first
    [ apply (preserves_ret _ untouched_refl)
    | apply (preserves_raise _ untouched_refl)
    | apply (preserves_lift _ untouched_refl)
    | apply (preserves_get _ untouched_refl)
    | apply (preserves_bind _ untouched_trans); [|intro]
    | apply (preserves_each _ untouched_refl untouched_trans); intro
    | apply (preserves_try_except _ untouched_trans)
    | apply untouched_execute
    | apply preserves_modify; intro;
      first [ apply untouched_with_metadata
            | apply untouched_with_store; first [now left|now right] ]
    | match goal with
      | |- preserves _ (match ?x with _ => _ end) => destruct x
      end ].

Lemma untouched_load db : preserves untouched (_load db).
Proof.
  unfold _load, new_stores, read_keys, read_optional_keys, read_metadata,
    set_keys, set_system_metadata.
  untouched.
Qed.

Lemma untouched_init db : preserves untouched (__init__ db false).
Proof.
  unfold __init__.
  apply (preserves_bind _ untouched_trans); [apply untouched_execute|].
  intros [|rw rows]; [apply (preserves_raise _ untouched_refl)|].
  apply (preserves_bind _ untouched_trans).
  { apply preserves_modify. intros r.
    split; [reflexivity|]. split; [reflexivity|]. intros Hb k; specialize (Hb k); destruct k; exact Hb. }
  intros _. apply (preserves_bind _ untouched_trans);
    [apply (preserves_lift _ untouched_refl)|].
  intros _. apply (preserves_bind _ untouched_trans); [apply untouched_load|].
  intros _. apply (preserves_ret _ untouched_refl).
Qed.

(** X8.  Opening a recording without [pre_load] reads no case, however
    the constructor ends: the reader holds no Case object, no value has
    been decoded, and every cache is empty.  Cases are only built when
    they are asked for. *)
Theorem open_without_pre_load_reads_no_case db :
  heap (snd (open db false)) = []
  /\ decoded (snd (open db false)) = 0%nat
  /\ blank (snd (open db false)).
Proof.
  unfold open.
  destruct (__init__ db false new_reader) as [o r] eqn:E.
  apply untouched_init in E as (Hh & Hd & Hb). simpl.
  split; [exact Hh|]. split; [exact Hd|].
  intros k. apply Hb. intros []; reflexivity.
Qed.

End Kept.

(** ** The format version of an opened reader *)

Section Versions.
Context `{D : Data} `{X : !Externals}.

Import CategoryStore SqliteCaseReader Invariant.

Local Abbreviation same_version :=
  (fun r r1 : reader => format_version r1 = format_version r).

Lemma same_version_refl (r : reader) : same_version r r.
Proof. reflexivity. Qed.

Lemma same_version_trans (r1 r2 r3 : reader) :
  same_version r1 r2 -> same_version r2 r3 -> same_version r1 r3.
Proof. simpl. congruence. Qed.

Ltac same_version :=
  repeat first
    [ apply (preserves_ret _ same_version_refl)
    | apply (preserves_raise _ same_version_refl)
    | apply (preserves_lift _ same_version_refl)
    | apply (preserves_get _ same_version_refl)
    | apply (preserves_bind _ same_version_trans); [|intro]
    | apply (preserves_each _ same_version_refl same_version_trans); intro
    | apply (preserves_try_except _ same_version_trans)
    | apply preserves_execute; intros; reflexivity
    | apply preserves_modify; intro; reflexivity
    | match goal with
      | |- preserves _ (match ?x with _ => _ end) => destruct x
      end ].

Lemma same_version_load db : preserves same_version (_load db).
Proof.
  unfold _load, new_stores, read_keys, read_optional_keys, read_metadata,
    set_keys, set_system_metadata.
  same_version.
Qed.

Lemma load_supported db r r1 :
  _load db r = (Return tt, r1) ->
  1 <= format_version r <= recorder_format_version.
Proof.
  unfold _load. intros H.
  destruct (new_stores_run r) as (r0 & H0 & Hv & _).
  rewrite (mbind_return _ _ _ _ _ H0) in H.
  rewrite (mbind_return get_reader _ r0 r0 r0 eq_refl) in H.
  cbv zeta in H. rewrite Hv in H.
  destruct (Z.leb_spec 1 (format_version r)); [|discriminate H].
  destruct (Z.leb_spec (format_version r) recorder_format_version);
    [lia|discriminate H].
Qed.

Lemma load_unsupported db r :
  ~ (1 <= format_version r <= recorder_format_version) ->
  fst (_load db r) = Raise ValueError.
Proof.
  unfold _load. intros Hv.
  destruct (new_stores_run r) as (r0 & H0 & Hv0 & _).
  rewrite (mbind_return _ _ _ _ _ H0).
  rewrite (mbind_return get_reader _ r0 r0 r0 eq_refl).
  cbv zeta. rewrite Hv0.
  destruct (Z.leb_spec 1 (format_version r));
    [destruct (Z.leb_spec (format_version r) recorder_format_version); [lia|]|];
    reflexivity.
Qed.

Lemma read_catalog_below_1 version rw :
  version < 1 -> read_catalog version rw = Raise AttributeError.
Proof.
  intros Hv. unfold read_catalog.
  destruct (Z.leb_spec 4 version); [lia|].
  destruct (Z.leb_spec 3 version); [lia|].
  destruct (Z.eqb_spec version 1); [lia|].
  destruct (Z.eqb_spec version 2); [lia|].
  reflexivity.
Qed.

(** X9.  The format versions outside the range 1 .. current, with or
    without [pre_load] and whatever the tables hold.  For a version
    below 1 no branch of the constructor assigns the name maps, and it
    raises [AttributeError] where it builds the first
    [PromotedToAbsoluteMap], before [_load] is reached.  For a version
    above the current one the name maps of the row are decoded as for
    version 3, and once they have been read [_load] raises
    [ValueError]. *)
Theorem open_unsupported_version db pre_load rw rest :
  metadata db = Some (rw :: rest) ->
  (md_format_version rw < 1 ->
   fst (open db pre_load) = Raise AttributeError)
  /\ (recorder_format_version < md_format_version rw ->
      read_catalog (md_format_version rw) rw = Return tt ->
      fst (open db pre_load) = Raise ValueError).
Proof.
  intros Hm. split.
  - intros Hv. unfold open, __init__.
    rewrite Hm. unfold mbind at 1, execute. cbv iota beta.
    unfold mbind at 1, set_format_version, modify. cbv iota beta.
    rewrite mbind_lift. now rewrite (read_catalog_below_1 _ rw Hv).
  - intros Hv Hc. unfold open, __init__.
    rewrite Hm. unfold mbind at 1, execute. cbv iota beta.
    unfold mbind at 1, set_format_version, modify. cbv iota beta.
    rewrite mbind_lift, Hc.
    assert (Hout : ~ (1 <= md_format_version rw <= recorder_format_version)) by lia.
    match goal with
    | |- fst (mbind (_load db) _ ?r) = _ =>
        pose proof (load_unsupported db r Hout) as Hl;
        unfold mbind; destruct (_load db r) as [[[]|e|] r1]
    end; simpl in Hl; try discriminate Hl.
    simpl. exact Hl.
Qed.

End Versions.

(** ** Loading every case *)

Section Loaded.
Context `{D : Data} `{X : !Externals}.

Import CategoryStore SqliteCaseReader Invariant.

Lemma settled_refl r : settled r r.
Proof. unfold settled. auto. Qed.

Lemma settled_trans r1 r2 r3 : settled r1 r2 -> settled r2 r3 -> settled r1 r3.
Proof.
  intros (H1 & H2 & H3 & H4) (H5 & H6 & H7 & H8).
  split; [congruence|]. split; [intros k; now rewrite H6|].
  split; [auto|congruence].
Qed.

Lemma settled_counts r d q : settled r (with_counts d q r).
Proof.
  split; [reflexivity|].
  split; [intros k; destruct k; reflexivity|].
  split; [intros k key H; destruct k; exact H|reflexivity].
Qed.

Lemma settled_heap r h : settled r (with_heap h r).
Proof.
  split; [reflexivity|].
  split; [intros k; destruct k; reflexivity|].
  split; [intros k key H; destruct k; exact H|reflexivity].
Qed.

Lemma settled_cache_put k key ref :
  k <> driver_derivative -> preserves settled (cache_put k key ref).
Proof.
  intros Hk r o r1 [= <- <-].
  split; [reflexivity|]. split; [|split].
  - intros k'. destruct (decide (k' = k)) as [->|Hne].
    + now rewrite store_of_with_store.
    + now rewrite store_of_with_store_ne.
  - intros k' key' Hs. destruct (decide (k' = k)) as [->|Hne].
    + rewrite store_of_with_store. simpl.
      destruct (decide (key' = key)) as [->|Hkey].
      * rewrite lookup_insert_eq. eauto.
      * rewrite lookup_insert_ne by congruence. exact Hs.
    + now rewrite store_of_with_store_ne.
  - change (_cases (store_of driver_derivative
                             (with_store k
                                {| _case_keys := _case_keys (store_of k r);
                                   num_cases := num_cases (store_of k r);
                                   _cases := <[key := ref]> (_cases (store_of k r)) |} r))
            = _cases (store_of driver_derivative r)).
    rewrite store_of_with_store_ne by congruence. reflexivity.
Qed.

Ltac settled :=
  repeat first
    [ apply (preserves_ret _ settled_refl)
    | apply (preserves_raise _ settled_refl)
    | apply (preserves_lift _ settled_refl)
    | apply (preserves_get _ settled_refl)
    | apply (preserves_deref _ settled_refl)
    | apply (preserves_bind _ settled_trans); [|intro]
    | apply (preserves_each _ settled_refl settled_trans); intro
    | apply preserves_execute; intros; apply settled_counts
    | apply preserves_decode; intros; apply settled_counts
    | apply preserves_alloc; intros; apply settled_heap
    | apply settled_cache_put; discriminate
    | match goal with
      | |- preserves _ (match ?x with _ => _ end) => destruct x
      end ].

Lemma settled_driver_extract x : preserves settled (DriverCases._extract_case_from_row x).
Proof. unfold DriverCases._extract_case_from_row. settled. Qed.

Lemma settled_solver_extract x : preserves settled (SolverCases._extract_case_from_row x).
Proof. unfold SolverCases._extract_case_from_row. settled. Qed.

Lemma settled_system_extract x : preserves settled (SystemCases._extract_case_from_row x).
Proof. unfold SystemCases._extract_case_from_row. settled. Qed.

Lemma settled_problem_extract x : preserves settled (ProblemCases._extract_case_from_row x).
Proof. unfold ProblemCases._extract_case_from_row. settled. Qed.

Lemma settled_load_rows {P : Type} k (extract : option (row P) -> M nat)
      (table : option (list (row P))) :
  k <> driver_derivative ->
  (forall x, preserves settled (extract x)) ->
  preserves settled
    (let* rows := execute table in
     each (fun rw =>
             let* case := extract (Some rw) in
             let* c := deref case in
             cache_put k (case_iteration_coordinate c) case)
          rows).
Proof.
  intros Hk He.
  apply (preserves_bind _ settled_trans);
    [apply preserves_execute; intros; apply settled_counts|].
  intros rows. apply (preserves_each _ settled_refl settled_trans). intros rw.
  apply (preserves_bind _ settled_trans); [apply He|]. intros ref.
  apply (preserves_bind _ settled_trans); [apply (preserves_deref _ settled_refl)|].
  intros c. now apply settled_cache_put.
Qed.

(** However it ends, [load_cases] keeps the format version and the
    coordinates of the stores, loses no cached key and leaves the
    derivative cache alone. *)
Lemma settled_load_cases db : preserves settled (load_cases db).
Proof.
  unfold load_cases.
  apply (preserves_bind _ settled_trans);
    [apply (settled_load_rows driver); [discriminate|apply settled_driver_extract]|].
  intros _. apply (preserves_bind _ settled_trans);
    [apply (settled_load_rows solver); [discriminate|apply settled_solver_extract]|].
  intros _. apply (preserves_bind _ settled_trans);
    [apply (settled_load_rows system); [discriminate|apply settled_system_extract]|].
  intros _. apply (settled_load_rows problem); [discriminate|apply settled_problem_extract].
Qed.

Lemma store_row_cached {P : Type} k (extract : option (row P) -> M nat) (rw : row P) r r1 :
  (forall x s ref s',
      extract x s = (Return ref, s') ->
      exists row0, x = Some row0
                   /\ fresh_case k (iteration_coordinate row0) (counter row0) s s' ref) ->
  (let* case := extract (Some rw) in
   let* c := deref case in
   cache_put k (case_iteration_coordinate c) case) r = (Return tt, r1) ->
  is_Some (_cases (store_of k r1) !! iteration_coordinate rw).
Proof.
  intros Hinv H.
  apply mbind_Return_inv in H as (ref & r2 & Hex & H).
  apply Hinv in Hex as (row0 & [= <-] & Href & (obj & Hh & Hk & Hc & _) & Hst & _).
  apply mbind_Return_inv in H as (c & r3 & Hd & H).
  unfold deref in Hd. rewrite Hh, Href, lookup_fresh in Hd. injection Hd as <- <-.
  unfold cache_put, modify in H. injection H as <-.
  rewrite store_of_with_store. simpl. rewrite Hc, lookup_insert_eq. eauto.
Qed.

Lemma load_rows_cached {P : Type} k (extract : option (row P) -> M nat)
      (rows : list (row P)) r r1 :
  k <> driver_derivative ->
  (forall x, preserves settled (extract x)) ->
  (forall x s ref s',
      extract x s = (Return ref, s') ->
      exists row0, x = Some row0
                   /\ fresh_case k (iteration_coordinate row0) (counter row0) s s' ref) ->
  (let* rows := execute (Some rows) in
   each (fun rw =>
           let* case := extract (Some rw) in
           let* c := deref case in
           cache_put k (case_iteration_coordinate c) case)
        rows) r = (Return tt, r1) ->
  forall rw, In rw rows -> is_Some (_cases (store_of k r1) !! iteration_coordinate rw).
Proof.
  intros Hk Hset Hinv H.
  apply mbind_Return_inv in H as (rows' & r2 & He & H).
  injection He as <- <-. revert H. generalize (with_counts (decoded r) (S (queries r)) r).
  clear r. induction rows as [|x rows IH]; intros r H rw Hin; [contradiction|].
  simpl in H. apply mbind_Return_inv in H as ([] & r2 & H1 & H2).
  destruct Hin as [<-|Hin].
  - apply (store_row_cached k extract x r r2 Hinv) in H1.
    assert (Hs : settled r2 r1).
    { revert H2. apply (preserves_each _ settled_refl settled_trans). intros rw.
      apply (preserves_bind _ settled_trans); [apply Hset|]. intros ref.
      apply (preserves_bind _ settled_trans); [apply (preserves_deref _ settled_refl)|].
      intros c. now apply settled_cache_put. }
    destruct Hs as (_ & _ & Hdom & _). now apply Hdom.
  - eapply IH; eassumption.
Qed.

Lemma open_inv db pre_load r :
  open db pre_load = (Return tt, r) ->
  exists rw rest r0 r1,
    metadata db = Some (rw :: rest)
    /\ format_version r0 = md_format_version rw
    /\ _load db r0 = (Return tt, r1)
    /\ (if pre_load then load_cases db r1 else ret tt r1) = (Return tt, r).
Proof.
  unfold open, __init__. intros H.
  apply mbind_Return_inv in H as (rows & r1 & He & H).
  apply execute_inv in He as [-> [[? _]|(rows' & [= <-] & Hm)]]; [discriminate|].
  destruct rows as [|rw rows]; [discriminate|].
  apply mbind_Return_inv in H as ([] & r2 & Hv & H).
  apply mbind_Return_inv in H as ([] & r3 & Hc & H).
  apply mbind_Return_inv in H as ([] & r4 & Hl & H).
  exists rw, rows, r3, r4.
  split; [exact Hm|]. split; [|split; [exact Hl|]].
  - unfold lift in Hc. injection Hc as _ <-.
    unfold set_format_version, modify in Hv. injection Hv as <-. reflexivity.
  - destruct pre_load; exact H.
Qed.

Lemma same_version_load_Return db r r1 :
  _load db r = (Return tt, r1) -> format_version r1 = format_version r.
Proof. apply (same_version_load db). Qed.

(** X10.  A reader the constructor returns has the format version of
    the metadata row, and this version lies in the range 1 .. current:
    the row decoders of such a reader always find a value decoder, so
    that [_extract_case_from_row] cannot meet an unbound array. *)
Theorem open_format_version db pre_load r :
  open db pre_load = (Return tt, r) ->
  exists rw rest,
    metadata db = Some (rw :: rest)
    /\ format_version r = md_format_version rw
    /\ 1 <= format_version r <= recorder_format_version
    /\ exists dec, decoder_for (format_version r) = Some dec.
Proof.
  intros H. apply open_inv in H as (rw & rest & r0 & r1 & Hm & Hv & Hl & H).
  pose proof (load_supported _ _ _ Hl) as Hrange.
  pose proof (same_version_load_Return _ _ _ Hl) as Hv1.
  assert (Hvr : format_version r = format_version r0).
  { destruct pre_load.
    - apply settled_load_cases in H as (Hv2 & _). congruence.
    - injection H as <-. exact Hv1. }
  exists rw, rest. split; [exact Hm|]. split; [congruence|].
  rewrite Hvr. split; [exact Hrange|].
  unfold decoder_for.
  destruct (Z.leb_spec 3 (format_version r0)); [eauto|].
  destruct (Z.eqb_spec (format_version r0) 1); [eauto|].
  destruct (Z.eqb_spec (format_version r0) 2); [eauto|lia].
Qed.

End Loaded.

(** ** The caches after [pre_load] and after [get_case] *)

Section Cached.
Context `{D : Data} `{X : !Externals}.

Import CategoryStore SqliteCaseReader Invariant.

Lemma table_keys_row k db keys c :
  table_keys k db = Some keys -> In c keys ->
  match k with
  | driver => exists rows rw, driver_iterations db = Some rows
                              /\ In rw rows /\ iteration_coordinate rw = c
  | driver_derivative => exists rows rw, driver_derivatives db = Some rows
                                         /\ In rw rows /\ iteration_coordinate rw = c
  | system => exists rows rw, system_iterations db = Some rows
                              /\ In rw rows /\ iteration_coordinate rw = c
  | solver => exists rows rw, solver_iterations db = Some rows
                              /\ In rw rows /\ iteration_coordinate rw = c
  | problem => exists rows rw, problem_cases db = Some rows
                               /\ In rw rows /\ iteration_coordinate rw = c
  end.
Proof.
  destruct k; simpl; intros Ht Hin;
    match type of Ht with
    | option_map _ ?t = _ => destruct t as [rows|]; [|discriminate Ht]
    end;
    injection Ht as <-; apply in_map_iff in Hin as (rw & Hc & Hrw);
    exists rows, rw; auto.
Qed.

(** After a returning [load_cases], every coordinate of the four tables
    it reads is cached. *)
Lemma load_cases_cached db r r1 k keys c :
  load_cases db r = (Return tt, r1) ->
  k <> driver_derivative ->
  table_keys k db = Some keys -> In c keys ->
  is_Some (_cases (store_of k r1) !! c).
Proof.
  intros H Hk Ht Hin. unfold load_cases in H.
  apply mbind_Return_inv in H as ([] & r2 & H1 & H).
  apply mbind_Return_inv in H as ([] & r3 & H2 & H).
  apply mbind_Return_inv in H as ([] & r4 & H3 & H4).
  pose proof (settled_load_rows solver _ (solver_iterations db) ltac:(discriminate)
                settled_solver_extract _ _ _ H2) as (_ & _ & Hd2 & _).
  pose proof (settled_load_rows system _ (system_iterations db) ltac:(discriminate)
                settled_system_extract _ _ _ H3) as (_ & _ & Hd3 & _).
  pose proof (settled_load_rows problem _ (problem_cases db) ltac:(discriminate)
                settled_problem_extract _ _ _ H4) as (_ & _ & Hd4 & _).
  pose proof (table_keys_row k db keys c Ht Hin) as Hrow.
  destruct k; [|contradiction| | |]; destruct Hrow as (rows & rw & Hrows & Hrw & <-).
  - unfold DriverCases.load_cases in H1. rewrite Hrows in H1.
    apply Hd4, Hd3, Hd2.
    apply (load_rows_cached driver _ rows r r2 ltac:(discriminate)
             settled_driver_extract driver_extract_inv H1 rw Hrw).
  - unfold SystemCases.load_cases in H3. rewrite Hrows in H3.
    apply Hd4.
    apply (load_rows_cached system _ rows r3 r4 ltac:(discriminate)
             settled_system_extract system_extract_inv H3 rw Hrw).
  - unfold SolverCases.load_cases in H2. rewrite Hrows in H2.
    apply Hd4, Hd3.
    apply (load_rows_cached solver _ rows r2 r3 ltac:(discriminate)
             settled_solver_extract solver_extract_inv H2 rw Hrw).
  - unfold ProblemCases.load_cases in H4. rewrite Hrows in H4.
    apply (load_rows_cached problem _ rows r4 r1 ltac:(discriminate)
             settled_problem_extract problem_extract_inv H4 rw Hrw).
Qed.

(** X11.  After the constructor has returned with [pre_load=True],
    [get_case] of the driver, system, solver and problem stores answers
    every coordinate of its table from the cache: it returns the cached
    Case and leaves the reader as it is, so that no statement is
    executed and nothing is decoded. *)
Theorem pre_load_serves_from_cache db r k key c keys :
  open db true = (Return tt, r) ->
  k <> driver_derivative ->
  looked_up k r key = Return c ->
  table_keys k db = Some keys -> In c keys ->
  exists ref,
    _cases (store_of k r) !! c = Some ref
    /\ get_case k db key r = (Return ref, r).
Proof.
  intros H Hk Hl Ht Hin.
  apply open_inv in H as (rw & rest & r0 & r1 & _ & _ & _ & H).
  destruct (load_cases_cached db r1 r k keys c H Hk Ht Hin) as [ref Href].
  exists ref. split; [exact Href|]. now apply (get_case_hit k db key r c ref).
Qed.

(** X12.  [load_cases] reads the driver, solver, system and problem
    tables but not [driver_derivatives]: whatever [pre_load] is, the
    derivative cache of a reader the constructor returns is empty. *)
Theorem pre_load_skips_derivative_cases db pre_load r :
  open db pre_load = (Return tt, r) ->
  _cases (driver_derivative_cases r) = ∅.
Proof.
  intros H. apply open_inv in H as (rw & rest & r0 & r1 & _ & _ & Hl & H).
  apply load_blank in Hl as [_ Hb].
  destruct pre_load.
  - apply settled_load_cases in H as (_ & _ & _ & Hd). rewrite Hd.
    exact (Hb driver_derivative).
  - injection H as <-. exact (Hb driver_derivative).
Qed.

Lemma blank_keyed r : blank r -> keyed r.
Proof. intros Hb k key ref H. rewrite Hb, lookup_empty in H. discriminate. Qed.

Lemma keyed_counts r d q : keyed r -> keyed (with_counts d q r).
Proof.
  intros Hk k key ref H. apply (Hk k key ref). destruct k; exact H.
Qed.

Lemma store_row_keyed {P : Type} k (extract : option (row P) -> M nat) (rw : row P) r r1 :
  (forall x s ref s',
      extract x s = (Return ref, s') ->
      exists row0, x = Some row0
                   /\ fresh_case k (iteration_coordinate row0) (counter row0) s s' ref) ->
  keyed r ->
  (let* case := extract (Some rw) in
   let* c := deref case in
   cache_put k (case_iteration_coordinate c) case) r = (Return tt, r1) ->
  keyed r1.
Proof.
  intros Hinv Hkeyed H.
  apply mbind_Return_inv in H as (ref & r2 & Hex & H).
  apply Hinv in Hex as (row0 & [= <-] & Href & (obj & Hh & Hk & Hc & _) & Hst & _).
  apply mbind_Return_inv in H as (c & r3 & Hd & H).
  unfold deref in Hd. rewrite Hh, Href, lookup_fresh in Hd. injection Hd as <- <-.
  unfold cache_put, modify in H. injection H as <-.
  intros k0 key0 ref0 Hl.
  replace (heap (with_store k _ r2)) with (heap r2) by (destruct k; reflexivity).
  destruct (decide (k0 = k)) as [->|Hne].
  - rewrite store_of_with_store in Hl. simpl in Hl.
    destruct (decide (key0 = case_iteration_coordinate obj)) as [->|Hkne].
    + rewrite lookup_insert_eq in Hl. injection Hl as <-.
      exists obj. split; [rewrite Hh, Href; apply lookup_fresh|]. split; [exact Hk|reflexivity].
    + rewrite lookup_insert_ne in Hl by congruence. rewrite Hst in Hl.
      destruct (Hkeyed k key0 ref0 Hl) as (o & Ho & Hko).
      exists o. split; [|exact Hko]. rewrite Hh. now apply lookup_app_l_Some.
  - rewrite store_of_with_store_ne in Hl by exact Hne. rewrite Hst in Hl.
    destruct (Hkeyed k0 key0 ref0 Hl) as (o & Ho & Hko).
    exists o. split; [|exact Hko]. rewrite Hh. now apply lookup_app_l_Some.
Qed.

Lemma load_rows_keyed {P : Type} k (extract : option (row P) -> M nat)
      (table : option (list (row P))) r r1 :
  (forall x s ref s',
      extract x s = (Return ref, s') ->
      exists row0, x = Some row0
                   /\ fresh_case k (iteration_coordinate row0) (counter row0) s s' ref) ->
  keyed r ->
  (let* rows := execute table in
   each (fun rw =>
           let* case := extract (Some rw) in
           let* c := deref case in
           cache_put k (case_iteration_coordinate c) case)
        rows) r = (Return tt, r1) ->
  keyed r1.
Proof.
  intros Hinv Hkeyed H.
  apply mbind_Return_inv in H as (rows & r2 & He & H).
  apply execute_inv in He as [-> _].
  apply (keyed_counts _ (decoded r) (S (queries r))) in Hkeyed.
  revert H Hkeyed. generalize (with_counts (decoded r) (S (queries r)) r). clear r.
  induction rows as [|x rows IH]; intros r H Hkeyed; simpl in H.
  - injection H as <-. exact Hkeyed.
  - apply mbind_Return_inv in H as ([] & r2 & H1 & H2).
    apply (IH r2 H2). eapply store_row_keyed; eassumption.
Qed.

Lemma load_cases_keyed db r r1 :
  keyed r -> load_cases db r = (Return tt, r1) -> keyed r1.
Proof.
  intros Hk H. unfold load_cases in H.
  apply mbind_Return_inv in H as ([] & r2 & H1 & H).
  apply mbind_Return_inv in H as ([] & r3 & H2 & H).
  apply mbind_Return_inv in H as ([] & r4 & H3 & H4).
  apply (load_rows_keyed driver _ _ _ _ driver_extract_inv) in H1; [|exact Hk].
  apply (load_rows_keyed solver _ _ _ _ solver_extract_inv) in H2; [|exact H1].
  apply (load_rows_keyed system _ _ _ _ system_extract_inv) in H3; [|exact H2].
  apply (load_rows_keyed problem _ _ _ _ problem_extract_inv) in H4; [|exact H3].
  exact H4.
Qed.

(** X13.  The caches of a reader the constructor returns are in order,
    with or without [pre_load]: every cached reference is a Case of the
    store's own class, recorded under the coordinate it is cached under,
    and this coordinate is a key of the store's table. *)
Theorem open_caches_in_order db pre_load r :
  open db pre_load = (Return tt, r) -> keyed r /\ wf db r.
Proof.
  intros H. split; [|now apply (open_wf db pre_load)].
  apply open_inv in H as (rw & rest & r0 & r1 & _ & _ & Hl & H).
  apply load_blank in Hl as [_ Hb].
  destruct pre_load.
  - apply (load_cases_keyed db r1 r); [now apply blank_keyed|exact H].
  - injection H as <-. now apply blank_keyed.
Qed.

Lemma get_case_keyed k db key r ref r1 :
  keyed r ->
  get_case k db key r = (Return ref, r1) ->
  exists c obj,
    looked_up k r key = Return c
    /\ heap r1 !! ref = Some obj
    /\ category_of obj = k
    /\ case_iteration_coordinate obj = c
    /\ keyed r1.
Proof.
  intros Hkeyed H.
  apply get_case_fetched in H as (c & Hl & Hf). exists c.
  destruct Hf as [[Hhit ->]|(Hmiss & _ & Href & (obj & Hh & Hk & Hc) & Hcache & _ & Hother & _)].
  - destruct (Hkeyed k c ref Hhit) as (obj & Ho & Hk & Hc).
    exists obj. auto.
  - exists obj. split; [exact Hl|].
    split; [rewrite Hh, Href; apply lookup_fresh|].
    split; [exact Hk|]. split; [exact Hc|].
    intros k0 key0 ref0 H0.
    destruct (decide (k0 = k)) as [->|Hne].
    + rewrite Hcache in H0.
      destruct (decide (key0 = c)) as [->|Hkne].
      * rewrite lookup_insert_eq in H0. injection H0 as <-.
        exists obj. split; [rewrite Hh, Href; apply lookup_fresh|]. auto.
      * rewrite lookup_insert_ne in H0 by congruence.
        destruct (Hkeyed k key0 ref0 H0) as (o & Ho & Hko).
        exists o. split; [|exact Hko]. rewrite Hh. now apply lookup_app_l_Some.
    + rewrite (Hother k0 Hne) in H0.
      destruct (Hkeyed k0 key0 ref0 H0) as (o & Ho & Hko).
      exists o. split; [|exact Hko]. rewrite Hh. now apply lookup_app_l_Some.
Qed.


(** X14.  On a reader whose caches are in order, a returning [get_case]
    gives a Case of the store's own class whose coordinate is the one
    looked up, cached or newly read; it leaves the caches in order and
    every object already created where it was. *)
Theorem get_case_returns_requested k db key r ref r1 :
  keyed r ->
  get_case k db key r = (Return ref, r1) ->
  (exists c obj,
      looked_up k r key = Return c
      /\ heap r1 !! ref = Some obj
      /\ category_of obj = k
      /\ case_iteration_coordinate obj = c)
  /\ keyed r1
  /\ (forall ref0 obj0, heap r !! ref0 = Some obj0 -> heap r1 !! ref0 = Some obj0).
Proof.
  intros Hkeyed H.
  pose proof (growing_get_case k db key _ _ _ H) as Hgrows.
  apply get_case_keyed in H as (c & obj & Hl & Ho & Hk & Hc & Hkeyed1);
    [|exact Hkeyed].
  split; [exists c, obj; auto|]. split; [exact Hkeyed1|].
  intros ref0 obj0. now apply grows_lookup.
Qed.

End Cached.

(** ** Missing tables *)

Section MissingTables.
Context `{D : Data} `{X : !Externals}.

Import CategoryStore SqliteCaseReader.

(** X16.  When the table of a store does not exist, [get_case] on a
    coordinate that is not cached raises [sqlite3.OperationalError]
    after its one statement (and not the [TypeError] of a missing row);
    nothing is created or cached. *)
Theorem get_case_missing_table k db key r c :
  looked_up k r key = Return c ->
  _cases (store_of k r) !! c = None ->
  table_keys k db = None ->
  get_case k db key r
  = (Raise OperationalError, with_counts (decoded r) (S (queries r)) r).
Proof.
  destruct k; simpl; intros Hc Hmiss Hkeys.
  - destruct (driver_iterations db) as [rows|] eqn:Et; [discriminate|].
    unfold DriverCases.get_case, mbind, get_reader, lift, execute.
    rewrite Hc, Hmiss, Et. reflexivity.
  - destruct (driver_derivatives db) as [rows|] eqn:Et; [discriminate|].
    unfold DriverDerivativeCases.get_case, mbind, get_reader, lift, execute.
    rewrite Hc, Hmiss, Et. reflexivity.
  - destruct (system_iterations db) as [rows|] eqn:Et; [discriminate|].
    unfold SystemCases.get_case, mbind, get_reader, lift, execute.
    rewrite Hc, Hmiss, Et. reflexivity.
  - destruct (solver_iterations db) as [rows|] eqn:Et; [discriminate|].
    unfold SolverCases.get_case, mbind, get_reader, lift, execute.
    rewrite Hc, Hmiss, Et. reflexivity.
  - destruct (problem_cases db) as [rows|] eqn:Et; [discriminate|].
    injection Hc as ->.
    unfold ProblemCases.get_case, mbind, get_reader, execute.
    rewrite Hmiss, Et. reflexivity.
Qed.

Lemma read_optional_keys_ends {P : Type} k (table : option (list (row P))) v r :
  (exists r1, read_optional_keys k table v r = (Return tt, r1))
  \/ (exists r1, read_optional_keys k table v r = (Raise OperationalError, r1)).
Proof.
  unfold read_optional_keys, try_except_operational.
  destruct table as [rows|].
  - destruct (read_keys_present k rows r) as (r1 & H & _). rewrite H. eauto.
  - rewrite read_keys_missing.
    destruct (Z.leb 2 v); [right|left]; eexists; reflexivity.
Qed.

(** X17.  The tables [driver_iterations], [system_iterations] and
    [solver_iterations] are required in every format version: when one
    of them is missing, [_load] raises [sqlite3.OperationalError] (the
    guard for version-1 files covers [driver_derivatives] and
    [problem_cases] only). *)
Theorem load_required_tables db r :
  1 <= format_version r <= recorder_format_version ->
  driver_iterations db = None \/ system_iterations db = None
  \/ solver_iterations db = None ->
  fst (_load db r) = Raise OperationalError.
Proof.
  intros Hv Hmiss. unfold _load.
  destruct (new_stores_run r) as (r1 & H1 & Hv1 & _).
  rewrite (mbind_return _ _ _ _ _ H1).
  rewrite (mbind_return get_reader _ r1 r1 r1 eq_refl). cbv zeta. rewrite Hv1.
  replace (Z.leb 1 (format_version r)) with true by (symmetry; apply Z.leb_le; lia).
  replace (Z.leb (format_version r) recorder_format_version) with true
    by (symmetry; apply Z.leb_le; lia).
  change (true && true)%bool with true. cbv iota.
  destruct (driver_iterations db) as [rows|].
  2:{ erewrite mbind_raise; [reflexivity|apply read_keys_missing]. }
  destruct (read_keys_present driver rows r1) as (r2 & H2 & _).
  rewrite (mbind_return _ _ _ _ _ H2).
  destruct (read_optional_keys_ends driver_derivative (driver_derivatives db)
              (format_version r) r2) as [(r3 & H3)|(r3 & H3)].
  2:{ erewrite mbind_raise; [reflexivity|exact H3]. }
  rewrite (mbind_return _ _ _ _ _ H3).
  destruct (system_iterations db) as [srows|].
  2:{ erewrite mbind_raise; [reflexivity|apply read_keys_missing]. }
  destruct (read_keys_present system srows r3) as (r4 & H4 & _).
  rewrite (mbind_return _ _ _ _ _ H4).
  destruct (solver_iterations db) as [vrows|].
  2:{ erewrite mbind_raise; [reflexivity|apply read_keys_missing]. }
  destruct Hmiss as [Hm|[Hm|Hm]]; discriminate Hm.
Qed.

(** X18.  [load_cases] reads [problem_cases] without the guard [_load]
    has for files written before the table existed: with
    [pre_load=True] the constructor never returns on a file that lacks
    the table, whatever its format version. *)
Theorem pre_load_needs_problem_cases (db : database) :
  problem_cases db = None ->
  forall b, fst (open db true) <> Return b.
Proof.
  intros Hm b. unfold open, __init__.
  apply never_returns_bind. intros rows r0 b0.
  destruct rows as [|rw rows]; [discriminate|].
  do 3 (apply never_returns_bind; intros _ ? ?).
  unfold load_cases.
  do 3 (apply never_returns_bind; intros _ ? ?).
  unfold ProblemCases.load_cases, mbind, execute. rewrite Hm. discriminate.
Qed.

End MissingTables.

(** ** What [get_cases] yields *)

Section Generated.
Context `{D : Data} `{X : !Externals}.

Import CategoryStore SqliteCaseReader Invariant.

Lemma yield_each_Forall {A : Type} (I : reader -> Prop) (Q : case -> Prop)
      (body : A -> M nat) l :
  (forall x, In x l -> growing (body x)) ->
  (forall x r ref r1,
      In x l -> I r -> body x r = (Return ref, r1) ->
      I r1 /\ exists obj, heap r1 !! ref = Some obj /\ Q obj) ->
  forall r ys e r',
    I r -> yield_each body l r = ((ys, e), r') ->
    grows r r'
    /\ Forall (fun ref => exists obj, heap r' !! ref = Some obj /\ Q obj) ys.
Proof.
  induction l as [|x l IH]; intros Hg Hb r ys e r' HI; simpl.
  - intros [= <- <- <-]. split; [apply grows_refl|constructor].
  - destruct (body x r) as [[ref|err|] r1] eqn:E.
    + destruct (yield_each body l r1) as [[ys' e'] r2] eqn:E2.
      intros [= <- <- <-].
      destruct (Hb x r ref r1 (or_introl eq_refl) HI E) as [HI1 (obj & Ho & Hq)].
      destruct (IH (fun y Hy => Hg y (or_intror Hy))
                   (fun y a b c Hy => Hb y a b c (or_intror Hy))
                   r1 ys' e' r2 HI1 E2) as (Hg2 & Hy).
      assert (Hg1 : grows r r1) by (eapply (Hg x); [now left|eassumption]).
      split; [eapply grows_trans; eassumption|].
      constructor; [|exact Hy].
      exists obj. split; [|exact Hq]. eapply grows_lookup; eassumption.
    + intros [= <- <- <-]. split; [eapply (Hg x); [now left|eassumption]|constructor].
    + intros [= <- <- <-]. split; [eapply (Hg x); [now left|eassumption]|constructor].
Qed.

(** X19.  Asked for a coordinate, [get_cases] yields solver cases only,
    and each of them is a descendant of the coordinate: its own
    coordinate starts with the one asked for and has more segments.
    String identifiers are taken to resolve to themselves, as those of
    [BaseCases] do. *)
Theorem get_cases_yields_descendants fuel db source recurse flat r ys e r' :
  source <> "problem" -> source <> "driver" -> source <> "" ->
  (forall keys s, get_iteration_coordinate keys (Name s) = Return s) ->
  keyed r ->
  get_cases fuel db source recurse flat r = ((ys, e), r') ->
  Forall (fun ref =>
            exists obj,
              heap r' !! ref = Some obj
              /\ (category_of obj = solver
                  /\ Coord.startswith (case_iteration_coordinate obj) source = true
                  /\ len (Coord.split source)
                     < len (Coord.split (case_iteration_coordinate obj))))
         ys.
Proof.
  intros Hp Hd Hroot Hid Hkeyed. unfold get_cases.
  destruct (String.eqb_spec source "problem") as [|_]; [contradiction|].
  destruct (String.eqb_spec source "driver") as [|_]; [contradiction|].
  destruct (String.eqb_spec source "") as [|_]; [contradiction|]. simpl negb. cbv iota.
  unfold before at 1.
  destruct (execute (driver_iterations db) r) as [o1 r1] eqn:E1.
  apply execute_inv in E1 as [-> [[-> _]|(drows & -> & _)]].
  { intros [= <- <- <-]. constructor. }
  unfold before at 1.
  match goal with
  | |- context [execute (solver_iterations db) ?s] =>
      destruct (execute (solver_iterations db) s) as [o2 r2] eqn:E2
  end.
  apply execute_inv in E2 as [-> [[-> _]|(srows & -> & _)]].
  { intros [= <- <- <-]. constructor. }
  unfold before, lift.
  destruct (_find_child_cases fuel source (Coord.split source) (driver_iter_of drows)
                              (solver_iter_of srows) recurse
                              (coord_lengths_of (solver_iter_of srows)))
    as [iter_set|err|] eqn:Ef.
  2,3: intros [= <- <- <-]; constructor.
  intros H.
  pose proof (split_length_pos source) as Hpos.
  eapply (yield_each_Forall keyed) in H as [_ H]; [exact H| | |].
  - intros [c tag] _. simpl.
    destruct (String.eqb tag "driver").
    + apply (growing_get_case driver db c).
    + apply (growing_get_case solver db c).
  - intros [c tag] r0 ref r3 Hin Hk0. simpl.
    destruct (find_child_cases_below _ _ _ _ (coord_lengths_strict (solver_iter_of srows))
                _ _ _ _ Hroot Ef c tag Hin) as (-> & _ & Hpre & Hlen).
    replace (Z.eqb (len (Coord.split source)) 0) with false in Hlen
      by (symmetry; apply Z.eqb_neq; lia).
    change (String.eqb "solver" "driver") with false. cbv iota.
    intros Hrun.
    apply (get_case_keyed solver db c) in Hrun as (c' & obj & Hl & Ho & Hcat & Hc & Hk3);
      [|exact Hk0].
    simpl in Hl. rewrite Hid in Hl. injection Hl as <-.
    split; [exact Hk3|]. exists obj. rewrite Hc. auto.
  - now apply keyed_counts, keyed_counts.
Qed.

Lemma cases_rows {P : Type} k (extract : option (row P) -> M nat) :
  (forall x s ref s',
      extract x s = (Return ref, s') ->
      exists row0, x = Some row0
                   /\ fresh_case k (iteration_coordinate row0) (counter row0) s s' ref) ->
  forall rows r ys r',
    yield_each (fun rw =>
                  let* case := extract (Some rw) in
                  let* c := deref case in
                  cache_put k (case_iteration_coordinate c) case ;;;
                  ret case)
               rows r = ((ys, Return tt), r') ->
    grows r r'
    /\ Forall2 (fun ref rw =>
                  (length (heap r) <= ref)%nat
                  /\ exists obj,
                      heap r' !! ref = Some obj
                      /\ category_of obj = k
                      /\ case_iteration_coordinate obj = iteration_coordinate rw
                      /\ case_counter obj = counter rw)
               ys rows.
Proof.
  intros Hinv. induction rows as [|x rows IH]; intros r ys r'; simpl.
  - intros [= <- <-]. split; [apply grows_refl|constructor].
  - match goal with
    | |- context [match ?b r with _ => _ end] => destruct (b r) as [[ref|err|] r1] eqn:E
    end; try discriminate.
    destruct (yield_each _ rows r1) as [[ys' e'] r2] eqn:E2.
    intros [= <- -> <-].
    apply mbind_Return_inv in E as (ref0 & s1 & Hex & E).
    apply Hinv in Hex as (row0 & [= <-] & Href & (obj & Hh & Hk & Hc & Hn) & _).
    apply mbind_Return_inv in E as (c & s2 & Hd & E).
    unfold deref in Hd. rewrite Hh, Href, lookup_fresh in Hd. injection Hd as <- <-.
    apply mbind_Return_inv in E as ([] & s3 & Hput & E).
    unfold cache_put, modify in Hput. injection Hput as <-.
    unfold ret in E. injection E as <- <-.
    assert (Hh1 : heap (with_store k
                          {| _case_keys := _case_keys (store_of k s1);
                             num_cases := num_cases (store_of k s1);
                             _cases := <[case_iteration_coordinate obj := ref0]>
                                         (_cases (store_of k s1)) |} s1)
                  = heap r ++ [obj]).
    { rewrite <- Hh. destruct k; reflexivity. }
    destruct (IH _ _ _ E2) as (Hg & Hall).
    assert (Hg1 : grows r r2).
    { destruct Hg as [ext Hext]. exists ([obj] ++ ext).
      rewrite Hext, Hh1, <- app_assoc. reflexivity. }
    split; [exact Hg1|].
    constructor.
    + split; [lia|]. exists obj.
      split; [|auto].
      eapply grows_lookup; [exact Hg|]. rewrite Hh1, Href. apply lookup_fresh.
    + eapply Forall2_impl; [exact Hall|].
      intros ref rw [Hle Hobj]. split; [|exact Hobj].
      rewrite Hh1, length_app in Hle. simpl in Hle. lia.
Qed.

(** X20.  [get_cases('driver')], run to its normal end, yields one
    driver Case for every row of [driver_iterations], in the order of
    the table, with the coordinate and the counter of the row; each is
    a new object, read again from the table even when the coordinate
    was cached. *)
Theorem get_cases_driver_source fuel db recurse flat r ys r' rows :
  driver_iterations db = Some rows ->
  get_cases fuel db "driver" recurse flat r = ((ys, Return tt), r') ->
  Forall2 (fun ref rw =>
             (length (heap r) <= ref)%nat
             /\ exists obj,
                 heap r' !! ref = Some obj
                 /\ category_of obj = driver
                 /\ case_iteration_coordinate obj = iteration_coordinate rw
                 /\ case_counter obj = counter rw)
          ys rows.
Proof.
  intros Ht. unfold get_cases.
  change (String.eqb "driver" "problem") with false.
  change (String.eqb "driver" "driver") with true. cbv iota.
  unfold DriverCases.cases, before, execute. rewrite Ht.
  intros H. apply (cases_rows driver _ driver_extract_inv) in H as [_ H].
  exact H.
Qed.

(** X21.  [get_cases('problem')], run to its normal end, yields one
    problem Case for every row of [problem_cases], in the order of the
    table, with the name and the counter of the row; each is a new
    object, read again from the table even when the name was cached. *)
Theorem get_cases_problem_source fuel db recurse flat r ys r' rows :
  problem_cases db = Some rows ->
  get_cases fuel db "problem" recurse flat r = ((ys, Return tt), r') ->
  Forall2 (fun ref rw =>
             (length (heap r) <= ref)%nat
             /\ exists obj,
                 heap r' !! ref = Some obj
                 /\ category_of obj = problem
                 /\ case_iteration_coordinate obj = iteration_coordinate rw
                 /\ case_counter obj = counter rw)
          ys rows.
Proof.
  intros Ht. unfold get_cases.
  change (String.eqb "problem" "problem") with true. cbv iota.
  unfold ProblemCases.cases, before, execute. rewrite Ht.
  intros H. apply (cases_rows problem _ problem_extract_inv) in H as [_ H].
  exact H.
Qed.

End Generated.

(** ** The further statements at concrete inputs *)

Section Instances.

Import SqliteCaseReader CategoryStore Invariant Listing Written Fixture Samples.

#[local] Existing Instance plain_data.
#[local] Existing Instance plain_externals.
#[local] Existing Instance plain_views.

Lemma find_child_cases_entries_witness :
  _find_child_cases 4 "" [] [first_iteration] recorded_solver_iter true [2; 4; 6]
  = Return [(first_iteration, "driver"); (outer_solver, "solver");
            (inner_solver, "solver")]
  /\ (("solver" = "driver" /\ In outer_solver [first_iteration])
      \/ ("solver" = "solver" /\ exists n, In (outer_solver, n) recorded_solver_iter)).
Proof.
  assert (Hrun : _find_child_cases 4 "" [] [first_iteration] recorded_solver_iter true
                                   [2; 4; 6]
                 = Return [(first_iteration, "driver"); (outer_solver, "solver");
                           (inner_solver, "solver")])
    by (vm_compute; reflexivity).
  split; [exact Hrun|].
  apply (find_child_cases_entries 4 "" [] [first_iteration] recorded_solver_iter true
           [2; 4; 6] _ Hrun outer_solver "solver").
  right. left. reflexivity.
Defined.

Lemma find_child_cases_descendants_witness :
  _find_child_cases 3 first_iteration (Coord.split first_iteration) [first_iteration]
                    recorded_solver_iter true (coord_lengths_of recorded_solver_iter)
  = Return [(outer_solver, "solver"); (inner_solver, "solver")]
  /\ Coord.startswith inner_solver first_iteration = true
  /\ (if Z.eqb (len (Coord.split first_iteration)) 0
      then 2 else len (Coord.split first_iteration))
     < len (Coord.split inner_solver).
Proof.
  assert (Hrun : _find_child_cases 3 first_iteration (Coord.split first_iteration)
                                   [first_iteration] recorded_solver_iter true
                                   (coord_lengths_of recorded_solver_iter)
                 = Return [(outer_solver, "solver"); (inner_solver, "solver")])
    by (vm_compute; reflexivity).
  assert (Hp : first_iteration <> "") by discriminate.
  assert (Hin : In (inner_solver, "solver")
                   [(outer_solver, "solver"); (inner_solver, "solver")])
    by (right; left; reflexivity).
  split; [exact Hrun|].
  destruct (find_child_cases_descendants
              (coord_lengths_of recorded_solver_iter) [first_iteration]
              recorded_solver_iter true 3 first_iteration
              (Coord.split first_iteration) _ inner_solver "solver"
              (coord_lengths_strict recorded_solver_iter) Hp Hrun Hin)
    as (_ & _ & Hpre & Hlen).
  split; [exact Hpre|exact Hlen].
Defined.

Lemma find_child_cases_below_root_returns_witness :
  first_iteration <> ""
  /\ In (len (Coord.split first_iteration)) (coord_lengths_of recorded_solver_iter)
  /\ exists ret,
      forall fuel,
        (length (coord_lengths_of recorded_solver_iter) <= fuel)%nat ->
        _find_child_cases fuel first_iteration (Coord.split first_iteration)
                          [first_iteration] recorded_solver_iter true
                          (coord_lengths_of recorded_solver_iter)
        = Return ret.
Proof.
  assert (Hp : first_iteration <> "") by discriminate.
  assert (Hin : In (len (Coord.split first_iteration))
                   (coord_lengths_of recorded_solver_iter))
    by (vm_compute; left; reflexivity).
  split; [exact Hp|]. split; [exact Hin|].
  exact (find_child_cases_below_root_returns [first_iteration] recorded_solver_iter
           true first_iteration Hp Hin).
Defined.

Lemma find_child_cases_empty_driver_coordinate_witness :
  In ("abc", 1) odd_solver_iter
  /\ len (Coord.split "abc") = 1
  /\ forall fuel,
      _find_child_cases fuel "" [] [""] odd_solver_iter true
                        (coord_lengths_of odd_solver_iter)
      = Diverge.
Proof.
  assert (Hin : In ("abc", 1) odd_solver_iter) by (left; reflexivity).
  assert (Hl : len (Coord.split (fst ("abc", 1))) = 1) by (vm_compute; reflexivity).
  split; [exact Hin|]. split; [exact Hl|].
  exact (find_child_cases_empty_driver_coordinate [] odd_solver_iter ("abc", 1) Hin Hl).
Defined.

Local Abbreviation root_pairs :=
  [("rank0:SLSQP", "0"); ("root._solve_nonlinear", "0")].

Lemma split_written_coordinate_witness :
  coordinate_of root_pairs = root_system
  /\ well_formed root_pairs = true
  /\ Coord.split (coordinate_of root_pairs) = map fst root_pairs ++ [""]
  /\ len (Coord.split (coordinate_of root_pairs)) = len root_pairs + 1.
Proof.
  assert (Hne : root_pairs <> []) by discriminate.
  assert (Hwf : well_formed root_pairs = true) by (vm_compute; reflexivity).
  split; [vm_compute; reflexivity|]. split; [exact Hwf|].
  exact (split_written_coordinate root_pairs Hne Hwf).
Defined.

Local Abbreviation model_pairs_0 :=
  [("rank0:Driver", "0"); ("root._solve_nonlinear", "0")].

Local Abbreviation model_pairs_1 :=
  [("rank0:Driver", "1"); ("root._solve_nonlinear", "1")].

Lemma iter_key_ignores_numbers_witness :
  coordinate_of model_pairs_0 = model_0
  /\ coordinate_of model_pairs_1 = model_1
  /\ iter_key (coordinate_of model_pairs_0) = iter_key (coordinate_of model_pairs_1)
  /\ iter_key (coordinate_of model_pairs_0)
     = join ":" (map fst model_pairs_0 ++ [""]).
Proof.
  assert (Hne : model_pairs_0 <> []) by discriminate.
  assert (Hwf0 : well_formed model_pairs_0 = true) by (vm_compute; reflexivity).
  assert (Hwf1 : well_formed model_pairs_1 = true) by (vm_compute; reflexivity).
  split; [vm_compute; reflexivity|]. split; [vm_compute; reflexivity|].
  exact (iter_key_ignores_numbers model_pairs_0 model_pairs_1 Hne Hwf0 Hwf1 eq_refl).
Defined.

Lemma get_all_sysvars_reads_latest_witness :
  latest_of_each_system (_case_keys (system_cases (opened two_systems_run)))
  = [comp_1; model_1]
  /\ _get_all_sysvars 5 two_systems_run true (opened two_systems_run)
     = (let* vars := grab_all two_systems_run true []
                              (latest_of_each_system
                                 (_case_keys (system_cases (opened two_systems_run)))) in
        ret (Some vars)) (opened two_systems_run).
Proof.
  assert (Hne : _case_keys (system_cases (opened two_systems_run)) <> [])
    by (vm_compute; discriminate).
  assert (Hfuel : (length (_case_keys (system_cases (opened two_systems_run))) < 5)%nat)
    by (vm_compute; lia).
  split; [vm_compute; reflexivity|].
  exact (get_all_sysvars_reads_latest 5 two_systems_run true (opened two_systems_run)
           Hne Hfuel).
Defined.

Local Abbreviation first_listing :=
  (_get_all_sysvars 5 two_systems_run true (opened two_systems_run)).

Lemma get_all_sysvars_again_witness :
  first_listing
  = (Return (Some [("z", {| value := "z"; residuals := Some (Residual "z") |});
                   ("y", {| value := "y"; residuals := Some (Residual "y") |})]),
     snd first_listing)
  /\ queries (snd first_listing) = (queries (opened two_systems_run) + 2)%nat
  /\ _get_all_sysvars 5 two_systems_run true (snd first_listing)
     = (Return (Some [("z", {| value := "z"; residuals := Some (Residual "z") |});
                      ("y", {| value := "y"; residuals := Some (Residual "y") |})]),
        snd first_listing).
Proof.
  assert (Hfuel : (length (_case_keys (system_cases (opened two_systems_run))) < 5)%nat)
    by (vm_compute; lia).
  assert (Hrun : first_listing
                 = (Return (Some [("z", {| value := "z";
                                           residuals := Some (Residual "z") |});
                                  ("y", {| value := "y";
                                           residuals := Some (Residual "y") |})]),
                    snd first_listing))
    by (vm_compute; reflexivity).
  split; [exact Hrun|]. split; [vm_compute; reflexivity|].
  exact (get_all_sysvars_again 5 two_systems_run true (opened two_systems_run)
           _ (snd first_listing) Hfuel Hrun).
Defined.

Lemma open_unsupported_version_witness :
  metadata future_run = Some [metadata_of 9]
  /\ recorder_format_version < md_format_version (metadata_of 9)
  /\ read_catalog (md_format_version (metadata_of 9)) (metadata_of 9) = Return tt
  /\ fst (open future_run true) = Raise ValueError
  /\ metadata ancient_run = Some [metadata_of 0]
  /\ md_format_version (metadata_of 0) < 1
  /\ fst (open ancient_run false) = Raise AttributeError.
Proof.
  assert (Hm : metadata future_run = Some [metadata_of 9]) by reflexivity.
  assert (Hc : read_catalog (md_format_version (metadata_of 9)) (metadata_of 9)
               = Return tt) by reflexivity.
  assert (Hv : recorder_format_version < md_format_version (metadata_of 9)).
  { simpl. lia. }
  assert (Hm0 : metadata ancient_run = Some [metadata_of 0]) by reflexivity.
  assert (Hv0 : md_format_version (metadata_of 0) < 1).
  { simpl. lia. }
  split; [exact Hm|]. split; [exact Hv|]. split; [exact Hc|].
  split.
  { exact (proj2 (open_unsupported_version future_run true (metadata_of 9) [] Hm)
                 Hv Hc). }
  split; [exact Hm0|]. split; [exact Hv0|].
  exact (proj1 (open_unsupported_version ancient_run false (metadata_of 0) [] Hm0) Hv0).
Defined.

Local Abbreviation loaded := (snd (open two_systems_run true)).

Lemma open_two_systems_run : open two_systems_run true = (Return tt, loaded).
Proof. vm_compute. reflexivity. Defined.

Lemma open_format_version_witness :
  exists rw rest,
    metadata two_systems_run = Some (rw :: rest)
    /\ format_version loaded = md_format_version rw
    /\ 1 <= format_version loaded <= recorder_format_version
    /\ exists dec, decoder_for (format_version loaded) = Some dec.
Proof.
  exact (open_format_version two_systems_run true loaded open_two_systems_run).
Defined.

Local Abbreviation system_keys := [model_0; comp_0; model_1; comp_1].

Lemma pre_load_serves_from_cache_witness :
  looked_up system loaded model_1 = Return model_1
  /\ table_keys system two_systems_run = Some system_keys
  /\ exists ref,
      _cases (store_of system loaded) !! model_1 = Some ref
      /\ get_case system two_systems_run model_1 loaded = (Return ref, loaded).
Proof.
  assert (Hk : system <> driver_derivative) by discriminate.
  assert (Hl : looked_up system loaded model_1 = Return model_1) by reflexivity.
  assert (Ht : table_keys system two_systems_run = Some system_keys) by reflexivity.
  assert (Hin : In model_1 system_keys) by (right; right; left; reflexivity).
  split; [exact Hl|]. split; [exact Ht|].
  exact (pre_load_serves_from_cache two_systems_run loaded system model_1 model_1
           system_keys open_two_systems_run Hk Hl Ht Hin).
Defined.

Lemma pre_load_skips_derivative_cases_witness :
  driver_derivatives two_systems_run = Some [derivative_row 1 7 "rank0:Driver|1"]
  /\ _cases (driver_derivative_cases loaded) = ∅.
Proof.
  split; [reflexivity|].
  exact (pre_load_skips_derivative_cases two_systems_run true loaded
           open_two_systems_run).
Defined.

Lemma open_caches_in_order_witness :
  keyed loaded /\ wf two_systems_run loaded.
Proof.
  exact (open_caches_in_order two_systems_run true loaded open_two_systems_run).
Defined.

Lemma opened_nested_run_keyed : keyed (opened nested_run).
Proof.
  intros k key ref H. exfalso.
  destruct k; vm_compute in H; discriminate H.
Defined.

Local Abbreviation outer_request :=
  (get_case solver nested_run outer_solver (opened nested_run)).

Lemma get_case_returns_requested_witness :
  outer_request = (Return 0%nat, snd outer_request)
  /\ (exists c obj,
         looked_up solver (opened nested_run) outer_solver = Return c
         /\ heap (snd outer_request) !! 0%nat = Some obj
         /\ category_of obj = solver
         /\ case_iteration_coordinate obj = c)
  /\ keyed (snd outer_request).
Proof.
  assert (H : outer_request = (Return 0%nat, snd outer_request))
    by (vm_compute; reflexivity).
  split; [exact H|].
  destruct (get_case_returns_requested solver nested_run outer_solver
              (opened nested_run) 0%nat (snd outer_request)
              opened_nested_run_keyed H) as (Hobj & Hkeyed & _).
  split; [exact Hobj|exact Hkeyed].
Defined.

Lemma coord_lengths_from_solver_rows_witness :
  exists srows,
    solver_iterations final_run = Some srows
    /\ In 2 (coord_lengths_of (solver_iter_of srows))
    /\ (forall keys c,
          table_keys solver final_run = Some keys -> In c keys ->
          In (Claimed.segment_count c) (coord_lengths_of (solver_iter_of srows)))
    /\ (forall n,
          In n (coord_lengths_of (solver_iter_of srows)) ->
          n = 2
          \/ exists k keys c,
              (k = solver \/ k = system)
              /\ table_keys k final_run = Some keys
              /\ In c keys
              /\ n = Claimed.segment_count c).
Proof.
  eexists. split; [reflexivity|].
  destruct (coord_lengths_from_solver_rows final_run _ eq_refl)
    as (_ & H2 & _ & Hin & Hout).
  split; [exact H2|]. split; [exact Hin|exact Hout].
Defined.


Lemma get_case_missing_table_witness :
  table_keys driver_derivative legacy_run = None
  /\ get_case driver_derivative legacy_run first_iteration (opened legacy_run)
     = (Raise OperationalError,
        with_counts (decoded (opened legacy_run)) (S (queries (opened legacy_run)))
                    (opened legacy_run)).
Proof.
  assert (Hl : looked_up driver_derivative (opened legacy_run) first_iteration
               = Return first_iteration) by reflexivity.
  assert (Hmiss : _cases (store_of driver_derivative (opened legacy_run))
                  !! first_iteration = None) by (vm_compute; reflexivity).
  assert (Ht : table_keys driver_derivative legacy_run = None) by reflexivity.
  split; [exact Ht|].
  exact (get_case_missing_table driver_derivative legacy_run first_iteration
           (opened legacy_run) first_iteration Hl Hmiss Ht).
Defined.

Lemma load_required_tables_witness :
  solver_iterations unsolved_run = None
  /\ fst (_load unsolved_run (reader_of_version 3)) = Raise OperationalError.
Proof.
  assert (Hv : 1 <= format_version (reader_of_version 3) <= recorder_format_version).
  { simpl. lia. }
  assert (Hs : solver_iterations unsolved_run = None) by reflexivity.
  split; [exact Hs|].
  exact (load_required_tables unsolved_run (reader_of_version 3) Hv
           (or_intror (or_intror Hs))).
Defined.

Lemma pre_load_needs_problem_cases_witness :
  problem_cases legacy_run = None
  /\ fst (open legacy_run false) = Return tt
  /\ forall b, fst (open legacy_run true) <> Return b.
Proof.
  assert (Hp : problem_cases legacy_run = None) by reflexivity.
  split; [exact Hp|]. split; [vm_compute; reflexivity|].
  exact (pre_load_needs_problem_cases legacy_run Hp).
Defined.

Local Abbreviation below_first_iteration :=
  (get_cases 3 nested_run first_iteration true true (opened nested_run)).

Lemma get_cases_yields_descendants_witness :
  fst (fst below_first_iteration) = [0%nat; 1%nat]
  /\ Forall (fun ref =>
               exists obj,
                 heap (snd below_first_iteration) !! ref = Some obj
                 /\ (category_of obj = solver
                     /\ Coord.startswith (case_iteration_coordinate obj) first_iteration
                        = true
                     /\ len (Coord.split first_iteration)
                        < len (Coord.split (case_iteration_coordinate obj))))
            (fst (fst below_first_iteration)).
Proof.
  assert (H1 : first_iteration <> "problem") by discriminate.
  assert (H2 : first_iteration <> "driver") by discriminate.
  assert (H3 : first_iteration <> "") by discriminate.
  assert (Hid : forall keys s, get_iteration_coordinate keys (Name s) = Return s)
    by (intros keys s; reflexivity).
  assert (Hrun : below_first_iteration
                 = ((fst (fst below_first_iteration), snd (fst below_first_iteration)),
                    snd below_first_iteration))
    by (vm_compute; reflexivity).
  split; [vm_compute; reflexivity|].
  exact (get_cases_yields_descendants 3 nested_run first_iteration true true
           (opened nested_run) _ _ _ H1 H2 H3 Hid opened_nested_run_keyed Hrun).
Defined.

Local Abbreviation driver_source :=
  (get_cases 0 two_systems_run "driver" true true (opened two_systems_run)).

Local Abbreviation driver_rows :=
  [driver_row 1 5 "rank0:Driver|0"; driver_row 2 6 "rank0:Driver|1"].

Lemma get_cases_driver_source_witness :
  fst driver_source = ([0%nat; 1%nat], Return tt)
  /\ Forall2 (fun ref rw =>
                (length (heap (opened two_systems_run)) <= ref)%nat
                /\ exists obj,
                    heap (snd driver_source) !! ref = Some obj
                    /\ category_of obj = driver
                    /\ case_iteration_coordinate obj = iteration_coordinate rw
                    /\ case_counter obj = counter rw)
             (fst (fst driver_source)) driver_rows.
Proof.
  assert (Ht : driver_iterations two_systems_run = Some driver_rows) by reflexivity.
  assert (Hrun : driver_source = ((fst (fst driver_source), Return tt), snd driver_source))
    by (vm_compute; reflexivity).
  split; [vm_compute; reflexivity|].
  exact (get_cases_driver_source 0 two_systems_run true true (opened two_systems_run)
           _ _ driver_rows Ht Hrun).
Defined.

Local Abbreviation problem_source :=
  (get_cases 0 two_systems_run "problem" true true loaded).

Lemma get_cases_problem_source_witness :
  length (heap loaded) = 7%nat
  /\ fst problem_source = ([7%nat], Return tt)
  /\ Forall2 (fun ref rw =>
                (length (heap loaded) <= ref)%nat
                /\ exists obj,
                    heap (snd problem_source) !! ref = Some obj
                    /\ category_of obj = problem
                    /\ case_iteration_coordinate obj = iteration_coordinate rw
                    /\ case_counter obj = counter rw)
             (fst (fst problem_source)) [problem_row 1 8 "final"].
Proof.
  assert (Ht : problem_cases two_systems_run = Some [problem_row 1 8 "final"])
    by reflexivity.
  assert (Hrun : problem_source
                 = ((fst (fst problem_source), Return tt), snd problem_source))
    by (vm_compute; reflexivity).
  split; [vm_compute; reflexivity|]. split; [vm_compute; reflexivity|].
  exact (get_cases_problem_source 0 two_systems_run true true loaded
           _ _ [problem_row 1 8 "final"] Ht Hrun).
Defined.

End Instances.
